(** * The step-execution engine of the bug reproducer, embedded in Rocq

    Sources embedded here (all under
    [cdk-github-bug-reproducer-cdk/lambda/ecs_task]):
    - [issue_processor/process_definitions.py]: variable interpolation,
      [Step.execute], [ForEach];
    - [issue_processor/converse_agent.py]: the agent loop;
    - [agents/context_memory.py]: the memory store;
    - [issue_processor/processor.py] and [index.py]: the entry of the
      process and the worker around it;
    and, under [cdk-github-bug-reproducer-cdk/lambda/github_webhook],
    [index.py]: the webhook.

    Python strings are modelled as [string] (a sequence of bytes; the three
    characters the interpolation looks at, [$], [{] and [}], are ASCII, and a
    UTF-8 sequence never contains an ASCII byte, so searching and replacing
    behave on the encoding as they do on code points). *)

From Stdlib Require Import Ascii ZArith Lia Bool DecimalString.
From Stdlib Require Import DecimalNat DecimalFacts.
From stdpp Require Import base option list gmap strings.

Local Open Scope char_scope.
Local Open Scope stdpp_scope.
#[local] Set Warnings "-register-all".

(** ** Python string primitives *)

Module PyStr.

(** [s.startswith(pat)] *)
Fixpoint starts_with (pat s : string) : bool :=
  match pat, s with
  | EmptyString, _ => true
  | String _ _, EmptyString => false
  | String a pat', String b s' => if Ascii.eqb a b then starts_with pat' s' else false
  end.

(** [pat in s] *)
Fixpoint contains (pat s : string) : bool :=
  starts_with pat s ||
  match s with
  | EmptyString => false
  | String _ s' => contains pat s'
  end.

(** [s.replace(old, new)] for a non-empty [old]: the occurrences of [old] are
    taken from the left and do not overlap; [skip] counts the characters of
    the occurrence just replaced that are still to be passed over. *)
Fixpoint replace_from (skip : nat) (old new s : string) : string :=
  match s with
  | EmptyString => EmptyString
  | String c s' =>
      match skip with
      | S k => replace_from k old new s'
      | O =>
          if starts_with old s
          then new +:+ replace_from (String.length old - 1) old new s'
          else String c (replace_from 0 old new s')
      end
  end.

(** With an empty [old], Python puts [new] before every character and at the
    end. *)
Fixpoint around (new s : string) : string :=
  match s with
  | EmptyString => new
  | String c s' => new +:+ String c (around new s')
  end.

Definition replace (s old new : string) : string :=
  match old with
  | EmptyString => around new s
  | String _ _ => replace_from 0 old new s
  end.

(** The part [([^}]+)}] of the pattern: the characters up to the first [}]. *)
Fixpoint name_upto_brace (s : string) : option string :=
  match s with
  | EmptyString => None
  | String c s' =>
      if Ascii.eqb c "}" then Some EmptyString
      else String c <$> name_upto_brace s'
  end.

(** A match of [\${([^}]+)}] anchored at the start of [s]: the group. The
    class [[^}]] cannot give back a [}], so the greedy match is the only
    one; an empty name is no match. *)
Definition match_var (s : string) : option string :=
  match s with
  | String "$" (String "{" s') =>
      match name_upto_brace s' with
      | Some (String c n) => Some (String c n)
      | _ => None
      end
  | _ => None
  end.

(** [re.findall(r'\${([^}]+)}', s)]: the groups of the matches, from the
    left, not overlapping. *)
Fixpoint findall_from (skip : nat) (s : string) : list string :=
  match s with
  | EmptyString => []
  | String c s' =>
      match skip with
      | S k => findall_from k s'
      | O =>
          match match_var s with
          | Some name => name :: findall_from (String.length name + 2) s'
          | None => findall_from 0 s'
          end
      end
  end.

Definition findall_vars (s : string) : list string := findall_from 0 s.

(** [f"${{{var}}}"] *)
Definition placeholder (var : string) : string := "${" +:+ var +:+ "}".

Example findall_two : findall_vars "x ${a} y ${b}${a}" = ["a"; "b"; "a"].
Proof. reflexivity. Qed.

Example findall_nested : findall_vars "${x${y} ${y} ${} ${z" = ["x${y"; "y"].
Proof. reflexivity. Qed.

Example replace_all : replace "a${v}b${v}" (placeholder "v") "12345" = "a12345b12345".
Proof. reflexivity. Qed.

Example replace_no_overlap : replace "aaa" "aa" "b" = "ba".
Proof. reflexivity. Qed.

Example replace_empty_old : replace "abc" EmptyString "-" = "-a-b-c-".
Proof. reflexivity. Qed.

(** *** Facts on the primitives *)

(** [c in s], for a character. *)
Fixpoint has_char (c : ascii) (s : string) : bool :=
  match s with
  | EmptyString => false
  | String d s' => Ascii.eqb c d || has_char c s'
  end.

Lemma str_app_cons c s t : String c s +:+ t = String c (s +:+ t).
Proof. reflexivity. Qed.

Lemma str_app_nil_l t : EmptyString +:+ t = t.
Proof. reflexivity. Qed.

Lemma str_app_assoc s t u : (s +:+ t) +:+ u = s +:+ (t +:+ u).
Proof. induction s as [|c s IH]; [done|]. by rewrite !str_app_cons, IH. Qed.

Lemma str_length_app s t : String.length (s +:+ t) = String.length s + String.length t.
Proof. induction s as [|c s IH]; [done|]. rewrite str_app_cons. cbn. by rewrite IH. Qed.

Lemma has_char_app c s t : has_char c (s +:+ t) = has_char c s || has_char c t.
Proof.
  induction s as [|d s IH]; [done|].
  rewrite str_app_cons. cbn. by rewrite IH, orb_assoc.
Qed.

Lemma starts_with_app pat rest : starts_with pat (pat +:+ rest) = true.
Proof.
  induction pat as [|c pat IH]; [done|].
  rewrite str_app_cons. cbn. by rewrite Ascii.eqb_refl.
Qed.

Lemma starts_with_split pat s : starts_with pat s = true → ∃ rest, s = pat +:+ rest.
Proof.
  revert s. induction pat as [|c pat IH]; intros s H; [by exists s|].
  destruct s as [|d s]; [done|]. cbn in H.
  destruct (Ascii.eqb_spec c d) as [->|]; [|done].
  destruct (IH s H) as [rest ->]. by exists rest.
Qed.

Lemma contains_starts pat s : starts_with pat s = true → contains pat s = true.
Proof. intros H. destruct s; cbn; by rewrite H. Qed.

Lemma contains_cons pat c s : contains pat s = true → contains pat (String c s) = true.
Proof. intros H. cbn. rewrite H. apply orb_true_r. Qed.

Lemma contains_app_r pat pre s : contains pat s = true → contains pat (pre +:+ s) = true.
Proof.
  intros H. induction pre as [|c pre IH]; [done|].
  rewrite str_app_cons. by apply contains_cons.
Qed.

Lemma replace_from_skip old new pre s :
  replace_from (String.length pre) old new (pre +:+ s) = replace_from 0 old new s.
Proof. induction pre as [|c pre IH]; [done|]. rewrite str_app_cons. by cbn. Qed.

Lemma replace_from_match c old new rest :
  replace_from 0 (String c old) new (String c old +:+ rest)
  = new +:+ replace_from 0 (String c old) new rest.
Proof.
  rewrite str_app_cons.
  assert (Hs : starts_with (String c old) (String c (old +:+ rest)) = true).
  { rewrite <- str_app_cons. apply starts_with_app. }
  cbn [replace_from]. rewrite Hs. cbn [String.length]. rewrite Nat.sub_1_r. cbn [Nat.pred].
  by rewrite replace_from_skip.
Qed.

Lemma replace_from_other old new c s :
  starts_with old (String c s) = false →
  replace_from 0 old new (String c s) = String c (replace_from 0 old new s).
Proof. intros H. cbn [replace_from]. by rewrite H. Qed.

Lemma contains_unfold pat c s :
  contains pat (String c s) = starts_with pat (String c s) || contains pat s.
Proof. reflexivity. Qed.

Lemma placeholder_unfold var :
  placeholder var = String "$" (String "{" (var +:+ "}")).
Proof. reflexivity. Qed.

(** A pattern that starts with [$] matches at no other character. *)
Lemma starts_with_dollar_other pat c s :
  Ascii.eqb "$" c = false → starts_with (String "$" pat) (String c s) = false.
Proof. intros H. cbn [starts_with]. by rewrite H. Qed.

Lemma replace_from_plain pat new t rest :
  has_char "$" t = false →
  replace_from 0 (String "$" pat) new (t +:+ rest)
  = t +:+ replace_from 0 (String "$" pat) new rest.
Proof.
  induction t as [|c t IH]; intros H; [done|].
  cbn [has_char] in H. apply orb_false_iff in H as [Hc Ht].
  rewrite !str_app_cons, replace_from_other by by apply starts_with_dollar_other.
  by rewrite IH.
Qed.

Lemma contains_plain pat t rest :
  has_char "$" t = false →
  contains (String "$" pat) (t +:+ rest) = contains (String "$" pat) rest.
Proof.
  induction t as [|c t IH]; intros H; [done|].
  cbn [has_char] in H. apply orb_false_iff in H as [Hc Ht].
  rewrite str_app_cons, contains_unfold, starts_with_dollar_other by done.
  by rewrite IH.
Qed.

(** Two names without [}] whose placeholders start the same text are the
    same name. *)
Lemma name_prefix_inj a b rest :
  has_char "}" a = false → has_char "}" b = false →
  starts_with (a +:+ "}") ((b +:+ "}") +:+ rest) = true → a = b.
Proof.
  revert b. induction a as [|c a IH]; intros [|d b] Ha Hb H; [done|..].
  - cbn [has_char] in Hb. apply orb_false_iff in Hb as [Hd _].
    rewrite str_app_nil_l, !str_app_cons in H. cbn [starts_with] in H.
    by rewrite Hd in H.
  - cbn [has_char] in Ha. apply orb_false_iff in Ha as [Hc _].
    rewrite str_app_nil_l, !str_app_cons in H. cbn [starts_with] in H.
    rewrite Ascii.eqb_sym, Hc in H. done.
  - cbn [has_char] in Ha, Hb.
    apply orb_false_iff in Ha as [_ Ha]. apply orb_false_iff in Hb as [_ Hb].
    rewrite !str_app_cons in H. cbn [starts_with] in H.
    destruct (Ascii.eqb_spec c d) as [->|]; [|done].
    f_equal. by apply IH.
Qed.

Lemma placeholder_prefix_inj a b rest :
  has_char "}" a = false → has_char "}" b = false →
  starts_with (placeholder a) (placeholder b +:+ rest) = true → a = b.
Proof.
  intros Ha Hb H. rewrite !placeholder_unfold, !str_app_cons in H.
  cbn [starts_with] in H. rewrite !Ascii.eqb_refl in H.
  by apply (name_prefix_inj a b rest).
Qed.

Lemma replace_placeholder s var new :
  replace s (placeholder var) new = replace_from 0 (placeholder var) new s.
Proof. reflexivity. Qed.

(** Replacing the placeholder of [b] keeps an occurrence of the placeholder
    of another name [a], when neither name holds a [$] or a [}]: the two
    placeholders cannot overlap. *)
Lemma contains_placeholder_replace a b v :
  a ≠ b →
  has_char "}" a = false → has_char "}" b = false →
  has_char "$" a = false → has_char "$" b = false →
  ∀ s, contains (placeholder a) s = true →
       contains (placeholder a) (replace s (placeholder b) v) = true.
Proof.
  intros Hab Ha Hb Hda Hdb s. rewrite replace_placeholder.
  assert (Hlen : ∃ n, String.length s ≤ n) by (by exists (String.length s)).
  destruct Hlen as [n Hn]. revert s Hn.
  induction n as [|n IH]; intros s Hn Hc.
  { destruct s; [done|cbn in Hn; lia]. }
  destruct s as [|c s]; [done|].
  destruct (starts_with (placeholder b) (String c s)) eqn:Hsb.
  - destruct (starts_with_split _ _ Hsb) as [rest Hrest]. rewrite Hrest in *.
    assert (Hm : replace_from 0 (placeholder b) v (placeholder b +:+ rest)
                 = v +:+ replace_from 0 (placeholder b) v rest).
    { rewrite placeholder_unfold. apply replace_from_match. }
    rewrite Hm. apply contains_app_r. apply IH.
    + rewrite str_length_app in Hn. rewrite placeholder_unfold in Hn. cbn in Hn. lia.
    + assert (Hu : placeholder b +:+ rest
                   = String "$" (String "{" ((b +:+ "}") +:+ rest))) by done.
      rewrite Hu, !contains_unfold in Hc. rewrite <- Hu in Hc.
      apply orb_true_iff in Hc as [Hc|Hc].
      { exfalso. apply Hab. by apply (placeholder_prefix_inj a b rest). }
      rewrite (placeholder_unfold a) in Hc.
      rewrite starts_with_dollar_other in Hc by done. cbn [orb] in Hc.
      rewrite contains_plain in Hc; [by rewrite placeholder_unfold|].
      rewrite has_char_app, Hdb. done.
  - rewrite replace_from_other by done.
    rewrite contains_unfold in Hc. apply orb_true_iff in Hc as [Hc|Hc].
    + destruct (starts_with_split _ _ Hc) as [rest Hrest].
      rewrite (placeholder_unfold a), !str_app_cons in Hrest.
      injection Hrest as -> ->.
      assert (Hp : replace_from 0 (placeholder b) v (String "{" ((a +:+ "}") +:+ rest))
                   = String "{" (a +:+ "}") +:+ replace_from 0 (placeholder b) v rest).
      { rewrite placeholder_unfold.
        apply (replace_from_plain _ v (String "{" (a +:+ "}")) rest).
        cbn [has_char]. rewrite has_char_app, Hda. done. }
      rewrite Hp. apply contains_starts.
      apply (starts_with_app (placeholder a)).
    + apply contains_cons. apply IH; [cbn in Hn; lia|done].
Qed.

(** What the pattern matches is a placeholder of the text, and its name is
    not empty and holds no [}]. *)
Lemma name_upto_brace_spec s name :
  name_upto_brace s = Some name →
  has_char "}" name = false ∧ starts_with (name +:+ "}") s = true.
Proof.
  revert name. induction s as [|c s IH]; intros name H; [done|].
  cbn [name_upto_brace] in H. destruct (Ascii.eqb c "}") eqn:Hc.
  - injection H as <-. split; [done|].
    apply Ascii.eqb_eq in Hc as ->. done.
  - destruct (name_upto_brace s) as [n|]; [|done]. injection H as <-.
    destruct (IH n eq_refl) as [Hn Hs]. split.
    + cbn [has_char]. by rewrite Ascii.eqb_sym, Hc.
    + rewrite str_app_cons. cbn [starts_with]. by rewrite Ascii.eqb_refl.
Qed.

Lemma match_var_spec s name :
  match_var s = Some name →
  name ≠ EmptyString ∧ has_char "}" name = false
  ∧ starts_with (placeholder name) s = true.
Proof.
  unfold match_var. intros H.
  destruct s as [|c1 [|c2 s]]; try done.
  - by destruct (Ascii.eqb_spec c1 "$") as [->|]; [|destruct c1 as [[] [] [] [] [] [] [] []]].
  - destruct (Ascii.eqb_spec c1 "$") as [->|];
      [|by destruct c1 as [[] [] [] [] [] [] [] []]].
    destruct (Ascii.eqb_spec c2 "{") as [->|];
      [|by destruct c2 as [[] [] [] [] [] [] [] []]].
    destruct (name_upto_brace s) as [[|c n]|] eqn:Hn; try done.
    injection H as <-. destruct (name_upto_brace_spec _ _ Hn) as [Hb Hs].
    split; [done|]. split; [done|].
    rewrite placeholder_unfold. cbn [starts_with]. by rewrite !Ascii.eqb_refl.
Qed.

Lemma findall_from_spec name s :
  ∀ skip, name ∈ findall_from skip s →
  name ≠ EmptyString ∧ has_char "}" name = false
  ∧ contains (placeholder name) s = true.
Proof.
  induction s as [|c s IH]; intros skip H; [by apply elem_of_nil in H|].
  assert (Hrec : ∀ k, name ∈ findall_from k s →
    name ≠ EmptyString ∧ has_char "}" name = false
    ∧ contains (placeholder name) (String c s) = true).
  { intros k Hk. destruct (IH k Hk) as (? & ? & ?).
    split_and!; [done..|]. by apply contains_cons. }
  cbn [findall_from] in H. destruct skip as [|k]; [|by apply (Hrec k)].
  destruct (match_var (String c s)) as [n|] eqn:Hm; [|by apply (Hrec 0)].
  apply elem_of_cons in H as [->|H]; [|by apply (Hrec (String.length n + 2))].
  destruct (match_var_spec _ _ Hm) as (? & ? & ?).
  split_and!; [done..|]. by apply contains_starts.
Qed.

Lemma findall_vars_spec name s :
  name ∈ findall_vars s →
  name ≠ EmptyString ∧ has_char "}" name = false
  ∧ contains (placeholder name) s = true.
Proof. apply findall_from_spec. Qed.

(** The pattern finds the name of a placeholder. *)
Lemma name_upto_brace_app name rest :
  has_char "}" name = false →
  name_upto_brace ((name +:+ "}") +:+ rest) = Some name.
Proof.
  induction name as [|c name IH]; intros H; [done|].
  cbn [has_char] in H. apply orb_false_iff in H as [Hc Hn].
  rewrite !str_app_cons. cbn [name_upto_brace]. rewrite Ascii.eqb_sym, Hc.
  by rewrite IH.
Qed.

Lemma match_var_placeholder name rest :
  name ≠ EmptyString → has_char "}" name = false →
  match_var (placeholder name +:+ rest) = Some name.
Proof.
  intros Hne Hb.
  change (placeholder name +:+ rest)
    with (String "$" (String "{" ((name +:+ "}") +:+ rest))).
  cbn [match_var]. rewrite name_upto_brace_app by done. by destruct name.
Qed.

Lemma findall_from_skipped s : ∀ skip, String.length s ≤ skip → findall_from skip s = [].
Proof.
  induction s as [|c s IH]; intros skip H; [done|].
  destruct skip as [|k]; cbn in H; [lia|]. cbn [findall_from]. apply IH. lia.
Qed.

Lemma findall_from_match c s name :
  match_var (String c s) = Some name →
  findall_from 0 (String c s) = name :: findall_from (String.length name + 2) s.
Proof. intros H. cbn [findall_from]. by rewrite H. Qed.

Lemma findall_vars_placeholder name :
  name ≠ EmptyString → has_char "}" name = false →
  findall_vars (placeholder name) = [name].
Proof.
  intros Hne Hb. unfold findall_vars.
  pose proof (match_var_placeholder name EmptyString Hne Hb) as Hm.
  change (placeholder name +:+ EmptyString)
    with (String "$" (String "{" ((name +:+ "}") +:+ EmptyString))) in Hm.
  assert (Hnil : (name +:+ "}") +:+ EmptyString = name +:+ "}").
  { by rewrite str_app_assoc. }
  rewrite Hnil in Hm. rewrite placeholder_unfold.
  rewrite (findall_from_match _ _ _ Hm). f_equal.
  apply findall_from_skipped. cbn [String.length]. rewrite str_length_app. cbn. lia.
Qed.

(** Text without [$] holds no variable and is copied by a replacement. *)
Lemma str_app_nil_r s : s +:+ EmptyString = s.
Proof. induction s as [|c s IH]; [done|]. by rewrite str_app_cons, IH. Qed.

Lemma match_var_other c s : Ascii.eqb "$" c = false → match_var (String c s) = None.
Proof.
  intros H. unfold match_var.
  destruct (Ascii.eqb_spec c "$") as [->|Hne]; [done|].
  by destruct c as [[] [] [] [] [] [] [] []].
Qed.

Lemma findall_from_plain t rest :
  has_char "$" t = false → findall_from 0 (t +:+ rest) = findall_from 0 rest.
Proof.
  induction t as [|c t IH]; intros H; [done|].
  cbn [has_char] in H. apply orb_false_iff in H as [Hc Ht].
  rewrite str_app_cons. cbn [findall_from]. rewrite match_var_other by done.
  by apply IH.
Qed.

Lemma findall_from_skip pre s :
  findall_from (String.length pre) (pre +:+ s) = findall_from 0 s.
Proof. induction pre as [|c pre IH]; [done|]. rewrite str_app_cons. by cbn. Qed.

(** A template with one placeholder and no other [$]. *)
Lemma findall_vars_plain_template pre name post :
  has_char "$" pre = false → has_char "$" post = false →
  name ≠ EmptyString → has_char "}" name = false →
  findall_vars (pre +:+ placeholder name +:+ post) = [name].
Proof.
  intros Hpre Hpost Hne Hb. unfold findall_vars. rewrite findall_from_plain by done.
  pose proof (match_var_placeholder name post Hne Hb) as Hm.
  change (placeholder name +:+ post)
    with (String "$" (String "{" (name +:+ "}") +:+ post)) in *.
  rewrite (findall_from_match _ _ _ Hm). f_equal.
  assert (Hlen : String.length name + 2 = String.length (String "{" (name +:+ "}"))).
  { cbn [String.length]. rewrite str_length_app. cbn. lia. }
  rewrite Hlen, findall_from_skip.
  by rewrite <- (str_app_nil_r post), findall_from_plain.
Qed.

Lemma replace_plain_template pre name post new :
  has_char "$" pre = false → has_char "$" post = false →
  replace (pre +:+ placeholder name +:+ post) (placeholder name) new
  = pre +:+ new +:+ post.
Proof.
  intros Hpre Hpost. rewrite replace_placeholder, placeholder_unfold.
  rewrite replace_from_plain by done. rewrite replace_from_match.
  rewrite <- (str_app_nil_r post) at 1. rewrite replace_from_plain by done.
  cbn [replace_from]. by rewrite str_app_nil_r.
Qed.

End PyStr.

(** ** The memory tool as the step engine sees it

    The engine reaches the memory store only through the tool-call function
    [func] handed to it; a call returns a [CallToolResult], of which the
    engine reads the [text] of the content items. *)

Module Tool.

(** The [content] of a [CallToolResult]: the [text] of each item ([None] when
    an item has none). *)
Definition CallToolResult : Type := list (option string).

(** The value [read_memory_entry] returns for a key it does not know. *)
Definition no_entry : string := "No entry found for the given key.".

(** The test the engine applies to a read result before it uses it
    (process_definitions.py, lines 82, 286 and 311):
    [len(value.content) > 0 and value.content[0].text is not None and
     value.content[0].text != "No entry found for the given key."]. *)
Definition has_entry (value : CallToolResult) : bool :=
  match value with
  | Some text :: _ => negb (String.eqb text no_entry)
  | _ => false
  end.

(** [value.content[0].text], where [has_entry] holds. *)
Definition first_text (value : CallToolResult) : string :=
  match value with
  | Some text :: _ => text
  | _ => EmptyString
  end.

(** [sep.join(parts)] *)
Fixpoint join (sep : string) (parts : list string) : string :=
  match parts with
  | [] => EmptyString
  | [p] => p
  | p :: rest => p +:+ sep +:+ join sep rest
  end.

(** [process_context_memory_return_value]: [None] for an empty content, a
    first item without text or the absent sentinel; otherwise the texts
    joined by newlines. *)
Definition process_context_memory_return_value (response : CallToolResult) : option string :=
  match response with
  | [] => None
  | None :: _ => None
  | Some text :: _ =>
      if String.eqb text no_entry then None
      else Some (join (String "010" EmptyString) (omap id response))
  end.

(** What a call of [func] does: it returns a result or raises. *)
Inductive reply : Type :=
  | Returns (value : CallToolResult)
  | Raises (error : string).

Example return_value_joined :
  process_context_memory_return_value [Some "a"; None; Some "b"]
  = Some ("a" +:+ String "010" "b").
Proof. reflexivity. Qed.

Example return_value_absent :
  process_context_memory_return_value [Some no_entry; Some "b"] = None.
Proof. reflexivity. Qed.

End Tool.

(** ** [replace_context_variables] *)

Module Interp.
Import PyStr Tool.

(** What a call leaves behind besides the prompt: the reads of the memory
    tool and the records of the logger. *)
Inductive event : Type :=
  | Consulted (var : string)
  | Info (var text : string)
  | Warning (var : string)
  | Error (var error : string).

Section Replace.
(** [func("read_memory_entry", {"entry_key": var})], as a function of
    [var]. *)
Variable func : string → reply.
(** [overrwirte_contex_memory]; its values are taken in the form
    [str(...)] gives them. *)
Variable overrwirte_contex_memory : gmap string string.

(** One round of the loop [for var in variables]; the second component
    collects the events. The [except Exception] of the body is the
    [Raises] case: logged, and the loop goes on. *)
Definition resolve_var (st : string * list event) (var : string) : string * list event :=
  match overrwirte_contex_memory !! var with
  | Some v => (replace st.1 (placeholder var) v, st.2)
  | None =>
      match func var with
      | Returns value =>
          if has_entry value
          then (replace st.1 (placeholder var) (first_text value),
                st.2 ++ [Consulted var; Info var (first_text value)])
          else (st.1, st.2 ++ [Consulted var; Warning var])
      | Raises e => (st.1, st.2 ++ [Consulted var; Error var e])
      end
  end.

(** The loop over a list of variables, from a prompt and a log. *)
Definition resolve_vars (variables : list string) (st : string * list event) : string * list event :=
  fold_left resolve_var variables st.

(** The variables are found once, in the prompt as it is given; the
    loop then rewrites the prompt variable by variable. *)
Definition replace_context_variables (prompt : string) : string * list event :=
  resolve_vars (findall_vars prompt) (prompt, []).

(** The spec's words for the pass ("resolve-one-pass, no recursive
    re-expansion"): what a variable resolves to, and a single scan of the
    template that writes the resolved value in place of each match (the
    match itself where the variable resolves to nothing) and never looks at
    what it wrote. *)
Definition resolved (var : string) : option string :=
  match overrwirte_contex_memory !! var with
  | Some v => Some v
  | None =>
      match func var with
      | Returns value => if has_entry value then Some (first_text value) else None
      | Raises _ => None
      end
  end.

Fixpoint single_pass_from (skip : nat) (s : string) : string :=
  match s with
  | EmptyString => EmptyString
  | String c s' =>
      match skip with
      | S k => single_pass_from k s'
      | O =>
          match match_var s with
          | Some name =>
              default (placeholder name) (resolved name)
                +:+ single_pass_from (String.length name + 2) s'
          | None => String c (single_pass_from 0 s')
          end
      end
  end.

Definition single_pass (prompt : string) : string := single_pass_from 0 prompt.

End Replace.

(** A memory in which no key is known. *)
Definition empty_memory : string → reply := λ _, Returns [Some no_entry].

(** A memory given by a finite map from keys to read results. *)
Definition memory_of (m : gmap string CallToolResult) : string → reply :=
  λ key, Returns (default [Some no_entry] (m !! key)).

Example interpolate_three_cases :
  replace_context_variables
    (memory_of {[ "m" := [Some "from memory"] ]}) {[ "o" := "from override" ]}
    "${o} / ${m} / ${u}"
  = ("from override / from memory / ${u}",
     [Consulted "m"; Info "m" "from memory"; Consulted "u"; Warning "u"]).
Proof. vm_compute. reflexivity. Qed.

(** *** The names are collected once *)

Lemma resolve_vars_app func ov l1 l2 st :
  resolve_vars func ov (l1 ++ l2) st = resolve_vars func ov l2 (resolve_vars func ov l1 st).
Proof. unfold resolve_vars. apply fold_left_app. Qed.

(** A round depends on the memory and on the override map at its own
    variable only. *)
Lemma resolve_var_agree func1 ov1 func2 ov2 st var :
  func1 var = func2 var → ov1 !! var = ov2 !! var →
  resolve_var func1 ov1 st var = resolve_var func2 ov2 st var.
Proof. intros Hf Ho. unfold resolve_var. by rewrite Hf, Ho. Qed.

Lemma resolve_vars_agree func1 ov1 func2 ov2 variables :
  (∀ var, var ∈ variables → func1 var = func2 var ∧ ov1 !! var = ov2 !! var) →
  ∀ st, resolve_vars func1 ov1 variables st = resolve_vars func2 ov2 variables st.
Proof.
  induction variables as [|var rest IH]; intros Hagree st; [done|].
  destruct (Hagree var) as [Hf Ho]; [left|].
  cbn. rewrite (resolve_var_agree func1 ov1 func2 ov2 st var Hf Ho).
  apply IH. intros v Hv. apply Hagree. by right.
Qed.

Lemma interpolation_agrees func1 ov1 func2 ov2 prompt :
  (∀ var, var ∈ findall_vars prompt → func1 var = func2 var ∧ ov1 !! var = ov2 !! var) →
  replace_context_variables func1 ov1 prompt = replace_context_variables func2 ov2 prompt.
Proof. intros H. unfold replace_context_variables. by apply resolve_vars_agree. Qed.

(** The memory is read for the loop's own variables only. *)
Lemma resolve_var_consulted func ov st var key :
  Consulted key ∈ (resolve_var func ov st var).2 →
  Consulted key ∈ st.2 ∨ key = var ∧ ov !! var = None.
Proof.
  unfold resolve_var. destruct (ov !! var) as [v|]; cbn; [by left|].
  destruct (func var) as [value|e]; [destruct (has_entry value)|]; cbn;
    rewrite elem_of_app; intros [?|Hin]; auto;
    apply elem_of_cons in Hin as [[= ->]|Hin]; auto;
    apply elem_of_cons in Hin as [?|Hin]; try done; by apply elem_of_nil in Hin.
Qed.

Lemma resolve_vars_consulted func ov variables :
  ∀ st key, Consulted key ∈ (resolve_vars func ov variables st).2 →
  Consulted key ∈ st.2 ∨ key ∈ variables ∧ ov !! key = None.
Proof.
  induction variables as [|var rest IH]; intros st key Hin; [by left|].
  cbn in Hin. apply IH in Hin as [Hin|[Hin Hov]].
  - apply resolve_var_consulted in Hin as [?|[-> ?]]; [by left|].
    right. split; [left|done].
  - right. split; [by right|done].
Qed.

(** *** What a round does to the prompt *)

Lemma resolve_var_unresolved func ov st var :
  resolved func ov var = None → (resolve_var func ov st var).1 = st.1.
Proof.
  unfold resolved, resolve_var. destruct (ov !! var); [done|].
  destruct (func var) as [value|]; [|done]. by destruct (has_entry value).
Qed.

Lemma resolve_var_resolved func ov st var v :
  resolved func ov var = Some v →
  (resolve_var func ov st var).1 = replace st.1 (placeholder var) v.
Proof.
  unfold resolved, resolve_var. destruct (ov !! var); [by intros [= ->]|].
  destruct (func var) as [value|]; [|done].
  destruct (has_entry value); [by intros [= ->]|done].
Qed.

(** The placeholder of a variable that resolves to nothing stays in the
    prompt through the rounds of the other variables, when no name holds a
    [$]. *)
Lemma resolve_vars_keeps_placeholder func ov a variables :
  resolved func ov a = None →
  has_char "}" a = false → has_char "$" a = false →
  (∀ var, var ∈ variables → has_char "}" var = false ∧ has_char "$" var = false) →
  ∀ st, contains (placeholder a) st.1 = true →
        contains (placeholder a) (resolve_vars func ov variables st).1 = true.
Proof.
  intros Hnone Ha Hda. induction variables as [|var rest IH]; intros Hvars st Hc; [done|].
  cbn. apply IH; [intros v Hv; apply Hvars; by right|].
  destruct (Hvars var) as [Hb Hdb]; [left|].
  destruct (resolved func ov var) as [v|] eqn:Hres.
  - rewrite (resolve_var_resolved _ _ _ _ _ Hres).
    apply contains_placeholder_replace; try done. intros ->. congruence.
  - by rewrite (resolve_var_unresolved _ _ _ _ Hres).
Qed.

Lemma resolve_vars_log_grows func ov variables :
  ∀ st e, e ∈ st.2 → e ∈ (resolve_vars func ov variables st).2.
Proof.
  induction variables as [|var rest IH]; intros st e He; [done|].
  cbn. apply IH. unfold resolve_var. destruct (ov !! var); [done|].
  destruct (func var) as [value|]; [destruct (has_entry value)|]; cbn;
    try done; apply elem_of_app; by left.
Qed.

Lemma resolve_vars_round func ov l1 a l2 st :
  resolve_vars func ov (l1 ++ a :: l2) st
  = resolve_vars func ov l2 (resolve_var func ov (resolve_vars func ov l1 st) a).
Proof. by rewrite resolve_vars_app. Qed.

(** On a template with one placeholder and no other [$], the output is the
    template with the value in the place of the placeholder, whatever the
    value holds. *)
Lemma interpolation_plain_template func ov pre a post v :
  has_char "$" pre = false → has_char "$" post = false →
  a ≠ EmptyString → has_char "}" a = false →
  resolved func ov a = Some v →
  (replace_context_variables func ov (pre +:+ placeholder a +:+ post)).1
  = pre +:+ v +:+ post.
Proof.
  intros Hpre Hpost Hne Hb Hres. unfold replace_context_variables.
  rewrite findall_vars_plain_template by done. cbn [resolve_vars fold_left].
  rewrite (resolve_var_resolved _ _ _ _ _ Hres). cbn [fst].
  by apply replace_plain_template.
Qed.

(** *** The three cases of a variable *)

(** C3, as amended. For every template in which [${a}] is found as a
    variable, the call returns (it never raises), and:
    - if [a] is a key of the override map, the round of [a] replaces every
      [${a}] of the text by the override value, and the memory is never
      consulted for [a];
    - if [a] is not in the override map and the memory read returns a value,
      the round of [a] replaces every [${a}] by the stored text;
    - if [a] is in neither, the round of [a] leaves the text as it is and a
      warning is recorded; [${a}] is then still in the output, provided no
      variable name of the template holds a [$];
    - on a template whose only [$] is that of [${a}], the output is the
      template with the value [a] resolves to in the place of [${a}]. *)
Theorem interpolation_three_cases func ov prompt a :
  a ∈ findall_vars prompt →
  let before l1 := resolve_vars func ov l1 (prompt, []) in
  let result := replace_context_variables func ov prompt in
  (∃ out log, result = (out, log))
  ∧ (∀ v, ov !! a = Some v →
       (Consulted a ∉ result.2)
       ∧ ∀ l1 l2, findall_vars prompt = l1 ++ a :: l2 →
           result = resolve_vars func ov l2
                      (replace (before l1).1 (placeholder a) v, (before l1).2))
  ∧ (∀ value, ov !! a = None → func a = Returns value → has_entry value = true →
       ∀ l1 l2, findall_vars prompt = l1 ++ a :: l2 →
         result = resolve_vars func ov l2
                    (replace (before l1).1 (placeholder a) (first_text value),
                     (before l1).2 ++ [Consulted a; Info a (first_text value)]))
  ∧ (∀ value, ov !! a = None → func a = Returns value → has_entry value = false →
       Warning a ∈ result.2
       ∧ (∀ l1 l2, findall_vars prompt = l1 ++ a :: l2 →
            result = resolve_vars func ov l2
                       ((before l1).1, (before l1).2 ++ [Consulted a; Warning a]))
       ∧ ((∀ var, var ∈ findall_vars prompt → has_char "$" var = false) →
            contains (placeholder a) result.1 = true))
  ∧ (∀ pre post v, prompt = pre +:+ placeholder a +:+ post →
       has_char "$" pre = false → has_char "$" post = false →
       resolved func ov a = Some v →
       result.1 = pre +:+ v +:+ post).
Proof.
  intros Hin before result.
  assert (Hround : ∀ l1 l2, findall_vars prompt = l1 ++ a :: l2 →
            result = resolve_vars func ov l2 (resolve_var func ov (before l1) a)).
  { intros l1 l2 Hsplit. unfold result, replace_context_variables.
    by rewrite Hsplit, resolve_vars_round. }
  split_and!.
  - exists result.1, result.2. by destruct result.
  - intros v Hov. split.
    + intros Hc. apply resolve_vars_consulted in Hc as [Hc|[_ Hc]].
      * by apply elem_of_nil in Hc.
      * congruence.
    + intros l1 l2 Hsplit. rewrite (Hround l1 l2 Hsplit).
      unfold resolve_var. by rewrite Hov.
  - intros value Hov Hf Hhas l1 l2 Hsplit. rewrite (Hround l1 l2 Hsplit).
    unfold resolve_var. by rewrite Hov, Hf, Hhas.
  - intros value Hov Hf Hhas.
    assert (Hstep : ∀ l1 l2, findall_vars prompt = l1 ++ a :: l2 →
              result = resolve_vars func ov l2
                         ((before l1).1, (before l1).2 ++ [Consulted a; Warning a])).
    { intros l1 l2 Hsplit. rewrite (Hround l1 l2 Hsplit).
      unfold resolve_var. by rewrite Hov, Hf, Hhas. }
    split_and!; [|done|].
    + apply list_elem_of_split in Hin as (l1 & l2 & Hsplit).
      rewrite (Hstep l1 l2 Hsplit). apply resolve_vars_log_grows. cbn.
      apply elem_of_app. right. apply elem_of_cons. right. by left.
    + intros Hplain. destruct (findall_vars_spec _ _ Hin) as (_ & Hb & Hc).
      apply resolve_vars_keeps_placeholder; try done.
      * unfold resolved. by rewrite Hov, Hf, Hhas.
      * by apply Hplain.
      * intros var Hvar. destruct (findall_vars_spec _ _ Hvar) as (_ & ? & _).
        split; [done|by apply Hplain].
  - intros pre post v -> Hpre Hpost Hres.
    destruct (findall_vars_spec _ _ Hin) as (Hne & Hb & _).
    by apply interpolation_plain_template.
Qed.

(** The three cases on the template [${o} / ${m} / ${u}], where [o] is
    overridden, [m] is in the memory and [u] is in neither. *)
Lemma interpolation_three_cases_witness :
  "u" ∈ findall_vars "${o} / ${m} / ${u}"
  ∧ contains (placeholder "u")
      (replace_context_variables
         (memory_of {[ "m" := [Some "from memory"] ]}) {[ "o" := "from override" ]}
         "${o} / ${m} / ${u}").1 = true.
Proof.
  assert (Hin : "u" ∈ findall_vars "${o} / ${m} / ${u}").
  { vm_compute. apply elem_of_cons. right. apply elem_of_cons. right.
    apply elem_of_cons. by left. }
  split; [exact Hin|].
  destruct (interpolation_three_cases
              (memory_of {[ "m" := [Some "from memory"] ]})
              {[ "o" := "from override" ]}
              "${o} / ${m} / ${u}" "u" Hin) as (_ & _ & _ & Habsent & _).
  destruct (Habsent [Some no_entry]) as (_ & _ & Hkept); [reflexivity..|].
  apply Hkept. intros var Hvar. vm_compute in Hvar.
  apply elem_of_cons in Hvar as [->|Hvar]; [reflexivity|].
  apply elem_of_cons in Hvar as [->|Hvar]; [reflexivity|].
  apply elem_of_cons in Hvar as [->|Hvar]; [reflexivity|].
  by apply elem_of_nil in Hvar.
Defined.

(** C3, as stated, fails: in the template [${x${y} ${y}] the pattern finds
    the names [x${y] and [y]; with [y] overridden and [x${y] in neither the
    override map nor the memory, the round of [y] rewrites the inside of
    [${x${y}], which is not left unchanged in the output. *)
Lemma placeholder_lost_with_nested_name :
  ¬ (∀ func ov prompt a value,
       a ∈ findall_vars prompt →
       ov !! a = None → func a = Returns value → has_entry value = false →
       contains (placeholder a) (replace_context_variables func ov prompt).1 = true).
Proof.
  intros H.
  specialize (H empty_memory {[ "y" := "Z" ]} "${x${y} ${y}" "x${y" [Some no_entry]).
  assert (Hout : (replace_context_variables empty_memory {[ "y" := "Z" ]}
                    "${x${y} ${y}").1 = "${xZ Z") by (vm_compute; reflexivity).
  rewrite Hout in H. discriminate H; try reflexivity.
  vm_compute. apply elem_of_cons. by left.
Qed.

(** *** Rounds in the order of the names *)

(** The amended claim's words for the call: one round per collected name,
    in the order of the names; a round replaces, in the whole text as the
    earlier rounds left it, the placeholder of its name by what the name
    resolves to, and leaves the text alone when the name resolves to
    nothing. *)
Definition round (func : string → reply) (ov : gmap string string)
    (text var : string) : string :=
  match resolved func ov var with
  | Some v => replace text (placeholder var) v
  | None => text
  end.

Definition rounds (func : string → reply) (ov : gmap string string)
    (variables : list string) (text : string) : string :=
  fold_left (round func ov) variables text.

Lemma resolve_var_round func ov st var :
  (resolve_var func ov st var).1 = round func ov st.1 var.
Proof.
  unfold round. destruct (resolved func ov var) as [v|] eqn:Hv.
  - by apply resolve_var_resolved.
  - by apply resolve_var_unresolved.
Qed.

Lemma resolve_vars_rounds func ov variables :
  ∀ st, (resolve_vars func ov variables st).1 = rounds func ov variables st.1.
Proof.
  induction variables as [|var rest IH]; intros st; [done|].
  change (resolve_vars func ov (var :: rest) st)
    with (resolve_vars func ov rest (resolve_var func ov st var)).
  rewrite IH, resolve_var_round. done.
Qed.

Lemma rounds_agree func1 ov1 func2 ov2 variables :
  (∀ var, var ∈ variables → func1 var = func2 var ∧ ov1 !! var = ov2 !! var) →
  ∀ text, rounds func1 ov1 variables text = rounds func2 ov2 variables text.
Proof.
  induction variables as [|var rest IH]; intros Hagree text; [done|].
  cbn [rounds fold_left]. fold (rounds func1 ov1 rest) (rounds func2 ov2 rest).
  destruct (Hagree var ltac:(by left)) as [Hf Ho].
  assert (Hround : round func1 ov1 text var = round func2 ov2 text var).
  { unfold round, resolved. by rewrite Hf, Ho. }
  rewrite Hround. apply IH. intros v Hv. apply Hagree. by right.
Qed.

(** Replacing a placeholder in a text built of pieces without [$] and of
    placeholders, piece by piece. *)
Lemma replace_plain_prefix t rest x v :
  has_char "$" t = false →
  replace (t +:+ rest) (placeholder x) v = t +:+ replace rest (placeholder x) v.
Proof.
  intros Ht. rewrite !replace_placeholder, placeholder_unfold.
  by apply replace_from_plain.
Qed.

Lemma replace_at_placeholder rest x v :
  replace (placeholder x +:+ rest) (placeholder x) v
  = v +:+ replace rest (placeholder x) v.
Proof.
  rewrite !replace_placeholder, placeholder_unfold. apply replace_from_match.
Qed.

Lemma replace_plain t x v :
  has_char "$" t = false → replace t (placeholder x) v = t.
Proof.
  intros Ht. rewrite <- (str_app_nil_r t) at 1.
  rewrite replace_plain_prefix by done.
  rewrite replace_placeholder, placeholder_unfold. cbn [replace_from].
  apply str_app_nil_r.
Qed.

Lemma replace_other_placeholder rest x y v :
  x ≠ y → has_char "}" x = false → has_char "}" y = false → has_char "$" y = false →
  replace (placeholder y +:+ rest) (placeholder x) v
  = placeholder y +:+ replace rest (placeholder x) v.
Proof.
  intros Hne Hx Hy Hd.
  assert (Hstart : starts_with (placeholder x) (placeholder y +:+ rest) = false).
  { destruct (starts_with (placeholder x) (placeholder y +:+ rest)) eqn:Hs; [|done].
    by apply placeholder_prefix_inj in Hs. }
  rewrite !replace_placeholder.
  assert (Hplain : has_char "$" (String "{" (y +:+ "}")) = false).
  { cbn [has_char]. rewrite has_char_app, Hd. done. }
  rewrite (placeholder_unfold y) in *. rewrite !str_app_cons in *.
  rewrite replace_from_other by done. f_equal.
  rewrite <- str_app_cons. rewrite (placeholder_unfold x).
  rewrite replace_from_plain by done. by rewrite str_app_cons.
Qed.

(** The names of such a text, piece by piece. *)
Lemma findall_vars_plain_prefix t rest :
  has_char "$" t = false → findall_vars (t +:+ rest) = findall_vars rest.
Proof. apply findall_from_plain. Qed.

Lemma findall_vars_plain t : has_char "$" t = false → findall_vars t = [].
Proof.
  intros Ht. rewrite <- (str_app_nil_r t). by rewrite findall_vars_plain_prefix.
Qed.

Lemma findall_vars_at_placeholder x rest :
  x ≠ EmptyString → has_char "}" x = false →
  findall_vars (placeholder x +:+ rest) = x :: findall_vars rest.
Proof.
  intros Hne Hb. unfold findall_vars.
  pose proof (match_var_placeholder x rest Hne Hb) as Hm.
  change (placeholder x +:+ rest)
    with (String "$" (String "{" (x +:+ "}") +:+ rest)) in *.
  rewrite (findall_from_match _ _ _ Hm). f_equal.
  assert (Hlen : String.length x + 2 = String.length (String "{" (x +:+ "}"))).
  { cbn [String.length]. rewrite str_length_app. cbn. lia. }
  rewrite Hlen. apply findall_from_skip.
Qed.

(** A name as it is written in a prompt: not empty, and without [}] and
    [$]. *)
Definition is_name (x : string) : Prop :=
  x ≠ EmptyString ∧ has_char "}" x = false ∧ has_char "$" x = false.

Lemma findall_vars_two pre a mid b post :
  has_char "$" pre = false → has_char "$" mid = false → has_char "$" post = false →
  is_name a → is_name b →
  findall_vars (pre +:+ placeholder a +:+ mid +:+ placeholder b +:+ post) = [a; b].
Proof.
  intros Hpre Hmid Hpost (Ha & Hab & _) (Hb & Hbb & _).
  rewrite findall_vars_plain_prefix, findall_vars_at_placeholder by done.
  rewrite findall_vars_plain_prefix, findall_vars_at_placeholder by done.
  by rewrite findall_vars_plain.
Qed.

(** C9, as amended. The variable names are collected once, from the prompt
    as it is given, and each gets its round in that order, a replacement in
    the whole text as the earlier rounds left it. The result depends on the
    memory and on the override map at those names only, and the memory is
    consulted for no other name. What has arrived with the value of a name
    is read again by the rounds that come after it, and by those only: the
    bindings of the names before it, and of names that are not in the
    prompt, no longer matter. On a prompt with two names [a] and [b], in
    that order, a [${b}] that arrives with the value of [a] is replaced by
    the value of [b], while the value of [b] arrives as it is, whatever it
    holds, also [${a}]. *)
Theorem interpolation_names_collected_once func ov prompt :
  (replace_context_variables func ov prompt).1
  = rounds func ov (findall_vars prompt) prompt
  ∧ (∀ func2 ov2,
       (∀ var, var ∈ findall_vars prompt →
               func var = func2 var ∧ ov !! var = ov2 !! var) →
       replace_context_variables func ov prompt
       = replace_context_variables func2 ov2 prompt)
  ∧ (∀ key, Consulted key ∈ (replace_context_variables func ov prompt).2 →
            key ∈ findall_vars prompt)
  ∧ (∀ before var after func2 ov2,
       findall_vars prompt = before ++ var :: after →
       (∀ c, c ∈ after → func c = func2 c ∧ ov !! c = ov2 !! c) →
       (replace_context_variables func ov prompt).1
       = rounds func2 ov2 after (round func ov (rounds func ov before prompt) var))
  ∧ (∀ pre a mid b post,
       has_char "$" pre = false → has_char "$" mid = false →
       has_char "$" post = false →
       is_name a → is_name b → a ≠ b →
       prompt = pre +:+ placeholder a +:+ mid +:+ placeholder b +:+ post →
       (∀ u w vb,
          has_char "$" u = false → has_char "$" w = false →
          resolved func ov a = Some (u +:+ placeholder b +:+ w) →
          resolved func ov b = Some vb →
          (replace_context_variables func ov prompt).1
          = pre +:+ (u +:+ vb +:+ w) +:+ mid +:+ vb +:+ post)
       ∧ (∀ va vb,
            has_char "$" va = false →
            resolved func ov a = Some va →
            resolved func ov b = Some vb →
            (replace_context_variables func ov prompt).1
            = pre +:+ va +:+ mid +:+ vb +:+ post)).
Proof.
  assert (Hrounds : (replace_context_variables func ov prompt).1
                    = rounds func ov (findall_vars prompt) prompt).
  { unfold replace_context_variables. by rewrite resolve_vars_rounds. }
  split_and!.
  - exact Hrounds.
  - intros func2 ov2 Hagree. by apply interpolation_agrees.
  - intros key Hc. apply resolve_vars_consulted in Hc as [Hc|[Hc _]]; [|done].
    by apply elem_of_nil in Hc.
  - intros before var after func2 ov2 Hsplit Hagree.
    rewrite Hrounds, Hsplit. unfold rounds. rewrite fold_left_app. cbn [fold_left].
    by apply rounds_agree.
  - intros pre a mid b post Hpre Hmid Hpost Ha Hb Hne ->.
    rewrite Hrounds, findall_vars_two by done.
    destruct Ha as (Ha & Hab & Had), Hb as (Hb & Hbb & Hbd).
    cbn [rounds fold_left]. unfold round. split.
    + intros u w vb Hu Hw -> ->.
      rewrite replace_plain_prefix, replace_at_placeholder by done.
      rewrite (replace_plain_prefix mid), replace_other_placeholder by done.
      rewrite (replace_plain post) by done.
      rewrite !str_app_assoc.
      rewrite (replace_plain_prefix pre), (replace_plain_prefix u) by done.
      rewrite replace_at_placeholder.
      rewrite (replace_plain_prefix w), (replace_plain_prefix mid) by done.
      rewrite replace_at_placeholder, (replace_plain post) by done.
      done.
    + intros va vb Hva -> ->.
      rewrite replace_plain_prefix, replace_at_placeholder by done.
      rewrite (replace_plain_prefix mid), replace_other_placeholder by done.
      rewrite (replace_plain post) by done.
      rewrite (replace_plain_prefix pre), (replace_plain_prefix va) by done.
      rewrite (replace_plain_prefix mid) by done.
      by rewrite replace_at_placeholder, (replace_plain post).
Qed.

(** The value of [a] brings [${b}], which the round of [b] replaces; the
    value of [b] brings [${a}], which stays, the round of [a] being over. *)
Lemma interpolation_names_collected_once_witness :
  (replace_context_variables empty_memory {[ "a" := "${b}"; "b" := "X" ]} "${a} ${b}").1
  = "X X"
  ∧ (replace_context_variables empty_memory {[ "a" := "1"; "b" := "${a}" ]} "${a} ${b}").1
    = "1 ${a}".
Proof.
  assert (Ha : is_name "a") by (by split_and!).
  assert (Hb : is_name "b") by (by split_and!).
  assert (Hne : "a" ≠ "b") by done.
  split.
  - destruct (interpolation_names_collected_once
                empty_memory {[ "a" := "${b}"; "b" := "X" ]} "${a} ${b}")
      as (_ & _ & _ & _ & Htwo).
    exact (proj1 (Htwo "" "a" " " "b" "" eq_refl eq_refl eq_refl Ha Hb Hne eq_refl)
             "" "" "X" eq_refl eq_refl eq_refl eq_refl).
  - destruct (interpolation_names_collected_once
                empty_memory {[ "a" := "1"; "b" := "${a}" ]} "${a} ${b}")
      as (_ & _ & _ & _ & Htwo).
    exact (proj2 (Htwo "" "a" " " "b" "" eq_refl eq_refl eq_refl Ha Hb Hne eq_refl)
             "1" "${a}" eq_refl eq_refl eq_refl).
Defined.

(** C9, as stated, fails: the call does not agree with a single pass that
    never looks at what it wrote. In [${a} ${b}] the value of [a] is
    [${b}], and the round of [b] then rewrites it. *)
Lemma substituted_text_is_expanded_again :
  ¬ (∀ func ov prompt,
       (replace_context_variables func ov prompt).1 = single_pass func ov prompt).
Proof.
  intros H.
  specialize (H empty_memory {[ "a" := "${b}"; "b" := "X" ]} "${a} ${b}").
  vm_compute in H. discriminate H.
Qed.

Example expanded_again_output :
  (replace_context_variables empty_memory {[ "a" := "${b}"; "b" := "X" ]} "${a} ${b}").1
  = "X X".
Proof. vm_compute. reflexivity. Qed.

Example single_pass_output :
  single_pass empty_memory {[ "a" := "${b}"; "b" := "X" ]} "${a} ${b}" = "${b} X".
Proof. vm_compute. reflexivity. Qed.

End Interp.

(** ** JSON values and a codec in the format of [json.dumps]

    The store keeps JSON data: the values reach it as the arguments of a tool
    call. Numbers are integers here. The store itself is stated over any
    codec ([dumps], [loads]); the one below writes the text [json.dumps]
    writes for ASCII data and is used to run the store on concrete
    values. *)

Module Json.
Import PyStr Tool.

Inductive json : Type :=
  | JNull
  | JBool (b : bool)
  | JInt (n : Z)
  | JStr (s : string)
  | JList (items : list json)
  | JDict (fields : list (string * json)).

(** The double quote and the backslash. *)
Definition quote : string := String "034" EmptyString.
Definition backslash : string := String "092" EmptyString.

Fixpoint escape (s : string) : string :=
  match s with
  | EmptyString => EmptyString
  | String c s' =>
      (if Ascii.eqb c "034" then backslash +:+ quote
       else if Ascii.eqb c "092" then backslash +:+ backslash
       else if Ascii.eqb c "010" then backslash +:+ "n"
       else if Ascii.eqb c "009" then backslash +:+ "t"
       else String c EmptyString) +:+ escape s'
  end.

Definition quoted (s : string) : string := quote +:+ escape s +:+ quote.

Fixpoint dumps (v : json) : string :=
  match v with
  | JNull => "null"
  | JBool true => "true"
  | JBool false => "false"
  | JInt n => NilZero.string_of_int (Z.to_int n)
  | JStr s => quoted s
  | JList items => "[" +:+ join ", " (map dumps items) +:+ "]"
  | JDict fields =>
      "{" +:+ join ", " (map (λ kv, let '(k, x) := kv in quoted k +:+ ": " +:+ dumps x) fields)
          +:+ "}"
  end.

Fixpoint skip_ws (s : string) : string :=
  match s with
  | String c s' => if Ascii.is_space c then skip_ws s' else s
  | EmptyString => s
  end.

Fixpoint drop_chars (n : nat) (s : string) : string :=
  match n, s with
  | S k, String _ s' => drop_chars k s'
  | _, _ => s
  end.

(** The text after an opening quote: the string and what follows the
    closing quote. *)
Fixpoint parse_string_body (s : string) : option (string * string) :=
  match s with
  | EmptyString => None
  | String c s' =>
      if Ascii.eqb c "034" then Some (EmptyString, s')
      else if Ascii.eqb c "092" then
        match s' with
        | String e s'' =>
            let ch := if Ascii.eqb e "n" then "010"%char
                      else if Ascii.eqb e "t" then "009"%char else e in
            prod_map (String ch) id <$> parse_string_body s''
        | EmptyString => None
        end
      else prod_map (String c) id <$> parse_string_body s'
  end.

Definition is_number_char (c : ascii) : bool :=
  Ascii.eqb c "-" || bool_decide (is_Some (Ascii.is_nat c)).

Fixpoint span_number (s : string) : string * string :=
  match s with
  | String c s' =>
      if is_number_char c then prod_map (String c) id (span_number s')
      else (EmptyString, s)
  | EmptyString => (EmptyString, s)
  end.

Definition expect (word : string) (v : json) (s : string) : option (json * string) :=
  if starts_with word s then Some (v, drop_chars (String.length word) s) else None.

Fixpoint parse_value (fuel : nat) (s : string) {struct fuel} : option (json * string) :=
  match fuel with
  | O => None
  | S f =>
      match skip_ws s with
      | String "n" _ => expect "null" JNull (skip_ws s)
      | String "t" _ => expect "true" (JBool true) (skip_ws s)
      | String "f" _ => expect "false" (JBool false) (skip_ws s)
      | String "034" rest => prod_map JStr id <$> parse_string_body rest
      | String "[" rest =>
          match skip_ws rest with
          | String "]" rest' => Some (JList [], rest')
          | _ => prod_map JList id <$> parse_elements f rest
          end
      | String "{" rest =>
          match skip_ws rest with
          | String "}" rest' => Some (JDict [], rest')
          | _ => prod_map JDict id <$> parse_fields f rest
          end
      | String c rest =>
          if is_number_char c then
            let '(digits, rest') := span_number (String c rest) in
            n ← NilZero.int_of_string digits; Some (JInt (Z.of_int n), rest')
          else None
      | EmptyString => None
      end
  end
with parse_elements (fuel : nat) (s : string) {struct fuel} : option (list json * string) :=
  match fuel with
  | O => None
  | S f =>
      '(v, rest) ← parse_value f s;
      match skip_ws rest with
      | String "," rest' => prod_map (cons v) id <$> parse_elements f rest'
      | String "]" rest' => Some ([v], rest')
      | _ => None
      end
  end
with parse_fields (fuel : nat) (s : string) {struct fuel} : option (list (string * json) * string) :=
  match fuel with
  | O => None
  | S f =>
      match skip_ws s with
      | String "034" rest =>
          '(k, rest1) ← parse_string_body rest;
          match skip_ws rest1 with
          | String ":" rest2 =>
              '(v, rest3) ← parse_value f rest2;
              match skip_ws rest3 with
              | String "," rest4 => prod_map (cons (k, v)) id <$> parse_fields f rest4
              | String "}" rest4 => Some ([(k, v)], rest4)
              | _ => None
              end
          | _ => None
          end
      | _ => None
      end
  end.

Definition loads (text : string) : option json :=
  '(v, rest) ← parse_value (2 * String.length text + 2) text;
  match skip_ws rest with
  | EmptyString => Some v
  | _ => None
  end.

(** [{"x": 1}] *)
Definition x_is_1 : json := JDict [("x", JInt 1)].

Example dumps_x_is_1 : dumps x_is_1 = "{" +:+ quote +:+ "x" +:+ quote +:+ ": 1}".
Proof. vm_compute. reflexivity. Qed.

Example loads_dumps_x_is_1 : loads (dumps x_is_1) = Some x_is_1.
Proof. vm_compute. reflexivity. Qed.

Example loads_dumps_nested :
  let v := JDict [("a", JList [JInt (-3); JNull; JStr "q"; JBool true]); ("b", JDict [])] in
  loads (dumps v) = Some v.
Proof. vm_compute. reflexivity. Qed.

Example loads_rejects : loads "{x: 1}" = None.
Proof. vm_compute. reflexivity. Qed.

End Json.

(** ** The memory store ([agents/context_memory.py]) *)

Module Memory.
Import PyStr Tool Json.

(** The exceptions the store can meet. *)
Inductive error : Type :=
  | IsADirectoryError
  | FileNotFoundError
  | JSONDecodeError.

Inductive result (A : Type) : Type :=
  | Ok (a : A)
  | Raise (e : error).
Arguments Ok {A} a.
Arguments Raise {A} e.

(** What [os.path.join(memory_dir, entry_key)] names. The directory is flat:
    the store creates no sub-directory, and the model holds nothing outside
    [memory_dir]. *)
Inductive target : Type :=
  | File (name : string)   (* a file of the directory *)
  | Directory              (* the directory itself, or its parent *)
  | Nothing.               (* a path below a sub-directory that does not exist *)

Definition is_file_name (key : string) : bool :=
  negb (String.eqb key EmptyString) && negb (String.eqb key ".")
  && negb (String.eqb key "..") && negb (has_char "/" key) && negb (has_char "000" key).

Definition join_path (entry_key : string) : target :=
  if is_file_name entry_key then File entry_key
  else if String.eqb entry_key EmptyString || String.eqb entry_key "."
          || String.eqb entry_key ".." then Directory
  else Nothing.

(** The state of the server: the dictionary [memory] and the files of
    [memory_dir] (name to content). *)
Record store : Type := Store {
  memory : gmap string json;
  files : gmap string string;
}.

Definition set_memory (st : store) (m : gmap string json) : store :=
  {| memory := m; files := files st |}.
Definition set_files (st : store) (f : gmap string string) : store :=
  {| memory := memory st; files := f |}.

Section Store.
(** [json.dumps] and [json.loads] *)
Variable dumps : json → string.
Variable loads : string → option json.

(** [os.path.exists(os.path.join(memory_dir, entry_key))] *)
Definition path_exists (entry_key : string) (st : store) : bool :=
  match join_path entry_key with
  | File name => bool_decide (is_Some (files st !! name))
  | Directory => true
  | Nothing => false
  end.

(** [add_or_update_memory_entry]: the dictionary is updated first, then the
    file is opened and written. *)
Definition add_or_update_memory_entry (entry_key : string) (value : json) (st : store)
  : result bool * store :=
  let st1 := set_memory st (<[entry_key := value]> (memory st)) in
  match join_path entry_key with
  | File name => (Ok true, set_files st1 (<[name := dumps value]> (files st1)))
  | Directory => (Raise IsADirectoryError, st1)
  | Nothing => (Raise FileNotFoundError, st1)
  end.

(** [add_or_update_memory_entries]: the same, entry by entry; it stops at
    the first entry that raises. *)
Fixpoint add_or_update_memory_entries (entries_dict : list (string * json)) (st : store)
  : result bool * store :=
  match entries_dict with
  | [] => (Ok true, st)
  | (entry_key, value) :: rest =>
      match add_or_update_memory_entry entry_key value st with
      | (Ok _, st1) => add_or_update_memory_entries rest st1
      | (Raise e, st1) => (Raise e, st1)
      end
  end.

(** [read_memory_entry]: from the dictionary, else from the file (which is
    then kept in the dictionary), else the sentinel. *)
Definition read_memory_entry (entry_key : string) (st : store) : result json * store :=
  match memory st !! entry_key with
  | Some value => (Ok value, st)
  | None =>
      if path_exists entry_key st then
        match join_path entry_key with
        | File name =>
            match files st !! name ≫= loads with
            | Some value => (Ok value, set_memory st (<[entry_key := value]> (memory st)))
            | None => (Raise JSONDecodeError, st)
            end
        | _ => (Raise IsADirectoryError, st)
        end
      else (Ok (JStr no_entry), st)
  end.

(** [list_memory_entries] *)
Definition list_memory_entries (st : store) : list string :=
  (map_to_list (memory st)).*1.

(** [delete_memory_entry] *)
Definition delete_memory_entry (entry_key : string) (st : store) : result bool * store :=
  let st1 := set_memory st (delete entry_key (memory st)) in
  if path_exists entry_key st1 then
    match join_path entry_key with
    | File name => (Ok true, set_files st1 (delete name (files st1)))
    | _ => (Raise IsADirectoryError, st1)
    end
  else (Ok true, st1).

(** The start of the server ([__main__]) on an existing directory: every
    file the listing gives is opened, and those whose name does not start
    with a dot are decoded into the dictionary. *)
Definition load_file (acc : result (gmap string json)) (file : string * string)
  : result (gmap string json) :=
  match acc with
  | Raise e => Raise e
  | Ok m =>
      if starts_with "." file.1 then Ok m
      else match loads file.2 with
           | Some value => Ok (<[file.1 := value]> m)
           | None => Raise JSONDecodeError
           end
  end.

Definition load_files (listing : list (string * string)) : result (gmap string json) :=
  fold_left load_file listing (Ok ∅).

Definition startup (directory : gmap string string) : result store :=
  match load_files (map_to_list directory) with
  | Ok m => Ok {| memory := m; files := directory |}
  | Raise e => Raise e
  end.

(** A restart: the process ends, the dictionary is lost, and a new server
    starts on the same directory. *)
Definition restart (st : store) : result store := startup (files st).

(** Every file the start decodes holds a JSON text. *)
Definition loadable (directory : gmap string string) : Prop :=
  ∀ name text, directory !! name = Some text →
    starts_with "." name = false → is_Some (loads text).

End Store.

(** *** The start of the server *)

Section StoreFacts.
Variable dumps : json → string.
Variable loads : string → option json.

Lemma load_files_raise listing e :
  fold_left (load_file loads) listing (Raise e) = Raise e.
Proof. induction listing as [|file rest IH]; [done|]. by cbn. Qed.

(** What the dictionary holds after the loop over a listing without
    repeated names, every decoded file of which holds a JSON text. *)
Lemma load_files_lookup (listing : list (string * string)) :
  NoDup listing.*1 →
  (∀ name text, (name, text) ∈ listing →
     starts_with "." name = false → is_Some (loads text)) →
  ∀ m0 : gmap string json, ∃ m : gmap string json,
    fold_left (load_file loads) listing (Ok m0) = Ok m
    ∧ ∀ key, m !! key =
        if starts_with "." key then m0 !! key
        else match (list_to_map listing : gmap string string) !! key with
             | Some text => loads text
             | None => m0 !! key
             end.
Proof.
  induction listing as [|[name text] rest IH]; intros Hnodup Hload m0.
  { exists m0. split; [done|]. intros key. by destruct (starts_with "." key). }
  apply NoDup_cons in Hnodup as [Hfresh Hnodup].
  assert (Hrest : ∀ n t, (n, t) ∈ rest → starts_with "." n = false → is_Some (loads t)).
  { intros n t Hin. apply Hload. by right. }
  cbn [fold_left]. unfold load_file at 2. cbn [fst snd].
  destruct (starts_with "." name) eqn:Hdot.
  - destruct (IH Hnodup Hrest m0) as (m & Hm & Hlook). exists m. split; [done|].
    intros key. rewrite Hlook. destruct (starts_with "." key) eqn:Hk; [done|].
    rewrite list_to_map_cons, lookup_insert_ne; [done|].
    intros ->. congruence.
  - destruct (Hload name text) as [value Hvalue]; [left|done|].
    rewrite Hvalue.
    destruct (IH Hnodup Hrest (<[name := value]> m0)) as (m & Hm & Hlook).
    exists m. split; [done|]. intros key. rewrite Hlook.
    rewrite list_to_map_cons. destruct (decide (name = key)) as [->|Hne].
    + rewrite Hdot, !lookup_insert_eq.
      by rewrite (not_elem_of_list_to_map_1 (M := gmap string)) by done.
    + rewrite !lookup_insert_ne by done.
      destruct (starts_with "." key); [done|].
      by destruct (list_to_map rest !! key).
Qed.

Lemma startup_spec directory :
  loadable loads directory →
  ∃ st, startup loads directory = Ok st
        ∧ files st = directory
        ∧ ∀ key, memory st !! key =
            if starts_with "." key then None else directory !! key ≫= loads.
Proof.
  intros Hload.
  destruct (load_files_lookup (map_to_list directory)) with (m0 := (∅ : gmap string json))
    as (m & Hm & Hlook).
  - apply NoDup_fst_map_to_list.
  - intros name text Hin. apply elem_of_map_to_list in Hin. by apply Hload.
  - exists {| memory := m; files := directory |}.
    unfold startup, load_files. rewrite Hm. split; [done|]. split; [done|].
    intros key. cbn [memory]. rewrite Hlook, list_to_map_to_list, lookup_empty.
    destruct (starts_with "." key); [done|]. by destruct (directory !! key).
Qed.

(** The files stay decodable through the writes, for a codec that reads
    back what it wrote. *)
Lemma add_keeps_loadable entry_key value st :
  is_Some (loads (dumps value)) →
  loadable loads (files st) →
  loadable loads (files (add_or_update_memory_entry dumps entry_key value st).2).
Proof.
  intros Hvalue Hload. unfold add_or_update_memory_entry.
  destruct (join_path entry_key) as [name| |]; cbn; [|done..].
  intros n t Hn Hdot. destruct (decide (name = n)) as [->|Hne].
  - rewrite lookup_insert_eq in Hn. by injection Hn as <-.
  - rewrite lookup_insert_ne in Hn by done. by apply (Hload n t).
Qed.

Lemma join_path_file_name key : is_file_name key = true → join_path key = File key.
Proof. intros H. unfold join_path. by rewrite H. Qed.

End StoreFacts.

(** *** Round trip *)

(** C8, as amended. For every codec that reads back the text it writes for
    [V], every key [K] that is a file name (not empty, not [.] or [..], no
    separator) and every store whose directory holds JSON files: writing [V]
    under [K] succeeds, the restart succeeds, and reading [K] then yields
    [V]. *)
Theorem memory_round_trip dumps loads st K V :
  is_file_name K = true →
  loads (dumps V) = Some V →
  loadable loads (files st) →
  (add_or_update_memory_entry dumps K V st).1 = Ok true
  ∧ ∃ st', restart loads (add_or_update_memory_entry dumps K V st).2 = Ok st'
           ∧ (read_memory_entry loads K st').1 = Ok V.
Proof.
  intros HK HV Hload.
  pose proof (add_keeps_loadable dumps loads K V st (mk_is_Some _ _ HV) Hload) as Hload'.
  unfold add_or_update_memory_entry in *. rewrite (join_path_file_name K HK) in *.
  split; [done|]. cbn [snd fst] in *.
  destruct (startup_spec loads _ Hload') as (st' & Hstart & Hfiles & Hmem).
  exists st'. split; [done|].
  cbn [files set_files set_memory] in Hfiles, Hmem.
  unfold read_memory_entry. rewrite Hmem, lookup_insert_eq. cbn [mbind option_bind].
  destruct (starts_with "." K); [|by rewrite HV].
  unfold path_exists. rewrite (join_path_file_name K HK), Hfiles, lookup_insert_eq.
  rewrite bool_decide_eq_true_2 by done. cbn [mbind option_bind]. by rewrite HV.
Qed.

(** The scenario of the spec: [{"x": 1}] under [foo], on an empty
    directory. *)
Lemma memory_round_trip_witness :
  is_file_name "foo" = true
  ∧ Json.loads (Json.dumps x_is_1) = Some x_is_1
  ∧ ∃ st', restart Json.loads
             (add_or_update_memory_entry Json.dumps "foo" x_is_1
                {| memory := ∅; files := ∅ |}).2 = Ok st'
           ∧ (read_memory_entry Json.loads "foo" st').1 = Ok x_is_1.
Proof.
  split; [reflexivity|]. split; [vm_compute; reflexivity|].
  apply (memory_round_trip Json.dumps Json.loads {| memory := ∅; files := ∅ |} "foo" x_is_1).
  - reflexivity.
  - vm_compute. reflexivity.
  - intros name text H. cbn in H. by rewrite lookup_empty in H.
Defined.

(** C8, as stated for every key, fails on the empty key: [os.path.join]
    then names the directory itself, the write raises once the dictionary is
    updated, and after the restart the read finds the path, opens it and
    raises. *)
Lemma empty_key_is_not_read_back :
  ¬ (∀ dumps loads st K V,
       loads (dumps V) = Some V →
       loadable loads (files st) →
       ∃ st', restart loads (add_or_update_memory_entry dumps K V st).2 = Ok st'
              ∧ (read_memory_entry loads K st').1 = Ok V).
Proof.
  intros H.
  destruct (H Json.dumps Json.loads {| memory := ∅; files := ∅ |} EmptyString x_is_1)
    as (st' & Hrestart & Hread).
  - vm_compute. reflexivity.
  - intros name text Hn. cbn in Hn. by rewrite lookup_empty in Hn.
  - vm_compute in Hrestart. injection Hrestart as <-.
    vm_compute in Hread. discriminate Hread.
Qed.

Example empty_key_write_raises :
  (add_or_update_memory_entry Json.dumps EmptyString x_is_1 {| memory := ∅; files := ∅ |}).1
  = Raise IsADirectoryError.
Proof. reflexivity. Qed.

(** *** The store behind the tool call *)

(** What the tool server sends for the value a tool returns: nothing for
    [None], one text item for a string, the items of its elements for a
    list, and one text item holding its JSON text ([render]) for anything
    else. *)
Fixpoint content_of (render : json → string) (v : json) : CallToolResult :=
  match v with
  | JNull => []
  | JStr s => [Some s]
  | JList items => flat_map (content_of render) items
  | _ => [Some (render v)]
  end.

Section Transport.
Variable loads : string → option json.
(** The content sent for a returned value, and what the caller gets when the
    tool raised. *)
Variable to_content : json → CallToolResult.
Variable on_error : error → reply.

(** [func("read_memory_entry", {"entry_key": key})] on a store. *)
Definition read_tool (st : store) (key : string) : reply :=
  match (read_memory_entry loads key st).1 with
  | Ok value => Returns (to_content value)
  | Raise e => on_error e
  end.

End Transport.

Import Interp.

Lemma read_known loads key value st :
  memory st !! key = Some value → (read_memory_entry loads key st).1 = Ok value.
Proof. intros H. unfold read_memory_entry. by rewrite H. Qed.

Lemma read_never_written loads key st :
  memory st !! key = None → path_exists key st = false →
  (read_memory_entry loads key st).1 = Ok (JStr no_entry).
Proof. intros Hm Hp. unfold read_memory_entry. by rewrite Hm, Hp. Qed.

Lemma add_updates_memory dumps key value st :
  memory (add_or_update_memory_entry dumps key value st).2 = <[key := value]> (memory st).
Proof. unfold add_or_update_memory_entry. by destruct (join_path key). Qed.

(** Interpolating the placeholder of a key the read reports as absent. *)
Lemma interpolate_absent func ov key :
  key ≠ EmptyString → has_char "}" key = false →
  ov !! key = None → func key = Returns [Some no_entry] →
  replace_context_variables func ov (placeholder key)
  = (placeholder key, [Consulted key; Warning key]).
Proof.
  intros Hne Hb Hov Hf. unfold replace_context_variables.
  rewrite findall_vars_placeholder by done.
  cbn [resolve_vars fold_left]. unfold resolve_var. by rewrite Hov, Hf.
Qed.

(** A memory tool that reports [key] as absent and answers as [func] for
    the other keys. *)
Definition absent_at (key : string) (func : string → reply) : string → reply :=
  λ k, if decide (k = key) then Returns [Some no_entry] else func k.

(** C10. Once the sentinel string is written under [K], the read of [K]
    returns that string, which is what the read of a key that was never
    written returns; the engine cannot tell the two apart:
    [process_context_memory_return_value] gives [None] and the test on the
    read result fails, every interpolation gives what it gives on a memory
    that reports [K] as absent, and interpolating [${K}] (for a [K] that can
    be written as a variable) leaves the prompt as it is and records the
    warning, as it does for a key that was never written. *)
Theorem sentinel_is_in_band dumps loads to_content on_error st K :
  (∀ s, to_content (JStr s) = [Some s]) →
  let st1 := (add_or_update_memory_entry dumps K (JStr no_entry) st).2 in
  (read_memory_entry loads K st1).1 = Ok (JStr no_entry)
  ∧ (∀ K', memory st1 !! K' = None → path_exists K' st1 = false →
       (read_memory_entry loads K' st1).1 = (read_memory_entry loads K st1).1
       ∧ read_tool loads to_content on_error st1 K'
         = read_tool loads to_content on_error st1 K)
  ∧ process_context_memory_return_value (to_content (JStr no_entry)) = None
  ∧ has_entry (to_content (JStr no_entry)) = false
  ∧ (∀ ov prompt,
       replace_context_variables (read_tool loads to_content on_error st1) ov prompt
       = replace_context_variables
           (absent_at K (read_tool loads to_content on_error st1)) ov prompt)
  ∧ (∀ ov key, key = K ∨ (memory st1 !! key = None ∧ path_exists key st1 = false) →
       key ≠ EmptyString → has_char "}" key = false → ov !! key = None →
       replace_context_variables (read_tool loads to_content on_error st1) ov (placeholder key)
       = (placeholder key, [Consulted key; Warning key])).
Proof.
  intros Hstr st1.
  assert (Hread : (read_memory_entry loads K st1).1 = Ok (JStr no_entry)).
  { apply read_known. unfold st1. by rewrite add_updates_memory, lookup_insert_eq. }
  assert (Htool : read_tool loads to_content on_error st1 K = Returns [Some no_entry]).
  { unfold read_tool. by rewrite Hread, Hstr. }
  assert (Hnever : ∀ K', memory st1 !! K' = None → path_exists K' st1 = false →
            read_tool loads to_content on_error st1 K' = Returns [Some no_entry]).
  { intros K' Hm Hp. unfold read_tool.
    by rewrite (read_never_written loads K' st1 Hm Hp), Hstr. }
  split_and!.
  - done.
  - intros K' Hm Hp. split.
    + by rewrite Hread, (read_never_written loads K' st1 Hm Hp).
    + by rewrite Htool, Hnever.
  - by rewrite Hstr.
  - by rewrite Hstr.
  - intros ov prompt. apply interpolation_agrees. intros var _. split; [|done].
    unfold absent_at. case_decide as Hvar; [by rewrite Hvar|done].
  - intros ov key [->|[Hm Hp]] Hne Hb Hov; apply interpolate_absent; auto.
Qed.

(** The sentinel written under [foo], with the conversion [content_of]. *)
Lemma sentinel_is_in_band_witness :
  let st1 := (add_or_update_memory_entry Json.dumps "foo" (JStr no_entry)
                {| memory := ∅; files := ∅ |}).2 in
  (∀ s, content_of Json.dumps (JStr s) = [Some s])
  ∧ (read_memory_entry Json.loads "foo" st1).1 = Ok (JStr no_entry)
  ∧ replace_context_variables
      (read_tool Json.loads (content_of Json.dumps) (λ _, Raises "tool error") st1)
      ∅ (placeholder "foo")
    = (placeholder "foo", [Consulted "foo"; Warning "foo"]).
Proof.
  intros st1.
  destruct (sentinel_is_in_band Json.dumps Json.loads (content_of Json.dumps)
              (λ _, Raises "tool error") {| memory := ∅; files := ∅ |} "foo")
    as (Hread & _ & _ & _ & _ & Hinterp).
  - intros s. reflexivity.
  - split; [intros s; reflexivity|]. split; [exact Hread|].
    apply Hinterp; [by left|done|reflexivity|reflexivity].
Defined.

End Memory.

(** ** The agent loop ([issue_processor/converse_agent.py]) *)

Module Agent.
Import PyStr Tool Json.

(** The exceptions that travel through the agent. *)
Inductive exn : Type :=
  | ThrottlingException (msg : string)    (* client.exceptions.ThrottlingException *)
  | ModelTimeoutException (msg : string)  (* client.exceptions.ModelTimeoutException *)
  | ValueError (msg : string)
  | KeyError (key : string)
  | TypeError (msg : string)
  | OtherException (msg : string).        (* any other subclass of Exception *)

(** [str(e)] *)
Definition str_exn (e : exn) : string :=
  match e with
  | ThrottlingException msg | ModelTimeoutException msg
  | ValueError msg | TypeError msg | OtherException msg => msg
  | KeyError key => "'" +:+ key +:+ "'"
  end.

(** The content blocks of the transcript, those the model sends and those
    [_handle_response] builds. *)
Inductive content_item : Type :=
  | Text (text : string)                                   (* {'text': ...} *)
  | ReasoningContent (reasoningText : option (option string))
      (* {'reasoningContent': {'reasoningText': {'text': ...}}}; the outer
         option is the key [reasoningText], the inner one the key [text] *)
  | ToolUse (toolUseId name : string) (input : json)       (* {'toolUse': {...}} *)
  | ToolResult (tool_result : json)                        (* {'toolResult': ...} *)
  | ErrorItem (e : exn).                                   (* {'Error': e} *)

Record message : Type := Message {
  role : string;
  content : list content_item;
}.

(** A response of the completion call: [response['output']['message']] and
    [response['stopReason']]. *)
Record response : Type := Response {
  output_message : message;
  stopReason : string;
}.

(** What the completion call and a tool execution do. *)
Inductive completion : Type :=
  | Completes (r : response)
  | Fails (e : exn).

Inductive tool_outcome : Type :=
  | ToolReturns (tool_result : json)
  | ToolRaises (e : exn).

(** The agent: its transcript, and what it has done so far (completion
    calls made, tools executed, seconds slept, in order). *)
Record agent : Type := AgentState {
  messages : list message;
  completions : nat;
  executions : nat;
  slept : list nat;
}.

Definition append_message (m : message) (a : agent) : agent :=
  {| messages := messages a ++ [m]; completions := completions a;
     executions := executions a; slept := slept a |}.
Definition count_completion (a : agent) : agent :=
  {| messages := messages a; completions := S (completions a);
     executions := executions a; slept := slept a |}.
Definition count_execution (a : agent) : agent :=
  {| messages := messages a; completions := completions a;
     executions := S (executions a); slept := slept a |}.
Definition sleep (seconds : nat) (a : agent) : agent :=
  {| messages := messages a; completions := completions a;
     executions := executions a; slept := slept a ++ [seconds] |}.

(** How a call ends; [None] is Python's [None]. *)
Inductive result : Type :=
  | Returned (value : option string)
  | Raised (e : exn)
  | OutOfFuel.

(** [json.dumps(content, indent=2)] raises [TypeError] on an exception
    object, the one thing in a content list that is not JSON data. *)
Definition not_serializable (item : content_item) : option exn :=
  match item with
  | ErrorItem e =>
      Some (TypeError ("Object of type "
              +:+ match e with
                  | ThrottlingException _ => "ThrottlingException"
                  | ModelTimeoutException _ => "ModelTimeoutException"
                  | ValueError _ => "ValueError"
                  | KeyError _ => "KeyError"
                  | TypeError _ => "TypeError"
                  | OtherException _ => "Exception"
                  end +:+ " is not JSON serializable"))
  | _ => None
  end.

Definition json_dumps_error (items : list content_item) : option exn :=
  list_find (λ item, is_Some (not_serializable item)) items ≫= λ found, not_serializable found.2.

(** The [except] clauses of the retry loop of [invoke]. *)
Definition is_transient (e : exn) : bool :=
  match e with
  | ThrottlingException _ | ModelTimeoutException _ => true
  | _ => false
  end.

(** The handlers around the tool dispatch: [except KeyError] and
    [except Exception]. *)
Definition tool_dispatch_handler (e : exn) : exn :=
  match e with
  | KeyError _ => ValueError ("Missing required tool use field: " +:+ str_exn e)
  | _ => ValueError ("Failed to execute tool: " +:+ str_exn e)
  end.

(** [text] of the first content item that has one. *)
Fixpoint first_text_item (items : list content_item) : option string :=
  match items with
  | [] => None
  | Text text :: _ => Some text
  | _ :: rest => first_text_item rest
  end.

(** The first [reasoningContent] of the message, if any. *)
Fixpoint first_reasoning (items : list content_item) : option (option (option string)) :=
  match items with
  | [] => None
  | ReasoningContent r :: _ => Some r
  | _ :: rest => first_reasoning rest
  end.

Section Loop.
(** The completion endpoint: what the call number [n] answers to a
    transcript. *)
Variable converse : nat → list message → completion.
(** [self.tools.execute_tool]: what the execution number [n] answers to a
    request (tool name, id, input). *)
Variable execute_tool : nat → string → string → json → tool_outcome.

Inductive fetched : Type :=
  | Got (r : response)
  | Failed (e : exn)
  | Starved.

(** The loop [while True: try: response = self._get_converse_response();
    break; except Throttling...: sleep(5); except ModelTimeout...:
    sleep(5)]. *)
Fixpoint converse_with_retry (fuel : nat) (a : agent) : fetched * agent :=
  match fuel with
  | O => (Starved, a)
  | S fuel' =>
      match converse (completions a) (messages a) with
      | Completes r => (Got r, count_completion a)
      | Fails e =>
          if is_transient e then converse_with_retry fuel' (sleep 5 (count_completion a))
          else (Failed e, count_completion a)
      end
  end.

(** The loop over the content items of a [tool_use] response; it stops at
    the first exception that is not an unknown tool. *)
Fixpoint dispatch_tools (items tool_response : list content_item) (a : agent)
  : (exn + list content_item) * agent :=
  match items with
  | [] => (inr tool_response, a)
  | ToolUse toolUseId name input :: rest =>
      match execute_tool (executions a) name toolUseId input with
      | ToolReturns tool_result =>
          dispatch_tools rest (tool_response ++ [ToolResult tool_result]) (count_execution a)
      | ToolRaises (ValueError msg) =>
          if starts_with "Unknown tool: " msg
          then dispatch_tools rest (tool_response ++ [ErrorItem (ValueError msg)])
                 (count_execution a)
          else (inl (ValueError msg), count_execution a)
      | ToolRaises e => (inl e, count_execution a)
      end
  | _ :: rest => dispatch_tools rest tool_response a
  end.

Fixpoint invoke (fuel : nat) (content : list content_item) (a : agent) {struct fuel}
  : result * agent :=
  match fuel with
  | O => (OutOfFuel, a)
  | S fuel' =>
      (* the log line with json.dumps(content, indent=2) *)
      match json_dumps_error content with
      | Some e => (Raised e, a)
      | None =>
          let a1 := append_message (Message "user" content) a in
          match converse_with_retry fuel' a1 with
          | (Got r, a2) => _handle_response fuel' r a2
          | (Failed e, a2) => (Raised e, a2)
          | (Starved, a2) => (OutOfFuel, a2)
          end
      end
  end
with _handle_response (fuel : nat) (r : response) (a : agent) {struct fuel}
  : result * agent :=
  match fuel with
  | O => (OutOfFuel, a)
  | S fuel' =>
      let a1 := append_message (output_message r) a in
      let items := content (output_message r) in
      match first_reasoning items with
      | Some None => (Raised (KeyError "reasoningText"), a1)
      | _ =>
          if bool_decide (stopReason r = "end_turn") || bool_decide (stopReason r = "stop_sequence")
          then (Returned (first_text_item items), a1)
          else if bool_decide (stopReason r = "tool_use") then
            match dispatch_tools items [] a1 with
            | (inl e, a2) => (Raised (tool_dispatch_handler e), a2)
            | (inr tool_response, a2) =>
                match invoke fuel' tool_response a2 with
                | (Raised e, a3) => (Raised (tool_dispatch_handler e), a3)
                | other => other
                end
            end
          else if bool_decide (stopReason r = "max_tokens") then
            (* invoke_with_prompt('Please continue.'), whose value is dropped *)
            match invoke fuel' [Text "Please continue."] (sleep 10 a1) with
            | (Returned _, a2) => (Returned None, a2)
            | other => other
            end
          else (Raised (ValueError ("Unknown stop reason: " +:+ stopReason r)), a1)
      end
  end.

(** [invoke_with_prompt] *)
Definition invoke_with_prompt (fuel : nat) (prompt : string) (a : agent) : result * agent :=
  invoke fuel [Text prompt] a.

End Loop.

(** A fresh agent ([__init__]): an empty transcript. *)
Definition new_agent : agent :=
  {| messages := []; completions := 0; executions := 0; slept := [] |}.

(** *** The retry loop *)

(** The agent after [n] transient faults: [n] completion calls made and [n]
    sleeps of five seconds. *)
Definition retried (n : nat) (a : agent) : agent :=
  {| messages := messages a; completions := completions a + n;
     executions := executions a; slept := slept a ++ replicate n 5 |}.

Lemma retried_0 a : retried 0 a = a.
Proof. destruct a. unfold retried. cbn. by rewrite Nat.add_0_r, app_nil_r. Qed.

Lemma retried_S n a : retried (S n) a = retried n (sleep 5 (count_completion a)).
Proof.
  destruct a. unfold retried, sleep, count_completion. cbn. f_equal; [lia|].
  by rewrite <- List.app_assoc.
Qed.

Section LoopFacts.
Variable converse : nat → list message → completion.
Variable execute_tool : nat → string → string → json → tool_outcome.

(** As long as the call meets a transient fault the loop goes on. *)
Lemma converse_with_retry_transient n :
  ∀ a fuel,
    (∀ i, i < n → ∃ e, converse (completions a + i) (messages a) = Fails e
                       ∧ is_transient e = true) →
    converse_with_retry converse (n + fuel) a
    = converse_with_retry converse fuel (retried n a).
Proof.
  induction n as [|n IH]; intros a fuel Hfaults.
  { by rewrite retried_0. }
  destruct (Hfaults 0) as (e & He & Ht); [lia|]. rewrite Nat.add_0_r in He.
  cbn [Nat.add converse_with_retry]. rewrite He, Ht, retried_S.
  apply IH. intros i Hi. destruct (Hfaults (S i)) as (e' & He' & Ht'); [lia|].
  exists e'. split; [|done]. cbn. by rewrite <- Nat.add_succ_comm in He'.
Qed.

Lemma converse_with_retry_starved fuel :
  ∀ a, (∀ i, ∃ e, converse (completions a + i) (messages a) = Fails e
                  ∧ is_transient e = true) →
       (converse_with_retry converse fuel a).1 = Starved.
Proof.
  induction fuel as [|fuel IH]; intros a Hfaults; [done|].
  destruct (Hfaults 0) as (e & He & Ht). rewrite Nat.add_0_r in He.
  cbn [converse_with_retry]. rewrite He, Ht. apply IH.
  intros i. destruct (Hfaults (S i)) as (e' & He' & Ht').
  exists e'. split; [|done]. cbn. by rewrite <- Nat.add_succ_comm in He'.
Qed.

(** C6. After [invoke] has put the user turn on the transcript, the
    completion call is made again, five seconds later each time, as long as
    it raises a throttling or a model-timeout exception, whatever the number
    [n] of such faults: there is no cap. The loop ends with call [n + 1]
    when that call completes (the response is then handled) or raises
    anything else (the exception then leaves [invoke] as it is); and while
    the faults are transient it does not end. *)
Theorem completion_retry_policy content a n fuel :
  json_dumps_error content = None →
  let a1 := append_message (Message "user" content) a in
  (∀ i, i < n → ∃ e, converse (completions a1 + i) (messages a1) = Fails e
                     ∧ is_transient e = true) →
  let a2 := count_completion (retried n a1) in
  (∀ e, is_transient e = true ↔
        (∃ msg, e = ThrottlingException msg) ∨ (∃ msg, e = ModelTimeoutException msg))
  ∧ slept a2 = slept a ++ replicate n 5
  ∧ completions a2 = completions a + n + 1
  ∧ (∀ r, converse (completions a1 + n) (messages a1) = Completes r →
       converse_with_retry converse (n + S fuel) a1 = (Got r, a2)
       ∧ invoke converse execute_tool (S (n + S fuel)) content a
         = _handle_response converse execute_tool (n + S fuel) r a2)
  ∧ (∀ e, converse (completions a1 + n) (messages a1) = Fails e →
       is_transient e = false →
       converse_with_retry converse (n + S fuel) a1 = (Failed e, a2)
       ∧ invoke converse execute_tool (S (n + S fuel)) content a = (Raised e, a2))
  ∧ ((∀ i, ∃ e, converse (completions a1 + i) (messages a1) = Fails e
                ∧ is_transient e = true) →
     ∀ fuel', (converse_with_retry converse fuel' a1).1 = Starved
              ∧ (invoke converse execute_tool fuel' content a).1 = OutOfFuel).
Proof.
  intros Hdumps a1 Hfaults a2.
  pose proof (converse_with_retry_transient n a1 (S fuel) Hfaults) as Hloop.
  split_and!.
  - intros e. split.
    + destruct e; try done; intros _; eauto.
    + by intros [[msg ->]|[msg ->]].
  - done.
  - cbn. lia.
  - intros r Hr.
    assert (Hgot : converse_with_retry converse (n + S fuel) a1 = (Got r, a2)).
    { rewrite Hloop. cbn [converse_with_retry]. cbn [retried completions messages].
      by rewrite Hr. }
    split; [done|]. cbn [invoke]. rewrite Hdumps. fold a1. by rewrite Hgot.
  - intros e He Ht.
    assert (Hfailed : converse_with_retry converse (n + S fuel) a1 = (Failed e, a2)).
    { rewrite Hloop. cbn [converse_with_retry]. cbn [retried completions messages].
      by rewrite He, Ht. }
    split; [done|]. cbn [invoke]. rewrite Hdumps. fold a1. by rewrite Hfailed.
  - intros Hall fuel'.
    pose proof (λ f, converse_with_retry_starved f a1 Hall) as Hstarved.
    split; [done|]. destruct fuel' as [|f]; [done|].
    cbn [invoke]. rewrite Hdumps. fold a1. specialize (Hstarved f).
    by destruct (converse_with_retry converse f a1) as [[] ?]; simplify_eq/=.
Qed.

End LoopFacts.

(** *** Runs on scripted endpoints *)

(** A completion endpoint that answers call [n] with the entry [n] of a
    script, and a tool manager that knows no tool. *)
Definition scripted (script : list completion) : nat → list message → completion :=
  λ n _, default (Fails (OtherException "end of script")) (script !! n).

Definition no_tools : nat → string → string → json → tool_outcome :=
  λ _ name _ _, ToolRaises (ValueError ("Unknown tool: " +:+ name)).

Definition assistant (items : list content_item) (stop : string) : completion :=
  Completes (Response (Message "assistant" items) stop).

(** Two transient faults, then a completion. *)
Lemma completion_retry_policy_witness :
  invoke
    (scripted [Fails (ThrottlingException "rate"); Fails (ModelTimeoutException "slow");
               assistant [Text "done"] "end_turn"])
    no_tools 5 [Text "hi"] new_agent
  = (Returned (Some "done"),
     {| messages := [Message "user" [Text "hi"]; Message "assistant" [Text "done"]];
        completions := 3; executions := 0; slept := [5; 5] |}).
Proof.
  pose proof (completion_retry_policy
                (scripted [Fails (ThrottlingException "rate");
                           Fails (ModelTimeoutException "slow");
                           assistant [Text "done"] "end_turn"])
                no_tools [Text "hi"] new_agent 2 1 eq_refl) as H.
  cbn zeta in H.
  destruct H as (_ & _ & _ & Hgot & _).
  - intros i Hi. destruct i as [|[|i]]; [eexists; split; reflexivity..|lia].
  - destruct (Hgot _ eq_refl) as [_ Hinvoke].
    change (S (2 + 2)) with 5 in Hinvoke. rewrite Hinvoke. reflexivity.
Defined.

(** *** The length limit *)

(** C5 says that after a completion that stops on [max_tokens] the
    original [invoke] returns the final text of the continued conversation.
    The code does not: here the first completion stops on [max_tokens] and
    the continuation ends the turn with the text [the rest]; the continued
    conversation is on the transcript, but [invoke] returns [None], because
    the [max_tokens] branch drops the value of the continuation. *)
Example max_tokens_result_is_dropped :
  invoke
    (scripted [assistant [Text "first part"] "max_tokens";
               assistant [Text "the rest"] "end_turn"])
    no_tools 5 [Text "write it"] new_agent
  = (Returned None,
     {| messages := [Message "user" [Text "write it"];
                     Message "assistant" [Text "first part"];
                     Message "user" [Text "Please continue."];
                     Message "assistant" [Text "the rest"]];
        completions := 2; executions := 0; slept := [10] |}).
Proof. reflexivity. Qed.

(** Whatever the endpoint and the tools do, a response that stops on
    [max_tokens] makes [_handle_response] return no text. *)
Lemma max_tokens_never_returns_text converse execute_tool fuel r a text a' :
  stopReason r = "max_tokens" →
  _handle_response converse execute_tool fuel r a ≠ (Returned (Some text), a').
Proof.
  intros Hstop Heq. destruct fuel as [|fuel]; [done|].
  cbn [_handle_response] in Heq. rewrite Hstop in Heq.
  change (bool_decide ("max_tokens" = "end_turn")) with false in Heq.
  change (bool_decide ("max_tokens" = "stop_sequence")) with false in Heq.
  change (bool_decide ("max_tokens" = "tool_use")) with false in Heq.
  change (bool_decide ("max_tokens" = "max_tokens")) with true in Heq.
  cbn [orb] in Heq. repeat case_match; simplify_eq.
Qed.

(** *** The tool dispatch *)

(** C7 says that a request for a tool that is not registered does not
    abort the run: the error is put on the transcript as the next user turn.
    The code does not get there: the [ValueError] of the tool manager is
    caught and put in the tool response as [{'Error': e}]; [invoke] then
    calls [json.dumps] on that content for its log line, before it appends
    anything, and the exception object is not JSON data: the [TypeError] is
    turned into a [ValueError] by the handler of the dispatch and leaves the
    agent. The transcript has no error result. *)
Example unknown_tool_aborts :
  invoke
    (scripted [assistant [ToolUse "t1" "no_such_tool" JNull] "tool_use";
               assistant [Text "sorry"] "end_turn"])
    no_tools 5 [Text "go"] new_agent
  = (Raised (ValueError
       "Failed to execute tool: Object of type ValueError is not JSON serializable"),
     {| messages := [Message "user" [Text "go"];
                     Message "assistant" [ToolUse "t1" "no_such_tool" JNull]];
        completions := 1; executions := 1; slept := [] |}).
Proof. reflexivity. Qed.

(** This is so for every response that asks for an unknown tool: a tool
    response that holds an error item cannot be logged. *)
Lemma json_dumps_error_item items e :
  ErrorItem e ∈ items → is_Some (json_dumps_error items).
Proof.
  intros Hin. unfold json_dumps_error.
  destruct (list_find (λ item, is_Some (not_serializable item)) items)
    as [[i item]|] eqn:Hfind.
  - apply list_find_Some in Hfind as (_ & Hitem & _). cbn. exact Hitem.
  - apply list_find_None in Hfind. rewrite Forall_forall in Hfind.
    destruct (Hfind _ Hin). by eexists.
Qed.

Lemma unknown_tool_always_aborts converse execute_tool fuel r a tool_response a2 e :
  stopReason r = "tool_use" →
  first_reasoning (content (output_message r)) ≠ Some None →
  dispatch_tools execute_tool (content (output_message r)) []
    (append_message (output_message r) a) = (inr tool_response, a2) →
  ErrorItem e ∈ tool_response →
  ∃ msg, _handle_response converse execute_tool (S (S fuel)) r a
         = (Raised (ValueError ("Failed to execute tool: " +:+ msg)), a2).
Proof.
  intros Hstop Hreasoning Hdispatch Hin.
  destruct (json_dumps_error_item tool_response e Hin) as [err Herr].
  assert (Htype : ∃ m, err = TypeError m).
  { unfold json_dumps_error in Herr.
    destruct (list_find _ tool_response) as [[i item]|]; [|done]. cbn in Herr.
    destruct item; try done. injection Herr as <-. by eexists. }
  destruct Htype as [m ->]. exists m.
  cbn [_handle_response]. rewrite Hstop.
  change (bool_decide ("tool_use" = "end_turn")) with false.
  change (bool_decide ("tool_use" = "stop_sequence")) with false.
  change (bool_decide ("tool_use" = "tool_use")) with true.
  cbn [orb]. rewrite Hdispatch. cbn [invoke]. rewrite Herr. cbn [tool_dispatch_handler str_exn].
  by destruct (first_reasoning (content (output_message r))) as [[?|]|].
Qed.

(** The other half of C7 holds: any other exception of a tool leaves the
    agent, as a [ValueError] (the response being one whose reasoning block,
    if it has one, can be logged). *)
Lemma tool_fault_aborts converse execute_tool fuel r a id name input rest e :
  stopReason r = "tool_use" →
  content (output_message r) = ToolUse id name input :: rest →
  first_reasoning rest ≠ Some None →
  execute_tool (executions a) name id input = ToolRaises e →
  (∀ msg, e = ValueError msg → starts_with "Unknown tool: " msg = false) →
  _handle_response converse execute_tool (S fuel) r a
  = (Raised (tool_dispatch_handler e),
     count_execution (append_message (output_message r) a)).
Proof.
  intros Hstop Hitems Hreasoning Hraise Hknown. cbn [_handle_response].
  rewrite Hstop, Hitems. cbn [first_reasoning bool_decide orb].
  rewrite !bool_decide_eq_false_2 by done. cbn [orb dispatch_tools].
  cbn [executions append_message]. rewrite Hraise.
  rewrite bool_decide_eq_true_2 by done.
  assert (He : match e with
               | ValueError msg =>
                   if starts_with "Unknown tool: " msg
                   then dispatch_tools execute_tool rest ([] ++ [ErrorItem (ValueError msg)])
                          (count_execution (append_message (output_message r) a))
                   else (inl (ValueError msg),
                         count_execution (append_message (output_message r) a))
               | _ => (inl e, count_execution (append_message (output_message r) a))
               end = (inl e, count_execution (append_message (output_message r) a))).
  { destruct e as [m|m|m|m|m|m]; try reflexivity. by rewrite (Hknown m eq_refl). }
  rewrite He. by destruct (first_reasoning rest) as [[?|]|].
Qed.

(** And so does the dispatch of a tool that returns: its result is the next
    user turn. *)
Example known_tool_continues :
  invoke
    (scripted [assistant [ToolUse "t1" "read" JNull] "tool_use";
               assistant [Text "read it"] "end_turn"])
    (λ _ _ _ _, ToolReturns (JStr "value")) 5 [Text "go"] new_agent
  = (Returned (Some "read it"),
     {| messages := [Message "user" [Text "go"];
                     Message "assistant" [ToolUse "t1" "read" JNull];
                     Message "user" [ToolResult (JStr "value")];
                     Message "assistant" [Text "read it"]];
        completions := 2; executions := 1; slept := [] |}).
Proof. reflexivity. Qed.

End Agent.

(** ** The step engine ([issue_processor/process_definitions.py]) *)

Module Steps.
Import PyStr Tool Interp.

(** The memory as the tool call shows it: what [read_memory_entry] returns
    for each key that was written. *)
Abbreviation memory_view := (gmap string CallToolResult).

(** What the engine does to the outside, in order. *)
Inductive call : Type :=
  | ReadEntry (entry_key : string)                          (* func("read_memory_entry", ...) *)
  | WriteEntry (entry_key : string) (value : CallToolResult) (* func("add_or_update_memory_entry", ...) *)
  | AgentCall (profile prompt : string)                     (* agent.invoke_with_prompt *)
  | CodeCall (step : string).                               (* self.code(...) *)

Record world : Type := World {
  mem : memory_view;
  calls : list call;
}.

(** Values the engine writes, as a later read returns them: a string comes
    back as one text item, [None] as an empty content. *)
Definition written (value : option string) : CallToolResult :=
  match value with
  | Some text => [Some text]
  | None => []
  end.

(** [str(item)] *)
Definition str_item (item : option string) : string := default "None" item.

(** A call returns or raises; the world goes on in both cases. *)
Inductive res (A : Type) : Type :=
  | Ok (a : A)
  | Err (e : string).
Arguments Ok {A} a.
Arguments Err {A} e.

Definition M (A : Type) : Type := world → res A * world.

Definition ret {A} (a : A) : M A := λ w, (Ok a, w).
Definition raise {A} (e : string) : M A := λ w, (Err e, w).
Definition bind {A B} (m : M A) (k : A → M B) : M B :=
  λ w, match m w with
       | (Ok a, w') => k a w'
       | (Err e, w') => (Err e, w')
       end.

Declare Scope engine_scope.
Delimit Scope engine_scope with engine.
Notation "'let!' x := m 'in' k" := (bind m (λ x, k))
  (at level 10, x name, m at level 100, k at level 200) : engine_scope.
Notation "'do!' m 'in' k" := (bind m (λ _, k))
  (at level 10, m at level 100, k at level 200) : engine_scope.
Local Open Scope engine_scope.

Definition record (c : call) (w : world) : world :=
  {| mem := mem w; calls := calls w ++ [c] |}.

(** [await func("read_memory_entry", {"entry_key": key})] *)
Definition read_memory_entry (entry_key : string) : M CallToolResult :=
  λ w, (Ok (default [Some no_entry] (mem w !! entry_key)), record (ReadEntry entry_key) w).

(** [await func("add_or_update_memory_entry", {"entry_key": key, "value": value})] *)
Definition add_or_update_memory_entry (entry_key : string) (value : option string) : M unit :=
  λ w, (Ok (), {| mem := <[entry_key := written value]> (mem w);
                  calls := calls w ++ [WriteEntry entry_key (written value)] |}).

(** The reads of an interpolation, as calls. *)
Definition consulted (events : list event) : list call :=
  omap (λ e, match e with Consulted var => Some (ReadEntry var) | _ => None end) events.

(** [await replace_context_variables(prompt, func, overrwirte_contex_memory)] *)
Definition interpolate (prompt : string) (overrwirte_contex_memory : gmap string string)
  : M string :=
  λ w, let result := replace_context_variables (memory_of (mem w))
                       overrwirte_contex_memory prompt in
       (Ok result.1, {| mem := mem w; calls := calls w ++ consulted result.2 |}).

Definition newline : string := String "010" EmptyString.

(** [self.get_id(parent_id)] *)
Definition get_id (step_id : string) (parent_id : option string) : string :=
  match parent_id with
  | None | Some EmptyString => step_id
  | Some parent => parent +:+ "__" +:+ step_id
  end.

(** The arguments [execute] and [actual_execute] pass on. *)
Record exec_args : Type := ExecArgs {
  summary : list string;
  prefix : string;
  profiles : list string;
  overrwirte_contex_memory : gmap string string;
  parent_id : option string;
}.

(** [len(value.content) > 0 and value.content[0].text == "done"] *)
Definition is_done (value : CallToolResult) : bool :=
  match value with
  | Some text :: _ => String.eqb text "done"
  | _ => false
  end.

(** [Step.execute], for a step given by its id, its flag and its
    [actual_execute]. *)
Definition execute_with (actual_execute : exec_args → M unit)
    (step_id : string) (skippable : bool) (args : exec_args) : M unit :=
  let! value := read_memory_entry (get_id step_id (parent_id args) +:+ "_status") in
  if skippable && is_done value then ret ()
  else
    do! actual_execute args in
    add_or_update_memory_entry (get_id step_id (parent_id args) +:+ "_status") (Some "done").

(** An agent built on a profile and invoked with a prompt: it returns a
    response (or [None]) or raises, and may write to the memory through its
    tools. A work function of an [ExecuteCode] step likewise. *)
Definition agent_fn : Type :=
  string → string → memory_view → res (option string) * memory_view.
Definition code_fn : Type :=
  gmap string string → list (string * string) → memory_view → res unit * memory_view.
Definition list_fn : Type :=
  gmap string string → memory_view → res (list (option string)) * memory_view.

Inductive Step : Type :=
  | Task (step_id summary description : string)
  | ExecuteCode (step_id : string) (code : code_fn) (skippable : bool)
      (parameters : option (list (string * string)))
  | ForEach (step_id variable_name expression : string)
      (expression_list_func : option (list (option string)))
      (expression_list_func_with_params : option list_fn)
      (body : list Step) (is_parallel : bool).

Definition step_id (s : Step) : string :=
  match s with
  | Task id _ _ | ExecuteCode id _ _ _ | ForEach id _ _ _ _ _ _ => id
  end.

(** [Task] and [ForEach] leave the default [skippable = True] of
    [Step.__init__]; [ExecuteCode] passes its own, [False] by default. *)
Definition skippable (s : Step) : bool :=
  match s with
  | Task _ _ _ | ForEach _ _ _ _ _ _ _ => true
  | ExecuteCode _ _ flag _ => flag
  end.

(** Decimal numerals, for [f"{prefix}.{i}"] and the iteration ids. *)
Definition str_nat (n : nat) : string := NilZero.string_of_uint (Nat.to_uint n).

(** [profiles[0]] *)
Definition first_profile (profiles : list string) : M string :=
  match profiles with
  | profile :: _ => ret profile
  | [] => raise "IndexError: list index out of range"
  end.

(** The prompt of [Task.actual_execute]. *)
Definition task_prompt (summary : list string) (prefix description : string) : string :=
  newline +:+ join newline summary +:+ newline +:+ newline
  +:+ "## Current Step (" +:+ prefix +:+ ") Details:" +:+ newline
  +:+ description +:+ newline +:+ newline
  +:+ "### Current Step Guidelines:" +:+ newline
  +:+ " - Make sure to do what is required in this step till it is finished. Always, automatically continue if needed."
  +:+ newline.

(** The prompt of [ForEach._get_expression_list]. *)
Definition expression_list_prompt (summary : list string)
    (prefix variable_name expression id : string) : string :=
  newline +:+ join newline summary +:+ newline +:+ newline
  +:+ "## Current Step (" +:+ prefix +:+ ") Details:" +:+ newline
  +:+ "ForEach " +:+ variable_name +:+ " in " +:+ expression
  +:+ " will do the following:" +:+ newline +:+ newline
  +:+ "### Current Step Guidelines:" +:+ newline
  +:+ " - Make sure to determine the list that will be processed, and store it in context memory using key `"
  +:+ id +:+ "_expression_list`." +:+ newline
  +:+ " - Do not do any looping or actions on this list. This will be done later."
  +:+ newline
  +:+ " - If the list is for file paths, so do not return the fullpath of each file, just return the relative path to the input given path."
  +:+ newline.

(** The round robin of the parallel branch of [ForEach.actual_execute]: the
    loop [for item in self.expression_list] with its [pid] and
    [current_iteration]; a task is an item with its profile and its
    iteration number. *)
Fixpoint assign_profiles (profiles : list string) (items : list (option string))
    (pid current_iteration : nat) : list (option string * string * nat) :=
  match items with
  | [] => []
  | item :: rest =>
      (item, profiles !!! pid, current_iteration)
      :: assign_profiles profiles rest ((pid + 1) mod length profiles) (S current_iteration)
  end.

Section Engine.
(** [_create_agent(mcp_clients, profile)] followed by
    [agent.invoke_with_prompt(prompt)]. *)
Variable agent : agent_fn.
(** [asyncio.gather] on the iteration tasks of a parallel
    [ForEach]: some interleaving of them (see the module [Parallel]). *)
Variable gather : list (M unit) → M unit.

Definition invoke_agent (profile prompt : string) : M (option string) :=
  λ w, let '(r, m) := agent profile prompt (mem w) in
       (r, {| mem := m; calls := calls w ++ [AgentCall profile prompt] |}).

Definition run_code (step : string) (code : code_fn)
    (overrwirte_contex_memory : gmap string string) (parameters : list (string * string))
  : M unit :=
  λ w, let '(r, m) := code overrwirte_contex_memory parameters (mem w) in
       (r, {| mem := m; calls := calls w ++ [CodeCall step] |}).

Definition run_list_func (step : string) (f : list_fn)
    (overrwirte_contex_memory : gmap string string) : M (list (option string)) :=
  λ w, let '(r, m) := f overrwirte_contex_memory (mem w) in
       (r, {| mem := m; calls := calls w ++ [CodeCall step] |}).

(** The dictionary comprehension of [ExecuteCode.actual_execute]. *)
Fixpoint interpolate_parameters (parameters : list (string * string))
    (overrwirte_contex_memory : gmap string string) : M (list (string * string)) :=
  match parameters with
  | [] => ret []
  | (key, parameter) :: rest =>
      let! value := interpolate parameter overrwirte_contex_memory in
      let! values := interpolate_parameters rest overrwirte_contex_memory in
      ret ((key, value) :: values)
  end.

(** [ForEach._get_expression_list]; the list is returned instead of being
    kept in [self.expression_list]. *)
Definition _get_expression_list (id variable_name expression : string)
    (expression_list_func : option (list (option string)))
    (expression_list_func_with_params : option list_fn)
    (args : exec_args) (profile : string) : M (list (option string)) :=
  match expression_list_func with
  | Some expression_list => ret expression_list
  | None =>
      match expression_list_func_with_params with
      | Some f => run_list_func id f (overrwirte_contex_memory args)
      | None =>
          let key := get_id id (parent_id args) +:+ "_expression_list" in
          let! value := read_memory_entry key in
          if has_entry value then ret value
          else
            let! prompt :=
              interpolate
                (expression_list_prompt (summary args) (prefix args) variable_name
                   expression (get_id id (parent_id args)))
                (overrwirte_contex_memory args) in
            let! response := invoke_agent profile prompt in
            let! value := read_memory_entry key in
            if has_entry value then ret value
            else raise "Failed to calculate expression_list"
      end
  end.

(** [ForEach._process_iteration] around [ForEach._actual_process_iteration],
    for a body given as a function of the arguments of its steps. *)
Definition _process_iteration (run_body : exec_args → M unit)
    (id variable_name : string) (args : exec_args)
    (item : option string) (profile : string) (current_iteration_number : nat) : M unit :=
  let iteration_id :=
    get_id id (parent_id args) +:+ "__" +:+ str_nat current_iteration_number in
  let! value := read_memory_entry (iteration_id +:+ "_iteration_status") in
  if is_done value then ret ()
  else
    do! add_or_update_memory_entry variable_name item in
    do! run_body {| summary := summary args; prefix := prefix args;
                    profiles := [profile];
                    overrwirte_contex_memory :=
                      <[variable_name := str_item item]> (overrwirte_contex_memory args);
                    parent_id := Some iteration_id |} in
    add_or_update_memory_entry (iteration_id +:+ "_iteration_status") (Some "done").

(** The sequential loop of [ForEach.actual_execute]. *)
Fixpoint for_each_item (process : option string → nat → M unit)
    (items : list (option string)) (current_iteration : nat) : M unit :=
  match items with
  | [] => ret ()
  | item :: rest =>
      do! process item current_iteration in
      for_each_item process rest (S current_iteration)
  end.

Definition with_prefix (args : exec_args) (p : string) : exec_args :=
  {| summary := summary args; prefix := p; profiles := profiles args;
     overrwirte_contex_memory := overrwirte_contex_memory args;
     parent_id := parent_id args |}.

(** [actual_execute] of the three kinds of step. *)
Fixpoint actual_execute (s : Step) (args : exec_args) {struct s} : M unit :=
  match s with
  | Task id _ description =>
      let! profile := first_profile (profiles args) in
      let! prompt :=
        interpolate (task_prompt (summary args) (prefix args) description)
          (overrwirte_contex_memory args) in
      let! response := invoke_agent profile prompt in
      add_or_update_memory_entry (get_id id (parent_id args) +:+ "_response") response
  | ExecuteCode id code _ parameters =>
      match parameters with
      | Some ps =>
          let! values := interpolate_parameters ps (overrwirte_contex_memory args) in
          run_code (get_id id (parent_id args)) code (overrwirte_contex_memory args) values
      | None => run_code (get_id id (parent_id args)) code (overrwirte_contex_memory args) []
      end
  | ForEach id variable_name expression f1 f2 body is_parallel =>
      let! profile := first_profile (profiles args) in
      let! expression_list :=
        _get_expression_list id variable_name expression f1 f2 args profile in
      let run_body :=
        (fix run_body (steps : list Step) (i : nat) (args' : exec_args) : M unit :=
           match steps with
           | [] => ret ()
           | step :: rest =>
               do! execute_with (actual_execute step) (step_id step) (skippable step)
                     (with_prefix args' (prefix args' +:+ "." +:+ str_nat i)) in
               run_body rest (S i) args'
           end) body 1 in
      if is_parallel then
        gather (map (λ task, let '(item, profile, n) := task in
                             _process_iteration run_body id variable_name args item profile n)
                  (assign_profiles (profiles args) expression_list 0 1))
      else
        for_each_item
          (λ item n, _process_iteration run_body id variable_name args item profile n)
          expression_list 1
  end.

(** [Step.execute] *)
Definition execute (s : Step) (args : exec_args) : M unit :=
  execute_with (actual_execute s) (step_id s) (skippable s) args.

End Engine.

(** *** Skipping a step that is done *)

Definition is_agent_call (c : call) : bool :=
  match c with AgentCall _ _ => true | _ => false end.

(** The number of agent invocations among the calls. *)
Definition agent_calls (cs : list call) : nat := length (filter is_agent_call cs).

Lemma agent_calls_app cs1 cs2 : agent_calls (cs1 ++ cs2) = agent_calls cs1 + agent_calls cs2.
Proof. unfold agent_calls. by rewrite filter_app, length_app. Qed.

Lemma agent_calls_consulted events : agent_calls (consulted events) = 0.
Proof.
  unfold agent_calls. induction events as [|e events IH]; [done|].
  by destruct e.
Qed.

Lemma agent_calls_read key : agent_calls [ReadEntry key] = 0.
Proof. reflexivity. Qed.

Lemma agent_calls_agent profile prompt : agent_calls [AgentCall profile prompt] = 1.
Proof. reflexivity. Qed.

Lemma agent_calls_cons_read key cs : agent_calls (ReadEntry key :: cs) = agent_calls cs.
Proof. reflexivity. Qed.

Ltac count_calls :=
  unfold record; cbn [fst snd calls mem];
  repeat first [rewrite agent_calls_app | rewrite agent_calls_cons_read
                | rewrite agent_calls_consulted | rewrite agent_calls_read
                | rewrite agent_calls_agent];
  change (agent_calls []) with 0; lia.

(** [Step.execute] on a done step, whatever its [actual_execute] is: the
    status is read, and that is all. *)
Lemma execute_with_done actual_execute id args w :
  mem w !! (get_id id (parent_id args) +:+ "_status") = Some [Some "done"] →
  execute_with actual_execute id true args w
  = (Ok (), record (ReadEntry (get_id id (parent_id args) +:+ "_status")) w).
Proof.
  intros Hdone. unfold execute_with, bind, read_memory_entry. by rewrite Hdone.
Qed.

(** C1. For every skippable step whose status entry holds [done],
    [execute] returns at once: [actual_execute] is not run (the outcome is
    the same whatever the step is and whatever the agent and the scheduler
    would do), no agent, work function or write is called, and the memory
    is as it was; the one call made is the read of the status. *)
Theorem execute_skips_done_step agent gather s args w :
  skippable s = true →
  mem w !! (get_id (step_id s) (parent_id args) +:+ "_status") = Some [Some "done"] →
  let status := get_id (step_id s) (parent_id args) +:+ "_status" in
  execute agent gather s args w = (Ok (), record (ReadEntry status) w)
  ∧ mem (execute agent gather s args w).2 = mem w
  ∧ calls (execute agent gather s args w).2 = calls w ++ [ReadEntry status]
  ∧ ∀ other_actual_execute,
      execute_with other_actual_execute (step_id s) (skippable s) args w
      = execute agent gather s args w.
Proof.
  intros Hskip Hdone status. unfold execute. rewrite Hskip.
  rewrite (execute_with_done _ _ _ _ Hdone). split_and!; try done.
  intros other. by rewrite (execute_with_done _ _ _ _ Hdone).
Qed.

(** An agent that answers [ok] and leaves the memory alone, and a scheduler
    that runs the tasks one after the other. *)
Definition quiet_agent : agent_fn := λ _ _ m, (Ok (Some "ok"), m).

Fixpoint in_order (tasks : list (M unit)) : M unit :=
  match tasks with
  | [] => ret ()
  | task :: rest => do! task in in_order rest
  end.

Definition top_level (profiles : list string) (prefix : string) : exec_args :=
  {| summary := []; prefix := prefix; profiles := profiles;
     overrwirte_contex_memory := ∅; parent_id := None |}.

(** A task [s1] whose status is [done]. *)
Lemma execute_skips_done_step_witness :
  execute quiet_agent in_order (Task "s1" "first" "do it") (top_level ["p0"] "1")
    {| mem := {[ "s1_status" := [Some "done"] ]}; calls := [] |}
  = (Ok (), {| mem := {[ "s1_status" := [Some "done"] ]};
               calls := [ReadEntry "s1_status"] |}).
Proof.
  destruct (execute_skips_done_step quiet_agent in_order (Task "s1" "first" "do it")
              (top_level ["p0"] "1")
              {| mem := {[ "s1_status" := [Some "done"] ]}; calls := [] |})
    as [Hskipped _]; [reflexivity..|].
  exact Hskipped.
Defined.

(** The scenario of the spec: a task [s1] without status runs once, writes
    [s1_response] and [s1_status]; the second [execute] calls no agent. *)
Example task_runs_once :
  let first := execute quiet_agent in_order (Task "s1" "first" "do it")
                 (top_level ["p0"] "1") {| mem := ∅; calls := [] |} in
  let second := execute quiet_agent in_order (Task "s1" "first" "do it")
                  (top_level ["p0"] "1") first.2 in
  mem first.2 = {[ "s1_response" := [Some "ok"]; "s1_status" := [Some "done"] ]}
  ∧ agent_calls (calls first.2) = 1
  ∧ agent_calls (calls second.2) = 1
  ∧ mem second.2 = mem first.2.
Proof. vm_compute. done. Qed.

(** *** The list of a [ForEach] *)

Section ExpressionList.
Variable agent : agent_fn.
Variables id variable_name expression : string.
Variable args : exec_args.
Variable profile : string.

(** The key of the list, what a read of it returns, and the resolution
    without a list-producing callable. *)
Definition list_key : string := get_id id (parent_id args) +:+ "_expression_list".
Definition stored (m : memory_view) : CallToolResult := default [Some no_entry] (m !! list_key).
Definition resolve : M (list (option string)) :=
  _get_expression_list agent id variable_name expression None None args profile.

(** The prompt the agent gets in a world, and the reads its interpolation
    makes. *)
Definition list_prompt (w : world) : string * list event :=
  replace_context_variables (memory_of (mem w)) (overrwirte_contex_memory args)
    (expression_list_prompt (summary args) (prefix args) variable_name expression
       (get_id id (parent_id args))).

Lemma resolve_stored w :
  has_entry (stored (mem w)) = true →
  resolve w = (Ok (stored (mem w)), record (ReadEntry list_key) w).
Proof.
  intros Hhas. unfold resolve, _get_expression_list, bind, read_memory_entry.
  fold list_key. fold (stored (mem w)). by rewrite Hhas.
Qed.

Lemma resolve_absent w :
  has_entry (stored (mem w)) = false →
  resolve w =
    let calls1 := calls w ++ [ReadEntry list_key] ++ consulted (list_prompt w).2
                  ++ [AgentCall profile (list_prompt w).1] in
    match agent profile (list_prompt w).1 (mem w) with
    | (Ok _, m) =>
        (if has_entry (stored m) then Ok (stored m)
         else Err "Failed to calculate expression_list",
         {| mem := m; calls := calls1 ++ [ReadEntry list_key] |})
    | (Err e, m) => (Err e, {| mem := m; calls := calls1 |})
    end.
Proof.
  intros Hhas. unfold resolve, _get_expression_list, bind, read_memory_entry.
  fold list_key. fold (stored (mem w)). rewrite Hhas.
  unfold interpolate, invoke_agent, record. cbn [mem calls fst snd].
  fold (list_prompt w).
  destruct (agent profile (list_prompt w).1 (mem w)) as [[response|e] m];
    cbn [mem calls]; rewrite <- !(assoc_L (++)); [|done].
  fold (stored m). by destruct (has_entry (stored m)).
Qed.

(** The resolution, by the test the code applies to the read of the list
    key:
    - if the test holds, that list is used and no agent is invoked;
    - otherwise an agent is invoked exactly once; when it returns, the key
      is read back, and the resolution raises the failure if and only if
      the test fails again (when the agent itself raises, that exception
      leaves instead);
    - a second resolution after one that yielded a list yields the same
      list and invokes no agent. *)
Lemma resolve_by_test w :
  (has_entry (stored (mem w)) = true →
     resolve w = (Ok (stored (mem w)), record (ReadEntry list_key) w)
     ∧ agent_calls (calls (resolve w).2) = agent_calls (calls w))
  ∧ (has_entry (stored (mem w)) = false →
       agent_calls (calls (resolve w).2) = agent_calls (calls w) + 1
       ∧ AgentCall profile (list_prompt w).1 ∈ calls (resolve w).2
       ∧ (∀ response m, agent profile (list_prompt w).1 (mem w) = (Ok response, m) →
            mem (resolve w).2 = m
            ∧ (resolve w).1 = (if has_entry (stored m) then Ok (stored m)
                               else Err "Failed to calculate expression_list")
            ∧ ((resolve w).1 = Err "Failed to calculate expression_list"
               ↔ has_entry (stored m) = false))
       ∧ (∀ e m, agent profile (list_prompt w).1 (mem w) = (Err e, m) →
            (resolve w).1 = Err e))
  ∧ (∀ l w1, resolve w = (Ok l, w1) →
       ∃ w2, resolve w1 = (Ok l, w2)
             ∧ mem w2 = mem w1
             ∧ agent_calls (calls w2) = agent_calls (calls w1)
             ∧ agent_calls (calls w1) ≤ agent_calls (calls w) + 1).
Proof.
  split_and!.
  - intros Hhas. rewrite (resolve_stored w Hhas). split; [done|].
    count_calls.
  - intros Hhas. rewrite (resolve_absent w Hhas). cbn zeta.
    destruct (agent profile (list_prompt w).1 (mem w)) as [[response|e] m] eqn:Hagent;
      cbn [fst snd mem calls].
    + split_and!.
      * count_calls.
      * rewrite !elem_of_app. left. right. right. right. by apply list_elem_of_singleton.
      * intros response' m' [= <- <-]. split_and!; [done..|].
        destruct (has_entry (stored m)); split; done.
      * intros e m' [=].
    + split_and!.
      * count_calls.
      * rewrite !elem_of_app. right. right. right. by apply list_elem_of_singleton.
      * intros response' m' [=].
      * by intros e' m' [= <- <-].
  - intros l w1 Hfirst.
    destruct (has_entry (stored (mem w))) eqn:Hhas.
    + rewrite (resolve_stored w Hhas) in Hfirst. injection Hfirst as <- <-.
      exists (record (ReadEntry list_key) (record (ReadEntry list_key) w)).
      split_and!.
      * by rewrite (resolve_stored (record (ReadEntry list_key) w)) by done.
      * done.
      * count_calls.
      * count_calls.
    + rewrite (resolve_absent w Hhas) in Hfirst. cbn zeta in Hfirst.
      destruct (agent profile (list_prompt w).1 (mem w)) as [[response|e] m];
        [|by injection Hfirst].
      destruct (has_entry (stored m)) eqn:Hm; [|by injection Hfirst].
      injection Hfirst as <- <-.
      eexists. split_and!.
      * by apply resolve_stored.
      * done.
      * count_calls.
      * count_calls.
Qed.

End ExpressionList.

(** An agent that stores the list [a, b, c] under the key of the loop
    [files]. *)
Definition listing_agent : agent_fn :=
  λ _ _ m, (Ok (Some "stored"),
            <[ "files_expression_list" := [Some "a"; Some "b"; Some "c"] ]> m).

(** A first resolution on an empty memory asks the agent, which stores
    the list; the second one reads it. *)
Example expression_list_computed_once :
  let first := resolve listing_agent "files" "file" "the files" (top_level ["p0"] "1") "p0"
                 {| mem := ∅; calls := [] |} in
  let second := resolve listing_agent "files" "file" "the files" (top_level ["p0"] "1") "p0"
                  first.2 in
  first.1 = Ok [Some "a"; Some "b"; Some "c"]
  ∧ second.1 = Ok [Some "a"; Some "b"; Some "c"]
  ∧ agent_calls (calls first.2) = 1
  ∧ agent_calls (calls second.2) = 1.
Proof. vm_compute. done. Qed.

(** An agent that stores nothing: the resolution fails, and a second one
    asks an agent again. *)
Example expression_list_failure :
  let first := resolve quiet_agent "files" "file" "the files" (top_level ["p0"] "1") "p0"
                 {| mem := ∅; calls := [] |} in
  let second := resolve quiet_agent "files" "file" "the files" (top_level ["p0"] "1") "p0"
                  first.2 in
  first.1 = Err "Failed to calculate expression_list"
  ∧ agent_calls (calls first.2) = 1
  ∧ agent_calls (calls second.2) = 2.
Proof. vm_compute. done. Qed.

(** *** What the key has to hold *)

Section StoredList.
Variable agent : agent_fn.
Variables id variable_name expression : string.
Variable args : exec_args.
Variable profile : string.

Local Abbreviation key := (list_key id args).
Local Abbreviation run := (resolve agent id variable_name expression args profile).

(** The key holds a list that the resolution takes: its read shows at
    least one item, and the first item has a text, which is not the
    sentinel of the read tool. *)
Definition usable (m : memory_view) : Prop :=
  ∃ text rest, m !! key = Some (Some text :: rest) ∧ text ≠ no_entry.

(** What is left: the key is absent, or it holds an empty list, or a list
    whose first item has no text, or a list whose first item is the
    sentinel. *)
Definition unusable (m : memory_view) : Prop :=
  m !! key = None
  ∨ m !! key = Some []
  ∨ (∃ rest, m !! key = Some (None :: rest))
  ∨ (∃ rest, m !! key = Some (Some no_entry :: rest)).

Lemma has_entry_usable m : has_entry (stored id args m) = true ↔ usable m.
Proof.
  unfold stored, usable. destruct (m !! key) as [[|[text|] rest]|]; simpl.
  - split; [done|]. by intros (? & ? & [=] & _).
  - destruct (String.eqb_spec text no_entry) as [->|Hne]; cbn [negb].
    + split; [done|]. by intros (? & ? & [= <- <-] & ?).
    + split; [|done]. intros _. by exists text, rest.
  - split; [done|]. by intros (? & ? & [=] & _).
  - split; [done|]. by intros (? & ? & [=] & _).
Qed.

Lemma has_entry_unusable m : has_entry (stored id args m) = false ↔ unusable m.
Proof.
  unfold stored, unusable. destruct (m !! key) as [[|[text|] rest]|]; simpl.
  - split; [intros _; by right; left|done].
  - destruct (String.eqb_spec text no_entry) as [->|Hne]; cbn [negb].
    + split; [intros _; right; right; right; by exists rest|done].
    + split; [done|]. intros [[=]|[[=]|[[rest' [=]]|[rest' [= -> _]]]]]. done.
  - split; [intros _; right; right; left; by exists rest|done].
  - split; [intros _; by left|done].
Qed.

Lemma unusable_not_usable m : unusable m ↔ ¬ usable m.
Proof.
  rewrite <- has_entry_unusable, <- has_entry_usable.
  destruct (has_entry (stored id args m)); split; try done; by intros [].
Qed.

Lemma stored_usable m text rest :
  m !! key = Some (Some text :: rest) → stored id args m = Some text :: rest.
Proof. intros H. unfold stored. by rewrite H. Qed.

(** C2, as amended. For a [ForEach] without list-producing callable:
    - if the list key holds a list with a first item whose text is not the
      sentinel, that list is used and no agent is invoked;
    - in every other case (the key is absent, or it holds an empty list, a
      first item without text, or the sentinel) an agent is invoked exactly
      once; when it returns, the key is read back, and the resolution
      raises the failure if and only if the key, absent or not, is still
      in one of these cases (when the agent itself raises, that exception
      leaves instead); after such a failure a second resolution invokes an
      agent again, so the two invoke it twice;
    - a second resolution after one that yielded a list yields the same
      list and invokes no agent, so the two invoke an agent at most
      once. *)
Theorem expression_list_memoized w :
  (∀ text rest,
     mem w !! key = Some (Some text :: rest) → text ≠ no_entry →
     run w = (Ok (Some text :: rest), record (ReadEntry key) w)
     ∧ agent_calls (calls (run w).2) = agent_calls (calls w))
  ∧ (unusable (mem w) →
       agent_calls (calls (run w).2) = agent_calls (calls w) + 1
       ∧ AgentCall profile (list_prompt id variable_name expression args w).1
         ∈ calls (run w).2
       ∧ (∀ response m,
            agent profile (list_prompt id variable_name expression args w).1 (mem w)
            = (Ok response, m) →
            mem (run w).2 = m
            ∧ (∀ text rest,
                 m !! key = Some (Some text :: rest) → text ≠ no_entry →
                 (run w).1 = Ok (Some text :: rest))
            ∧ ((run w).1 = Err "Failed to calculate expression_list" ↔ unusable m)
            ∧ (unusable m →
               agent_calls (calls (run (run w).2).2) = agent_calls (calls w) + 2))
       ∧ (∀ e m,
            agent profile (list_prompt id variable_name expression args w).1 (mem w)
            = (Err e, m) →
            (run w).1 = Err e))
  ∧ (∀ m, unusable m ↔ ¬ usable m)
  ∧ (∀ l w1, run w = (Ok l, w1) →
       ∃ w2, run w1 = (Ok l, w2)
             ∧ mem w2 = mem w1
             ∧ agent_calls (calls w2) = agent_calls (calls w1)
             ∧ agent_calls (calls w1) ≤ agent_calls (calls w) + 1).
Proof.
  destruct (resolve_by_test agent id variable_name expression args profile w)
    as (Hstored & Habsent & Htwice).
  split_and!.
  - intros text rest Hkey Hne.
    assert (Hhas : has_entry (stored id args (mem w)) = true).
    { apply has_entry_usable. by exists text, rest. }
    destruct (Hstored Hhas) as [Hrun Hcalls]. split; [|done].
    by rewrite Hrun, (stored_usable _ _ _ Hkey).
  - intros Hun. apply has_entry_unusable in Hun.
    destruct (Habsent Hun) as (Hcalls & Hin & Hreturns & Hraises).
    split_and!; [done|done| |done].
    intros response m Hagent.
    destruct (Hreturns response m Hagent) as (Hmem & Hresult & Hiff).
    split_and!; [done| | |].
    + intros text rest Hkey Hne.
      assert (Hhas : has_entry (stored id args m) = true).
      { apply has_entry_usable. by exists text, rest. }
      by rewrite Hresult, Hhas, (stored_usable _ _ _ Hkey).
    + by rewrite Hiff, has_entry_unusable.
    + intros Hm. apply has_entry_unusable in Hm. rewrite <- Hmem in Hm.
      destruct (resolve_by_test agent id variable_name expression args profile (run w).2)
        as (_ & Hagain & _).
      destruct (Hagain Hm) as (Hcalls2 & _). rewrite Hcalls2, Hcalls. lia.
  - apply unusable_not_usable.
  - exact Htwice.
Qed.

End StoredList.

(** The key holds the empty list: an agent is asked all the same, and when
    it leaves the key as it is the resolution fails, with the key
    present. *)
Lemma expression_list_memoized_witness :
  let w := {| mem := {[ "files_expression_list" := [] ]}; calls := [] |} in
  let run := resolve quiet_agent "files" "file" "the files" (top_level ["p0"] "1") "p0" in
  agent_calls (calls (run w).2) = 1
  ∧ (run w).1 = Err "Failed to calculate expression_list"
  ∧ agent_calls (calls (run (run w).2).2) = 2.
Proof.
  intros w run.
  destruct (expression_list_memoized quiet_agent "files" "file" "the files"
              (top_level ["p0"] "1") "p0" w) as (_ & Hun & _).
  assert (Hw : unusable "files" (top_level ["p0"] "1") (mem w)) by (right; by left).
  destruct (Hun Hw) as (Hcalls & _ & Hreturns & _).
  destruct (Hreturns (Some "ok") (mem w) eq_refl) as (_ & _ & Hiff & Htwo).
  split; [exact Hcalls|]. split; [by apply Hiff|by apply Htwo].
Defined.

(** C2, as stated, fails: a key that holds a value is not always taken.
    With the empty list under the key, the resolution invokes an agent. *)
Lemma stored_empty_list_is_not_used :
  ¬ (∀ agent id variable_name expression args profile w,
       is_Some (mem w !! list_key id args) →
       agent_calls (calls (resolve agent id variable_name expression args profile w).2)
       = agent_calls (calls w)).
Proof.
  intros H.
  specialize (H quiet_agent "files" "file" "the files" (top_level ["p0"] "1") "p0"
                {| mem := {[ "files_expression_list" := [] ]}; calls := [] |}).
  assert (Hkey : is_Some (({[ "files_expression_list" := [] ]} : memory_view)
                          !! list_key "files" (top_level ["p0"] "1"))).
  { by eexists. }
  specialize (H Hkey). vm_compute in H. discriminate H.
Qed.

(** Nor is the agent asked at most once by two resolutions in a row: when
    the first one fails, the second one asks again. *)
Example expression_list_asked_twice :
  ¬ (∀ agent id variable_name expression args profile w,
       agent_calls
         (calls (resolve agent id variable_name expression args profile
                   (resolve agent id variable_name expression args profile w).2).2)
       ≤ agent_calls (calls w) + 1).
Proof.
  intros H.
  specialize (H quiet_agent "files" "file" "the files" (top_level ["p0"] "1") "p0"
                {| mem := ∅; calls := [] |}).
  vm_compute in H. lia.
Qed.

End Steps.

(** ** The parallel branch of [ForEach.actual_execute]

    The iterations are cooperative tasks: a task runs until its next
    suspension point, then any task that can go on is resumed. What the
    source fixes is the list of tasks (item, profile, iteration number) and
    the wrapper [_process_iteration_wrapper], which holds the lock of the
    task's profile around the iteration. Here a task is taken through its
    phases by a schedule, a list of task indices; the body of an iteration
    is a number of suspension points, after which it returns or raises. *)

Module Parallel.
Import Steps.

(** A task of [asyncio.gather]: the arguments of
    [_process_iteration_wrapper], the suspension points of its body, and
    whether the body ends with an exception. *)
Record iteration_task : Type := IterationTask {
  task_item : option string;
  task_profile : string;
  task_number : nat;
  task_body : nat;
  task_raises : bool;
}.

(** The tasks [ForEach.actual_execute] builds for a list of items. *)
Definition tasks_of (profiles : list string) (items : list (option string))
    (body : nat → nat) (raises : nat → bool) : list iteration_task :=
  map (λ task, let '(item, profile, n) := task in
               {| task_item := item; task_profile := profile;
                  task_number := n; task_body := body n; task_raises := raises n |})
    (assign_profiles profiles items 0 1).

(** Where a task is: not started, waiting for the lock of its profile,
    inside [async with self.profile_locks[profile]] with so many suspension
    points to go, finished with the iteration completed, or finished with
    the exception of its body. *)
Inductive phase : Type :=
  | Pending
  | Blocked
  | InBody (remaining : nat)
  | Done
  | Failed.

(** How the task of a body ends. *)
Definition ending (t : iteration_task) : phase :=
  if task_raises t then Failed else Done.

Definition finished (ph : phase) : Prop := ph = Done ∨ ph = Failed.

Global Instance phase_eq_dec : EqDecision phase.
Proof. solve_decision. Defined.

(** The phases of the tasks and [self.profile_locks]: for each profile
    whose lock exists, whether it is held. *)
Record config : Type := Config {
  phases : list phase;
  profile_locks : gmap string bool;
}.

(** [self.profile_locks[profile].locked()]; the [defaultdict] makes a new,
    free lock for a profile it has not seen. *)
Definition locked (locks : gmap string bool) (profile : string) : bool :=
  default false (locks !! profile).

Definition set_phase (i : nat) (ph : phase) (c : config) : config :=
  {| phases := <[i := ph]> (phases c); profile_locks := profile_locks c |}.

Definition set_lock (profile : string) (held : bool) (c : config) : config :=
  {| phases := phases c; profile_locks := <[profile := held]> (profile_locks c) |}.

Section Gather.
Variable tasks : list iteration_task.

(** Task [i] runs up to its next suspension point: it takes the lock if it
    is free and waits otherwise, goes through its body, and releases the
    lock at the end, also when the body raises ([async with]). A task that
    waits for a held lock, or is finished, cannot run. *)
Definition advance (i : nat) (c : config) : option config :=
  match tasks !! i, phases c !! i with
  | Some t, Some Pending =>
      if locked (profile_locks c) (task_profile t)
      then Some (set_phase i Blocked c)
      else Some (set_lock (task_profile t) true (set_phase i (InBody (task_body t)) c))
  | Some t, Some Blocked =>
      if locked (profile_locks c) (task_profile t)
      then None
      else Some (set_lock (task_profile t) true (set_phase i (InBody (task_body t)) c))
  | Some t, Some (InBody (S k)) => Some (set_phase i (InBody k) c)
  | Some t, Some (InBody O) =>
      Some (set_lock (task_profile t) false (set_phase i (ending t) c))
  | _, _ => None
  end.

(** A run under a schedule. *)
Fixpoint run (schedule : list nat) (c : config) : option config :=
  match schedule with
  | [] => Some c
  | i :: rest => advance i c ≫= run rest
  end.

(** [asyncio.gather] has scheduled every task; none has started. *)
Definition launched : config :=
  {| phases := replicate (length tasks) Pending; profile_locks := ∅ |}.









(** *** The steps of a task *)










(** *** Every schedule comes to an end, with every task finished *)




(** As long as a task is not finished, some task can run: a task that has
    not started or is in its body can, and a task that waits has the holder
    of its lock in a body. *)
Global Instance finished_dec ph : Decision (finished ph).
Proof. unfold finished. apply _. Defined.


End Gather.

(** *** The round robin *)





(** *** What a task goes through *)

Section Iterations.
Variable tasks : list iteration_task.












(** A task that runs alone from the start goes through its body and
    ends, and the others have not started. *)
Lemma run_body i t k :
  tasks !! i = Some t →
  ∀ c, phases c !! i = Some (InBody k) →
  ∃ c', run tasks (replicate (S k) i) c = Some c'
        ∧ phases c' = <[i := ending t]> (phases c).
Proof.
  intros Ht. induction k as [|k IH]; intros c Hph.
  - cbn [replicate run]. unfold advance. rewrite Ht, Hph. cbn [mbind option_bind].
    by eexists.
  - change (replicate (S (S k)) i) with (i :: replicate (S k) i). cbn [run].
    unfold advance at 1. rewrite Ht, Hph. cbn [mbind option_bind].
    destruct (IH (set_phase i (InBody k) c)) as (c' & Hrun & Hphases).
    { cbn [phases set_phase]. apply list_lookup_insert_eq. by eapply lookup_lt_Some. }
    exists c'. split; [done|]. rewrite Hphases. cbn [phases set_phase].
    by rewrite list_insert_insert_eq.
Qed.


End Iterations.





(** Tasks 0 and 1 are in their bodies together while task 2 waits for the
    lock of [p0]; once task 0 is through, task 2 goes in. *)
Example overlap_across_profiles :
  let tasks := tasks_of ["p0"; "p1"] [Some "a"; Some "b"; Some "c"; Some "d"]
                 (λ _, 1) (λ _, false) in
  (phases <$> run tasks [0; 1; 2; 3] (launched tasks))
  = Some [InBody 1; InBody 1; Blocked; Blocked]
  ∧ (phases <$> run tasks [0; 1; 2; 3; 0; 0; 2] (launched tasks))
    = Some [Done; InBody 1; InBody 1; Blocked]
  ∧ run tasks [0; 1; 2; 3; 2] (launched tasks) = None
  ∧ (phases <$> run tasks [0; 1; 2; 3; 0; 0; 2; 1; 1; 3; 2; 2; 3; 3] (launched tasks))
    = Some [Done; Done; Done; Done].
Proof. vm_compute. done. Qed.

(** The body of the first of two iterations on one profile raises at once:
    the gather raises while the second iteration has not started, and the
    lock is free for it. *)
Example gather_raises_before_the_others_start :
  let tasks := tasks_of ["p0"] [Some "a"; Some "b"] (λ _, 0) (λ n, Nat.eqb n 1) in
  (phases <$> run tasks [0; 0] (launched tasks)) = Some [Failed; Pending]
  ∧ (phases <$> run tasks [0; 0; 1; 1] (launched tasks)) = Some [Failed; Done].
Proof. vm_compute. done. Qed.

End Parallel.

(** ** More on the interpolation: what the memory is asked

    [process_context_memory_return_value] and [replace_context_variables]
    of [issue_processor/process_definitions.py], beyond the three cases of a
    single variable. *)

Module Prompts.
Import PyStr Tool Interp.

(** The keys the memory was read for, in the order of the reads. *)
Definition consulted_keys (log : list event) : list string :=
  omap (λ e, match e with Consulted var => Some var | _ => None end) log.

(** The found names that are not keys of the override map. *)
Definition not_overridden (ov : gmap string string) (variables : list string) : list string :=
  filter (λ var, ov !! var = None) variables.

Lemma consulted_keys_app log1 log2 :
  consulted_keys (log1 ++ log2) = consulted_keys log1 ++ consulted_keys log2.
Proof. apply omap_app. Qed.

Lemma resolve_var_reads func ov st var :
  consulted_keys (resolve_var func ov st var).2
  = consulted_keys st.2 ++ not_overridden ov [var].
Proof.
  unfold resolve_var, not_overridden. rewrite filter_cons, filter_nil.
  destruct (ov !! var) as [v|] eqn:Hov.
  - rewrite decide_False by done. cbn [snd]. by rewrite app_nil_r.
  - rewrite decide_True by done.
    destruct (func var) as [value|e]; [destruct (has_entry value)|];
      cbn [snd]; by rewrite consulted_keys_app.
Qed.

Lemma resolve_vars_reads func ov variables :
  ∀ st, consulted_keys (resolve_vars func ov variables st).2
        = consulted_keys st.2 ++ not_overridden ov variables.
Proof.
  induction variables as [|var rest IH]; intros st.
  { cbn. by rewrite app_nil_r. }
  change (resolve_vars func ov (var :: rest) st)
    with (resolve_vars func ov rest (resolve_var func ov st var)).
  rewrite IH, resolve_var_reads. unfold not_overridden.
  rewrite <- (assoc_L (++)). f_equal.
  change (var :: rest) with ([var] ++ rest). by rewrite filter_app.
Qed.

Lemma resolve_vars_unresolved func ov variables :
  (∀ var, var ∈ variables → resolved func ov var = None) →
  ∀ st, (resolve_vars func ov variables st).1 = st.1.
Proof.
  induction variables as [|var rest IH]; intros Hnone st; [done|].
  change (resolve_vars func ov (var :: rest) st)
    with (resolve_vars func ov rest (resolve_var func ov st var)).
  rewrite IH by (intros v Hv; apply Hnone; by right).
  apply resolve_var_unresolved. apply Hnone. by left.
Qed.

(** A text in which no [${] occurs holds no variable. *)
Lemma match_var_starts s name : match_var s = Some name → starts_with "${" s = true.
Proof.
  intros H. destruct (match_var_spec _ _ H) as (_ & _ & Hs).
  destruct (starts_with_split _ _ Hs) as [rest ->]. done.
Qed.

Lemma findall_vars_none s : contains "${" s = false → findall_vars s = [].
Proof.
  unfold findall_vars. induction s as [|c s IH]; intros H; [done|].
  rewrite contains_unfold in H. apply orb_false_iff in H as [Hs Hc].
  cbn [findall_from]. destruct (match_var (String c s)) as [name|] eqn:Hm.
  - apply match_var_starts in Hm. congruence.
  - by apply IH.
Qed.

(** X1. The two tests of absence agree: the helper
    [process_context_memory_return_value] returns [None] exactly for the
    read results on which the test written out in the interpolation and in
    the [ForEach] fails (no item, a first item without text, or the
    sentinel); on any other result it returns a text that starts with the
    text of the first item, which is the text the interpolation uses. *)
Theorem absence_tests_agree (response : CallToolResult) :
  (process_context_memory_return_value response = None ↔ has_entry response = false)
  ∧ (has_entry response = true →
       ∃ more, process_context_memory_return_value response
               = Some (first_text response +:+ more)).
Proof.
  destruct response as [|[text|] rest]; cbn [process_context_memory_return_value has_entry].
  - split; [done|]. intros [=].
  - destruct (String.eqb text no_entry) eqn:Heq; cbn [negb].
    + split; [done|]. intros [=].
    + split; [split; intros [=]|]. intros _.
      change (omap id (Some text :: rest)) with (text :: omap id rest).
      cbn [first_text]. destruct (omap id rest) as [|item items]; cbn [join].
      * exists EmptyString. by rewrite str_app_nil_r.
      * by eexists.
  - split; [done|]. intros [=].
Qed.

(** X2. A prompt in which [${] does not occur comes back as it is, and the
    memory is not read: no call of the tool is made and nothing is
    logged, whatever the memory and the override map hold. *)
Theorem interpolation_without_placeholder func ov prompt :
  contains "${" prompt = false →
  replace_context_variables func ov prompt = (prompt, []).
Proof.
  intros H. unfold replace_context_variables. by rewrite findall_vars_none.
Qed.

(** A step description without variable, on a memory that holds entries. *)
Lemma interpolation_without_placeholder_witness :
  replace_context_variables (memory_of {[ "a" := [Some "1"] ]}) {[ "b" := "2" ]}
    "costs $5 {a} $ {b}"
  = ("costs $5 {a} $ {b}", []).
Proof.
  apply (interpolation_without_placeholder
           (memory_of {[ "a" := [Some "1"] ]}) {[ "b" := "2" ]} "costs $5 {a} $ {b}").
  reflexivity.
Defined.

(** X3. The memory is read once for every occurrence of a variable that is
    not overridden, in the order of the occurrences: a name that occurs
    twice is read twice (the second round finds nothing left to replace),
    and an overridden name is never read. *)
Theorem memory_read_once_per_occurrence func ov prompt :
  consulted_keys (replace_context_variables func ov prompt).2
  = not_overridden ov (findall_vars prompt).
Proof. unfold replace_context_variables. by rewrite resolve_vars_reads. Qed.

Example repeated_name_read_twice :
  consulted_keys
    (replace_context_variables (memory_of {[ "a" := [Some "1"] ]}) {[ "b" := "2" ]}
       "${a} ${b} ${a}").2 = ["a"; "a"]
  ∧ (replace_context_variables (memory_of {[ "a" := [Some "1"] ]}) {[ "b" := "2" ]}
       "${a} ${b} ${a}").1 = "1 2 1".
Proof. vm_compute. done. Qed.

(** X4. When none of the variables of the prompt resolves (each is neither
    overridden nor known to the memory, or its read raises), the prompt
    comes back unchanged: an unknown variable costs a read and a log
    record, never a character of the prompt. *)
Theorem interpolation_unresolved_is_identity func ov prompt :
  (∀ var, var ∈ findall_vars prompt → resolved func ov var = None) →
  (replace_context_variables func ov prompt).1 = prompt.
Proof.
  intros H. unfold replace_context_variables. by rewrite resolve_vars_unresolved.
Qed.

(** Two unknown variables, one of them with a failing read. *)
Lemma interpolation_unresolved_is_identity_witness :
  (replace_context_variables
     (λ var, if decide (var = "x") then Raises "timeout" else Returns [Some no_entry])
     ∅ "${x} and ${y}").1 = "${x} and ${y}".
Proof.
  apply (interpolation_unresolved_is_identity
           (λ var, if decide (var = "x") then Raises "timeout" else Returns [Some no_entry])
           ∅ "${x} and ${y}").
  intros var Hvar. vm_compute in Hvar.
  apply elem_of_cons in Hvar as [->|Hvar]; [reflexivity|].
  apply elem_of_cons in Hvar as [->|Hvar]; [reflexivity|].
  by apply elem_of_nil in Hvar.
Defined.

End Prompts.

(** ** More on the memory store: reads, deletions and the listing

    The other tools of [agents/context_memory.py]
    ([read_memory_entries], [delete_memory_entry], [list_memory_entries])
    and what the tools do to one another. *)

Module MemoryTools.
Import PyStr Tool Json Memory.

Section Batch.
Variable loads : string → option json.

(** [read_memory_entries]: the loop [for key in entry_key], whose body is
    that of [read_memory_entry] with [result[key]] in the place of the
    returned value; [result] is the dictionary built so far. *)
Fixpoint read_memory_entries (entry_key : list string) (result : gmap string json)
    (st : store) : Memory.result (gmap string json) * store :=
  match entry_key with
  | [] => (Ok result, st)
  | key :: rest =>
      match memory st !! key with
      | Some value => read_memory_entries rest (<[key := value]> result) st
      | None =>
          if path_exists key st then
            match join_path key with
            | File name =>
                match files st !! name ≫= loads with
                | Some value =>
                    read_memory_entries rest (<[key := value]> result)
                      (set_memory st (<[key := value]> (memory st)))
                | None => (Raise JSONDecodeError, st)
                end
            | _ => (Raise IsADirectoryError, st)
            end
          else read_memory_entries rest (<[key := JStr no_entry]> result) st
      end
  end.

End Batch.

(** *** Reads *)

Section ReadFacts.
Variable loads : string → option json.

Lemma read_keeps_files key st : files (read_memory_entry loads key st).2 = files st.
Proof.
  unfold read_memory_entry. destruct (memory st !! key); [done|].
  destruct (path_exists key st); [|done].
  destruct (join_path key); [|done..].
  by destruct (files st !! name ≫= loads).
Qed.

Lemma path_exists_files key st st' :
  files st' = files st → path_exists key st' = path_exists key st.
Proof. intros H. unfold path_exists. by rewrite H. Qed.

(** What a read leaves in the dictionary: the entry it returned, if it
    returned one from a file. *)
Lemma read_memory key st :
  memory (read_memory_entry loads key st).2 = memory st
  ∨ ∃ value, memory st !! key = None
             ∧ (read_memory_entry loads key st).1 = Ok value
             ∧ memory (read_memory_entry loads key st).2 = <[key := value]> (memory st).
Proof.
  unfold read_memory_entry. destruct (memory st !! key) eqn:Hm; [by left|].
  destruct (path_exists key st); [|by left].
  destruct (join_path key); [|by left..].
  destruct (files st !! name ≫= loads) as [value|]; [|by left].
  right. by exists value.
Qed.

Lemma read_after_read key key' st :
  (read_memory_entry loads key' (read_memory_entry loads key st).2).1
  = (read_memory_entry loads key' st).1.
Proof.
  pose proof (read_keeps_files key st) as Hfiles.
  destruct (read_memory key st) as [Hsame|(value & Hnone & Hread & Hmem)].
  - unfold read_memory_entry at 1 3.
    rewrite Hsame, (path_exists_files key' st _ Hfiles), Hfiles.
    destruct (memory st !! key'); [done|].
    destruct (path_exists key' st); [|done].
    destruct (join_path key'); [|done..].
    by destruct (files st !! name ≫= loads).
  - destruct (decide (key' = key)) as [->|Hne].
    + rewrite Hread. apply read_known. by rewrite Hmem, lookup_insert_eq.
    + unfold read_memory_entry at 1 3.
      rewrite Hmem, lookup_insert_ne by done.
      rewrite (path_exists_files key' st _ Hfiles), Hfiles.
      destruct (memory st !! key'); [done|].
      destruct (path_exists key' st); [|done].
      destruct (join_path key'); [|done..].
      by destruct (files st !! name ≫= loads).
Qed.

(** One round of the loop of [read_memory_entries] is a
    [read_memory_entry]. *)
Lemma read_memory_entries_cons key rest result st :
  read_memory_entries loads (key :: rest) result st
  = match read_memory_entry loads key st with
    | (Ok value, st1) => read_memory_entries loads rest (<[key := value]> result) st1
    | (Raise e, st1) => (Raise e, st1)
    end.
Proof.
  cbn [read_memory_entries]. unfold read_memory_entry.
  destruct (memory st !! key); [done|].
  destruct (path_exists key st); [|done].
  destruct (join_path key); [|done..].
  by destruct (files st !! name ≫= loads).
Qed.

Lemma read_memory_entries_ok keys :
  ∀ result st,
    (∀ key, key ∈ keys → ∃ value, (read_memory_entry loads key st).1 = Ok value) →
    ∃ out st', read_memory_entries loads keys result st = (Ok out, st')
               ∧ files st' = files st
               ∧ (∀ key value, key ∈ keys →
                    (read_memory_entry loads key st).1 = Ok value → out !! key = Some value)
               ∧ (∀ key, key ∉ keys → out !! key = result !! key).
Proof.
  induction keys as [|key rest IH]; intros result st Hall.
  { exists result, st. split_and!; [done..| |done].
    intros key value Hin. by apply elem_of_nil in Hin. }
  rewrite read_memory_entries_cons.
  destruct (Hall key) as [value Hvalue]; [left|].
  destruct (read_memory_entry loads key st) as [r st1] eqn:Hread.
  cbn [fst] in Hvalue. subst r.
  assert (Hst1 : st1 = (read_memory_entry loads key st).2) by by rewrite Hread.
  destruct (IH (<[key := value]> result) st1) as (out & st' & Hrun & Hfiles & Hin & Hout).
  { intros k Hk. destruct (Hall k) as [v Hv]; [by right|].
    exists v. by rewrite Hst1, read_after_read. }
  exists out, st'. split_and!.
  - done.
  - by rewrite Hfiles, Hst1, read_keeps_files.
  - intros k v Hk Hv. destruct (decide (k ∈ rest)) as [Hrest|Hrest].
    + apply Hin; [done|]. by rewrite Hst1, read_after_read.
    + apply elem_of_cons in Hk as [->|Hk]; [|done].
      rewrite Hout by done. rewrite lookup_insert_eq.
      rewrite Hread in Hv. cbn [fst] in Hv. congruence.
  - intros k Hk. apply not_elem_of_cons in Hk as [Hne Hk].
    rewrite Hout by done. by rewrite lookup_insert_ne.
Qed.

Lemma read_memory_entries_raise keys :
  ∀ result st key e,
    key ∈ keys → (read_memory_entry loads key st).1 = Raise e →
    ∃ e' st', read_memory_entries loads keys result st = (Raise e', st').
Proof.
  induction keys as [|k rest IH]; intros result st key e Hin Hraise.
  { by apply elem_of_nil in Hin. }
  rewrite read_memory_entries_cons.
  destruct (read_memory_entry loads k st) as [[value|e1] st1] eqn:Hread; [|by eexists _, _].
  assert (Hst1 : st1 = (read_memory_entry loads k st).2) by by rewrite Hread.
  apply elem_of_cons in Hin as [->|Hin]; [by rewrite Hread in Hraise|].
  apply (IH _ st1 key e Hin). by rewrite Hst1, read_after_read.
Qed.

End ReadFacts.

(** X5. Reads do not interfere: a read changes no file, and what a key
    reads as (a value, the sentinel, or an exception) is the same after any
    other read as before it; the one thing a read may change is the
    dictionary, in which it keeps the entry it loaded from a file. *)
Theorem reads_do_not_interfere loads key key' st :
  files (read_memory_entry loads key st).2 = files st
  ∧ (read_memory_entry loads key' (read_memory_entry loads key st).2).1
    = (read_memory_entry loads key' st).1
  ∧ (∀ k, memory st !! k = None →
       memory (read_memory_entry loads key st).2 !! k ≠ None →
       k = key ∧ (read_memory_entry loads key st).1
                 = Ok (default JNull (memory (read_memory_entry loads key st).2 !! k))).
Proof.
  split_and!.
  - apply read_keeps_files.
  - apply read_after_read.
  - intros k Hnone Hsome.
    destruct (read_memory loads key st) as [Hsame|(value & _ & Hread & Hmem)].
    + by rewrite Hsame in Hsome.
    + rewrite Hmem in Hsome |- *. destruct (decide (k = key)) as [->|Hne].
      * by rewrite lookup_insert_eq.
      * by rewrite lookup_insert_ne in Hsome.
Qed.

(** X6. [read_memory_entries] agrees with [read_memory_entry]: when every
    key of the request can be read on its own, the batch returns a
    dictionary that holds, for each requested key, what the single read of
    that key returns (the sentinel for an unknown key) and no other key,
    and it changes no file; when the single read of some requested key
    raises, the batch raises and returns nothing, not even the entries it
    had read. *)
Theorem batch_read_agrees_with_single_reads loads keys st :
  ((∀ key, key ∈ keys → ∃ value, (read_memory_entry loads key st).1 = Ok value) →
     ∃ out st', read_memory_entries loads keys ∅ st = (Ok out, st')
                ∧ files st' = files st
                ∧ (∀ key value, key ∈ keys →
                     (read_memory_entry loads key st).1 = Ok value →
                     out !! key = Some value)
                ∧ (∀ key, key ∉ keys → out !! key = None))
  ∧ (∀ key e, key ∈ keys → (read_memory_entry loads key st).1 = Raise e →
       ∃ e' st', read_memory_entries loads keys ∅ st = (Raise e', st')).
Proof.
  split.
  - intros Hall.
    destruct (read_memory_entries_ok loads keys ∅ st Hall)
      as (out & st' & Hrun & Hfiles & Hin & Hout).
    exists out, st'. split_and!; [done..|].
    intros key Hkey. by rewrite Hout, lookup_empty.
  - intros key e. apply read_memory_entries_raise.
Qed.

(** A batch of three keys: one in the dictionary, one only in a file, one
    unknown. *)
Lemma batch_read_agrees_with_single_reads_witness :
  let st := {| memory := {[ "a" := JInt 1 ]};
               files := {[ "a" := "1"; "b" := "[2]" ]} |} in
  ∃ out st', read_memory_entries Json.loads ["a"; "b"; "c"] ∅ st = (Ok out, st')
             ∧ out !! "a" = Some (JInt 1)
             ∧ out !! "b" = Some (JList [JInt 2])
             ∧ out !! "c" = Some (JStr no_entry).
Proof.
  intros st.
  destruct (batch_read_agrees_with_single_reads Json.loads ["a"; "b"; "c"] st)
    as [Hok _].
  destruct Hok as (out & st' & Hrun & _ & Hin & _).
  - intros key Hkey.
    apply elem_of_cons in Hkey as [->|Hkey]; [by eexists|].
    apply elem_of_cons in Hkey as [->|Hkey]; [by eexists|].
    apply elem_of_cons in Hkey as [->|Hkey]; [by eexists|].
    by apply elem_of_nil in Hkey.
  - exists out, st'. split; [exact Hrun|]. split_and!; apply Hin; try reflexivity.
    + apply elem_of_cons. by left.
    + apply elem_of_cons. right. apply elem_of_cons. by left.
    + apply elem_of_cons. right. apply elem_of_cons. right. apply elem_of_cons. by left.
Defined.

(** *** Writes and deletions *)

Lemma join_path_file key name : join_path key = File name → name = key.
Proof.
  unfold join_path. destruct (is_file_name key); [by intros [= <-]|].
  by destruct (_ || _).
Qed.

Lemma read_agrees loads key st st' :
  memory st' !! key = memory st !! key →
  (∀ name, join_path key = File name → files st' !! name = files st !! name) →
  (read_memory_entry loads key st').1 = (read_memory_entry loads key st).1.
Proof.
  intros Hmem Hfiles. unfold read_memory_entry, path_exists. rewrite Hmem.
  destruct (memory st !! key); [done|].
  destruct (join_path key) as [name| |] eqn:Hpath; [|done..].
  rewrite (Hfiles name eq_refl).
  destruct (bool_decide (is_Some (files st !! name))); [|done].
  by destruct (files st !! name ≫= loads).
Qed.

Lemma delete_files key st :
  files (delete_memory_entry key st).2
  = match join_path key with File name => delete name (files st) | _ => files st end.
Proof.
  unfold delete_memory_entry, path_exists. cbn [files set_memory].
  destruct (join_path key) as [name| |]; [|done..].
  case_bool_decide as Hfile; [done|]. cbn [snd files set_memory].
  symmetry. apply delete_id. by apply eq_None_not_Some.
Qed.

Lemma delete_memory key st :
  memory (delete_memory_entry key st).2 = delete key (memory st).
Proof.
  unfold delete_memory_entry.
  destruct (path_exists key _); [|done]. by destruct (join_path key).
Qed.

Lemma loadable_delete loads name directory :
  loadable loads directory → loadable loads (delete name directory).
Proof.
  intros Hload n t Hn. apply lookup_delete_Some in Hn as [_ Hn]. by apply (Hload n t).
Qed.

(** X7. Deleting the entry of a key that is a file name succeeds whether
    or not the entry exists; the key then reads as absent (the sentinel),
    at once and after a restart of the server, and the file of no other key
    is touched. *)
Theorem deleted_entry_reads_absent loads K st :
  is_file_name K = true →
  let st1 := (delete_memory_entry K st).2 in
  (delete_memory_entry K st).1 = Ok true
  ∧ files st1 = delete K (files st)
  ∧ (read_memory_entry loads K st1).1 = Ok (JStr no_entry)
  ∧ (loadable loads (files st) →
       ∃ st', restart loads st1 = Ok st'
              ∧ (read_memory_entry loads K st').1 = Ok (JStr no_entry)).
Proof.
  intros HK st1.
  assert (Hfiles : files st1 = delete K (files st)).
  { unfold st1. by rewrite delete_files, (join_path_file_name K HK). }
  assert (Habsent : ∀ st', memory st' !! K = None → files st' = delete K (files st) →
            (read_memory_entry loads K st').1 = Ok (JStr no_entry)).
  { intros st' Hm Hf. apply read_never_written; [done|].
    unfold path_exists. rewrite (join_path_file_name K HK), Hf, lookup_delete_eq.
    by apply bool_decide_eq_false_2, is_Some_None. }
  split_and!.
  - unfold delete_memory_entry. rewrite (join_path_file_name K HK).
    by destruct (path_exists K _).
  - done.
  - apply Habsent; [|done]. unfold st1. by rewrite delete_memory, lookup_delete_eq.
  - intros Hload.
    destruct (startup_spec loads (files st1)) as (st' & Hstart & Hf & Hm).
    { rewrite Hfiles. by apply loadable_delete. }
    exists st'. split; [done|]. apply Habsent; [|by rewrite Hf].
    rewrite Hm, Hfiles, lookup_delete_eq. by destruct (starts_with "." K).
Qed.

Lemma deleted_entry_reads_absent_witness :
  let st := {| memory := {[ "foo" := JInt 1 ]}; files := {[ "foo" := "1" ]} |} in
  (read_memory_entry Json.loads "foo" st).1 = Ok (JInt 1)
  ∧ (read_memory_entry Json.loads "foo" (delete_memory_entry "foo" st).2).1
    = Ok (JStr no_entry).
Proof.
  intros st. split; [reflexivity|].
  destruct (deleted_entry_reads_absent Json.loads "foo" st) as (_ & _ & Hread & _);
    [reflexivity|exact Hread].
Defined.

(** A key in which no [/] and no NUL occurs: joined to the directory it
    names a file of the directory, or the directory itself or its parent,
    and no path that leads elsewhere. *)
Definition is_flat (key : string) : bool :=
  negb (has_char "/" key) && negb (has_char "000" key).

(** X8. A write or a deletion under one key leaves every other key as it
    reads, for keys in which no [/] occurs (and no NUL): two such keys that
    differ name different paths. This holds whether or not the operation
    succeeds, so also under the empty key, [.] and [..]. *)
Theorem other_keys_are_left_alone dumps loads K K' V st :
  is_flat K = true → is_flat K' = true →
  K ≠ K' →
  (read_memory_entry loads K' (add_or_update_memory_entry dumps K V st).2).1
  = (read_memory_entry loads K' st).1
  ∧ (read_memory_entry loads K' (delete_memory_entry K st).2).1
    = (read_memory_entry loads K' st).1.
Proof.
  intros _ _ Hne. split; apply read_agrees.
  - by rewrite add_updates_memory, lookup_insert_ne.
  - intros name' Hname'. apply join_path_file in Hname' as ->.
    unfold add_or_update_memory_entry.
    destruct (join_path K) as [name| |] eqn:Hname; [|done..].
    apply join_path_file in Hname as ->. cbn. by rewrite lookup_insert_ne.
  - by rewrite delete_memory, lookup_delete_ne.
  - intros name' Hname'. apply join_path_file in Hname' as ->.
    rewrite delete_files. destruct (join_path K) as [name| |] eqn:Hname; [|done..].
    apply join_path_file in Hname as ->. by rewrite lookup_delete_ne.
Qed.

Lemma other_keys_are_left_alone_witness :
  let st := {| memory := ∅; files := {[ "b" := "[2]" ]} |} in
  (read_memory_entry Json.loads "b" (add_or_update_memory_entry Json.dumps "a" (JInt 1) st).2).1
  = Ok (JList [JInt 2]).
Proof.
  intros st.
  destruct (other_keys_are_left_alone Json.dumps Json.loads "a" "b" (JInt 1) st) as [Hadd _];
    [reflexivity|reflexivity|done|].
  rewrite Hadd. reflexivity.
Defined.

(** X9. A write is not atomic. Under a key that names the directory itself
    (the empty key, [.] or [..]) the write raises and changes no file, but
    the dictionary was updated before the file was opened: the same server
    then reads the value back as if it were stored, while a server started
    again on the same directory raises on that read. *)
Theorem failed_write_is_read_back dumps loads K V st :
  join_path K = Directory →
  let st1 := (add_or_update_memory_entry dumps K V st).2 in
  (add_or_update_memory_entry dumps K V st).1 = Raise IsADirectoryError
  ∧ files st1 = files st
  ∧ (read_memory_entry loads K st1).1 = Ok V
  ∧ (loadable loads (files st) → files st !! K = None →
       ∃ st', restart loads st1 = Ok st'
              ∧ (read_memory_entry loads K st').1 = Raise IsADirectoryError).
Proof.
  intros HK st1.
  assert (Hfiles : files st1 = files st).
  { unfold st1, add_or_update_memory_entry. by rewrite HK. }
  split_and!.
  - unfold add_or_update_memory_entry. by rewrite HK.
  - done.
  - apply read_known. unfold st1. by rewrite add_updates_memory, lookup_insert_eq.
  - intros Hload Hnone.
    destruct (startup_spec loads (files st1)) as (st' & Hstart & Hf & Hm);
      [by rewrite Hfiles|].
    exists st'. split; [done|].
    unfold read_memory_entry, path_exists. rewrite Hm, Hfiles, Hnone, HK.
    by destruct (starts_with "." K).
Qed.

Lemma failed_write_is_read_back_witness :
  let st1 := (add_or_update_memory_entry Json.dumps EmptyString (JInt 1)
                {| memory := ∅; files := ∅ |}).2 in
  (read_memory_entry Json.loads EmptyString st1).1 = Ok (JInt 1)
  ∧ ∃ st', restart Json.loads st1 = Ok st'
           ∧ (read_memory_entry Json.loads EmptyString st').1 = Raise IsADirectoryError.
Proof.
  intros st1.
  destruct (failed_write_is_read_back Json.dumps Json.loads EmptyString (JInt 1)
              {| memory := ∅; files := ∅ |}) as (_ & _ & Hread & Hrestart);
    [reflexivity|].
  split; [exact Hread|]. apply Hrestart; [|reflexivity].
  intros name text H. cbn in H. by rewrite lookup_empty in H.
Defined.

(** *** The start of the server and the listing *)

Lemma load_files_corrupt loads name text listing :
  (name, text) ∈ listing → starts_with "." name = false → loads text = None →
  ∀ m0, fold_left (load_file loads) listing (Ok m0) = Raise JSONDecodeError.
Proof.
  intros Hin Hdot Hbad. induction listing as [|[n t] rest IH]; intros m0.
  { by apply elem_of_nil in Hin. }
  cbn [fold_left]. apply elem_of_cons in Hin as [[= <- <-]|Hin].
  - unfold load_file at 2. cbn [fst snd]. rewrite Hdot, Hbad. apply load_files_raise.
  - unfold load_file at 2. cbn [fst snd].
    destruct (starts_with "." n); [by apply IH|].
    destruct (loads t); [by apply IH|apply load_files_raise].
Qed.

Lemma elem_of_list_memory_entries key st :
  key ∈ list_memory_entries st ↔ is_Some (memory st !! key).
Proof.
  unfold list_memory_entries. rewrite list_elem_of_fmap. split.
  - intros ([k v] & -> & Hin). apply elem_of_map_to_list in Hin. by eexists.
  - intros [v Hv]. exists (key, v). split; [done|]. by apply elem_of_map_to_list.
Qed.

(** X10. One file that is not a JSON text keeps the server from starting:
    the loop that loads the directory raises on it, whatever the other
    files hold (a file whose name starts with a dot is opened but not
    decoded, and cannot do this). *)
Theorem startup_rejects_corrupt_file loads directory name text :
  directory !! name = Some text → starts_with "." name = false → loads text = None →
  startup loads directory = Raise JSONDecodeError.
Proof.
  intros Hfile Hdot Hbad. unfold startup, load_files.
  rewrite (load_files_corrupt loads name text); try done.
  by apply elem_of_map_to_list.
Qed.

Lemma startup_rejects_corrupt_file_witness :
  startup Json.loads {[ "good" := "1"; "bad" := "{oops" ]} = Raise JSONDecodeError.
Proof.
  apply (startup_rejects_corrupt_file Json.loads _ "bad" "{oops"); reflexivity.
Defined.

(** X11. After a restart on a directory of JSON files, the listing shows
    the names of the files that do not start with a dot, and nothing else:
    what the dictionary held and no file backs is gone, and an entry whose
    key starts with a dot is not listed although a read of it still finds
    its file and returns its value. *)
Theorem listing_after_restart loads st :
  loadable loads (files st) →
  ∃ st', restart loads st = Ok st'
         ∧ (∀ key, key ∈ list_memory_entries st'
                   ↔ is_Some (files st !! key) ∧ starts_with "." key = false)
         ∧ (∀ key text value, is_file_name key = true →
              files st !! key = Some text → loads text = Some value →
              (read_memory_entry loads key st').1 = Ok value).
Proof.
  intros Hload.
  destruct (startup_spec loads (files st) Hload) as (st' & Hstart & Hf & Hm).
  exists st'. split; [done|]. split.
  - intros key. rewrite elem_of_list_memory_entries, Hm.
    destruct (starts_with "." key) eqn:Hdot.
    + split; [by intros [? [=]]|by intros [_ [=]]].
    + destruct (files st !! key) as [text|] eqn:Hfile; cbn.
      * split; [by eauto|]. intros _. by apply (Hload key text).
      * split; [by intros [? [=]]|]. by intros [[? [=]] _].
  - intros key text value Hkey Hfile Hvalue.
    unfold read_memory_entry, path_exists.
    rewrite Hm, (join_path_file_name key Hkey), Hf, Hfile. cbn [mbind option_bind].
    rewrite Hvalue, bool_decide_eq_true_2 by done.
    by destruct (starts_with "." key).
Qed.

(** A dictionary entry without file, a file, and a file with a dot. *)
Lemma listing_after_restart_witness :
  let st := {| memory := {[ "unsaved" := JInt 0 ]};
               files := {[ "a" := "1"; ".hidden" := "2" ]} |} in
  ∃ st', restart Json.loads st = Ok st'
         ∧ "a" ∈ list_memory_entries st'
         ∧ ("unsaved" ∉ list_memory_entries st')
         ∧ (".hidden" ∉ list_memory_entries st')
         ∧ (read_memory_entry Json.loads ".hidden" st').1 = Ok (JInt 2).
Proof.
  intros st.
  destruct (listing_after_restart Json.loads st) as (st' & Hstart & Hlist & Hread).
  - intros name text Hname Hdot.
    destruct (decide (name = "a")) as [->|Ha]; [by injection Hname as <-|].
    destruct (decide (name = ".hidden")) as [->|Hh]; [done|].
    unfold st in Hname. cbn [files] in Hname.
    rewrite lookup_insert_ne in Hname by done.
    by rewrite lookup_singleton_ne in Hname.
  - exists st'. split; [exact Hstart|]. split_and!.
    + apply Hlist. by split.
    + rewrite Hlist. by intros [[? [=]] _].
    + rewrite Hlist. by intros [_ [=]].
    + by apply (Hread ".hidden" "2").
Defined.

End MemoryTools.

(** ** More on the agent loop: the transcript and the tool round

    [invoke] and [_handle_response] of
    [issue_processor/converse_agent.py] as a whole: what they keep, and how
    a failure travels through a tool round. *)

Module Transcript.
Import PyStr Tool Json Agent.

(** An agent state that continues an earlier one: the transcript and the
    sleeps are extended at the end, the counters do not go down. *)
Definition extends (a a' : agent) : Prop :=
  messages a `prefix_of` messages a'
  ∧ slept a `prefix_of` slept a'
  ∧ completions a ≤ completions a'
  ∧ executions a ≤ executions a'.

(** The [toolUse] items of a content list. *)
Definition is_tool_use (item : content_item) : bool :=
  match item with ToolUse _ _ _ => true | _ => false end.

Definition tool_uses (items : list content_item) : list content_item :=
  filter is_tool_use items.

Lemma extends_refl a : extends a a.
Proof. by split_and!. Qed.

Lemma extends_trans a b c : extends a b → extends b c → extends a c.
Proof.
  intros (? & ? & ? & ?) (? & ? & ? & ?).
  split_and!; [by etrans|by etrans|lia|lia].
Qed.

Lemma extends_append m a : extends a (append_message m a).
Proof. split_and!; try done. by apply prefix_app_r. Qed.

Lemma extends_completion a : extends a (count_completion a).
Proof. split_and!; try done. cbn. lia. Qed.

Lemma extends_execution a : extends a (count_execution a).
Proof. split_and!; try done. cbn. lia. Qed.

Lemma extends_sleep n a : extends a (sleep n a).
Proof. split_and!; try done. by apply prefix_app_r. Qed.

Section Facts.
Variable converse : nat → list message → completion.
Variable execute_tool : nat → string → string → json → tool_outcome.

Lemma converse_with_retry_extends fuel :
  ∀ a, extends a (converse_with_retry converse fuel a).2
       ∧ messages (converse_with_retry converse fuel a).2 = messages a.
Proof.
  induction fuel as [|fuel IH]; intros a; [by split; [apply extends_refl|]|].
  cbn [converse_with_retry].
  destruct (converse (completions a) (messages a)) as [r|e].
  - split; [apply extends_completion|done].
  - destruct (is_transient e).
    + destruct (IH (sleep 5 (count_completion a))) as [Hext Hm]. split; [|done].
      eapply extends_trans; [apply extends_completion|].
      eapply extends_trans; [apply extends_sleep|done].
    + split; [apply extends_completion|done].
Qed.

Lemma dispatch_tools_extends items :
  ∀ tool_response a, extends a (dispatch_tools execute_tool items tool_response a).2.
Proof.
  induction items as [|item items IH]; intros acc a; [apply extends_refl|].
  destruct item as [text|reasoning|id name input|res|e]; cbn [dispatch_tools]; try apply IH.
  assert (Hrec : ∀ acc', extends a (dispatch_tools execute_tool items acc'
                                      (count_execution a)).2).
  { intros acc'. eapply extends_trans; [apply extends_execution|apply IH]. }
  destruct (execute_tool (executions a) name id input) as [tool_result|e]; [apply Hrec|].
  destruct e as [m|m|m|m|m|m]; try apply extends_execution.
  destruct (starts_with "Unknown tool: " m); [apply Hrec|apply extends_execution].
Qed.

Lemma loop_extends fuel :
  (∀ content a, extends a (invoke converse execute_tool fuel content a).2)
  ∧ (∀ r a, extends a (_handle_response converse execute_tool fuel r a).2).
Proof.
  induction fuel as [|fuel [IHinvoke IHhandle]]; [by split; intros; apply extends_refl|].
  split.
  - intros content a. cbn [invoke].
    destruct (json_dumps_error content); [apply extends_refl|].
    pose proof (converse_with_retry_extends fuel
                  (append_message (Message "user" content) a)) as [Hretry _].
    pose proof (extends_append (Message "user" content) a) as Happend.
    destruct (converse_with_retry converse fuel _) as [[r|e|] a2]; cbn [snd] in *.
    + eapply extends_trans; [exact Happend|].
      eapply extends_trans; [exact Hretry|apply IHhandle].
    + by eapply extends_trans.
    + by eapply extends_trans.
  - intros r a. cbn [_handle_response].
    pose proof (extends_append (output_message r) a) as Happend.
    set (a1 := append_message (output_message r) a) in *.
    assert (Hrest :
      extends a
        (if bool_decide (stopReason r = "end_turn")
            || bool_decide (stopReason r = "stop_sequence")
         then (Returned (first_text_item (content (output_message r))), a1)
         else if bool_decide (stopReason r = "tool_use") then
           match dispatch_tools execute_tool (content (output_message r)) [] a1 with
           | (inl e, a2) => (Raised (tool_dispatch_handler e), a2)
           | (inr tool_response, a2) =>
               match invoke converse execute_tool fuel tool_response a2 with
               | (Raised e, a3) => (Raised (tool_dispatch_handler e), a3)
               | other => other
               end
           end
         else if bool_decide (stopReason r = "max_tokens") then
           match invoke converse execute_tool fuel [Text "Please continue."] (sleep 10 a1) with
           | (Returned _, a2) => (Returned None, a2)
           | other => other
           end
         else (Raised (ValueError ("Unknown stop reason: " +:+ stopReason r)), a1)).2).
    { destruct (_ || _); [done|].
      destruct (bool_decide (stopReason r = "tool_use")).
      - pose proof (dispatch_tools_extends (content (output_message r)) [] a1) as Hd.
        destruct (dispatch_tools execute_tool _ [] a1) as [[e|tool_response] a2];
          cbn [snd] in *; [by eapply extends_trans|].
        pose proof (IHinvoke tool_response a2) as Hi.
        destruct (invoke converse execute_tool fuel tool_response a2) as [[v|e|] a3];
          cbn [snd] in *;
          (eapply extends_trans; [exact Happend|]; by eapply extends_trans).
      - destruct (bool_decide (stopReason r = "max_tokens")); [|done].
        pose proof (IHinvoke [Text "Please continue."] (sleep 10 a1)) as Hi.
        destruct (invoke converse execute_tool fuel _ (sleep 10 a1)) as [[v|e|] a2];
          cbn [snd] in *;
          (eapply extends_trans; [exact Happend|];
           eapply extends_trans; [apply extends_sleep|done]). }
    by destruct (first_reasoning (content (output_message r))) as [[?|]|].
Qed.

(** The answers of a tool round in which every tool returns. *)
Lemma dispatch_tools_answers items :
  (∀ n name id input, ∃ res, execute_tool n name id input = ToolReturns res) →
  ∀ tool_response a,
    ∃ results a',
      dispatch_tools execute_tool items tool_response a
      = (inr (tool_response ++ map ToolResult results), a')
      ∧ length results = length (tool_uses items)
      ∧ executions a' = executions a + length (tool_uses items)
      ∧ messages a' = messages a.
Proof.
  intros Hreturns. induction items as [|item items IH]; intros acc a.
  { exists [], a. rewrite app_nil_r. split_and!; try done; cbn; lia. }
  destruct item as [text|reasoning|id name input|res|e]; cbn [dispatch_tools];
    try (unfold tool_uses; rewrite filter_cons_False by (by intros []); apply IH).
  destruct (Hreturns (executions a) name id input) as [res ->].
  destruct (IH (acc ++ [ToolResult res]) (count_execution a))
    as (results & a' & -> & Hlen & Hexec & Hmsg).
  exists (res :: results), a'. unfold tool_uses in *. rewrite filter_cons_True by done.
  split_and!.
  - by rewrite <- (assoc_L (++)).
  - cbn [length]. by rewrite Hlen.
  - rewrite Hexec. cbn [length executions count_execution]. lia.
  - done.
Qed.

End Facts.

(** X12. The agent only adds to its record. Whatever the completion
    endpoint and the tools answer, and however a call of [invoke] ends
    (with a value, with an exception, or still running), the transcript
    after the call is the transcript before it with messages appended:
    no earlier message is dropped or rewritten, the counters of completion
    calls and of tool executions do not go down, and a call whose content
    can be logged has put that content on the transcript as a user turn
    right after the earlier messages. *)
Theorem transcript_only_grows converse execute_tool fuel content a :
  extends a (invoke converse execute_tool fuel content a).2
  ∧ (json_dumps_error content = None →
       ∃ more, messages (invoke converse execute_tool (S fuel) content a).2
               = messages a ++ Message "user" content :: more).
Proof.
  split; [apply loop_extends|].
  intros Hdumps. cbn [invoke]. rewrite Hdumps.
  set (a1 := append_message (Message "user" content) a).
  pose proof (converse_with_retry_extends converse fuel a1) as [_ Hm].
  assert (Hfrom : ∀ a', messages a1 `prefix_of` messages a' →
            ∃ more, messages a' = messages a ++ Message "user" content :: more).
  { intros a' [more Hmore]. exists more. rewrite Hmore. cbn.
    by rewrite <- (assoc_L (++)). }
  pose proof (proj2 (loop_extends converse execute_tool fuel)) as Hhandle.
  destruct (converse_with_retry converse fuel a1) as [[r|e|] a2]; cbn [snd] in *.
  - apply Hfrom. destruct (Hhandle r a2) as [Hprefix _]. by rewrite <- Hm.
  - apply Hfrom. by rewrite Hm.
  - apply Hfrom. by rewrite Hm.
Qed.

(** The tool round, request by request: the results come in the order of
    the requests, and the request at position [i] is executed as execution
    number [executions a + i]. *)
Lemma dispatch_tools_in_order execute_tool items :
  (∀ n name id input, ∃ res, execute_tool n name id input = ToolReturns res) →
  ∀ tool_response a,
    ∃ results a',
      dispatch_tools execute_tool items tool_response a
      = (inr (tool_response ++ results), a')
      ∧ length results = length (tool_uses items)
      ∧ (∀ i id name input,
           tool_uses items !! i = Some (ToolUse id name input) →
           ∃ res, execute_tool (executions a + i) name id input = ToolReturns res
                  ∧ results !! i = Some (ToolResult res))
      ∧ executions a' = executions a + length (tool_uses items)
      ∧ messages a' = messages a.
Proof.
  intros Hreturns. induction items as [|item items IH]; intros acc a.
  { exists [], a. rewrite app_nil_r. split_and!; try done; cbn; lia. }
  destruct item as [text|reasoning|id name input|res|e]; cbn [dispatch_tools];
    try (unfold tool_uses; rewrite filter_cons_False by (by intros []); apply IH).
  destruct (Hreturns (executions a) name id input) as [res Hres]. rewrite Hres.
  destruct (IH (acc ++ [ToolResult res]) (count_execution a))
    as (results & a' & -> & Hlen & Hith & Hexec & Hmsg).
  exists (ToolResult res :: results), a'. unfold tool_uses in *.
  rewrite filter_cons_True by done.
  split_and!.
  - by rewrite <- (assoc_L (++)).
  - cbn [length]. by rewrite Hlen.
  - intros [|i] id' name' input' Hi.
    + injection Hi as <- <- <-. exists res. by rewrite Nat.add_0_r.
    + destruct (Hith i id' name' input' Hi) as (res' & Hres' & Hi').
      exists res'. split; [|done].
      cbn [executions count_execution] in Hres'. by rewrite Nat.add_succ_r.
  - rewrite Hexec. cbn [length executions count_execution]. lia.
  - done.
Qed.

(** X13. In a tool round in which every tool returns, each [toolUse] item
    of the response is executed once, in the order of the items, and the
    content built for the next user turn holds one [toolResult] per request
    and nothing else: the result at position [i] is what the tool answered
    to the request at position [i], which was the [i]-th execution of the
    round. The items of the response that are not tool requests are passed
    over, and the transcript is not touched by the round. *)
Theorem every_tool_request_is_answered execute_tool items a :
  (∀ n name id input, ∃ res, execute_tool n name id input = ToolReturns res) →
  ∃ tool_response a',
    dispatch_tools execute_tool items [] a = (inr tool_response, a')
    ∧ length tool_response = length (tool_uses items)
    ∧ (∀ i id name input,
         tool_uses items !! i = Some (ToolUse id name input) →
         ∃ res, execute_tool (executions a + i) name id input = ToolReturns res
                ∧ tool_response !! i = Some (ToolResult res))
    ∧ executions a' = executions a + length (tool_uses items)
    ∧ messages a' = messages a.
Proof.
  intros Hreturns.
  destruct (dispatch_tools_in_order execute_tool items Hreturns [] a)
    as (results & a' & Hrun & Hrest).
  by exists results, a'.
Qed.

(** A response with a text and two requests, on tools that echo the name
    of the tool and the number of the execution. *)
Lemma every_tool_request_is_answered_witness :
  ∃ a',
    dispatch_tools (λ n name _ _, ToolReturns (JList [JStr name; JInt (Z.of_nat n)]))
      [Text "let me look"; ToolUse "t1" "read" JNull; ToolUse "t2" "list" JNull] []
      new_agent
    = (inr [ToolResult (JList [JStr "read"; JInt 0]);
            ToolResult (JList [JStr "list"; JInt 1])], a')
    ∧ executions a' = 2.
Proof.
  destruct (every_tool_request_is_answered
              (λ n name _ _, ToolReturns (JList [JStr name; JInt (Z.of_nat n)]))
              [Text "let me look"; ToolUse "t1" "read" JNull; ToolUse "t2" "list" JNull]
              new_agent) as (tool_response & a' & Hrun & Hlen & Hith & Hexec & _).
  - intros n name id input. by eexists.
  - exists a'. split; [|exact Hexec]. rewrite Hrun. do 2 f_equal.
    destruct (Hith 0 "t1" "read" JNull eq_refl) as (res0 & Hres0 & H0).
    destruct (Hith 1 "t2" "list" JNull eq_refl) as (res1 & Hres1 & H1).
    injection Hres0 as <-. injection Hres1 as <-.
    destruct tool_response as [|r0 [|r1 [|r2 rest]]]; try done.
    cbn in H0, H1. by injection H0 as ->; injection H1 as ->.
Defined.

(** X14. A failure of the completion endpoint after a tool round is
    reported as a failure of the tools. When the response asks for tools,
    every tool returns, and the completion call that follows raises an
    exception that is not retried, the exception that leaves the agent is
    a [ValueError] whose message starts with [Failed to execute tool: ] (or
    [Missing required tool use field: ] for a [KeyError]): the handlers
    around the dispatch also enclose the recursive [invoke]. *)
Theorem endpoint_failure_is_reported_as_tool_failure
    converse execute_tool fuel r a tool_response a2 e :
  stopReason r = "tool_use" →
  first_reasoning (content (output_message r)) ≠ Some None →
  dispatch_tools execute_tool (content (output_message r)) []
    (append_message (output_message r) a) = (inr tool_response, a2) →
  json_dumps_error tool_response = None →
  converse (completions a2) (messages a2 ++ [Message "user" tool_response]) = Fails e →
  is_transient e = false →
  _handle_response converse execute_tool (S (S (S fuel))) r a
  = (Raised (tool_dispatch_handler e),
     count_completion (append_message (Message "user" tool_response) a2)).
Proof.
  intros Hstop Hreasoning Hdispatch Hdumps Hfails Htransient.
  cbn [_handle_response]. rewrite Hstop.
  change (bool_decide ("tool_use" = "end_turn")) with false.
  change (bool_decide ("tool_use" = "stop_sequence")) with false.
  change (bool_decide ("tool_use" = "tool_use")) with true.
  cbn [orb]. rewrite Hdispatch. cbn [invoke]. rewrite Hdumps.
  cbn [converse_with_retry]. cbn [append_message completions messages].
  rewrite Hfails, Htransient.
  by destruct (first_reasoning (content (output_message r))) as [[?|]|].
Qed.

(** The tool returns, the endpoint then refuses the request. *)
Lemma endpoint_failure_is_reported_as_tool_failure_witness :
  let r := Response (Message "assistant" [ToolUse "t1" "read" JNull]) "tool_use" in
  (_handle_response (scripted [Fails (OtherException "ValidationException")])
     (λ _ _ _ _, ToolReturns (JStr "value")) 3 r new_agent).1
  = Raised (ValueError "Failed to execute tool: ValidationException").
Proof.
  intros r.
  rewrite (endpoint_failure_is_reported_as_tool_failure
             (scripted [Fails (OtherException "ValidationException")])
             (λ _ _ _ _, ToolReturns (JStr "value")) 0 r new_agent
             [ToolResult (JStr "value")]
             (count_execution (append_message (output_message r) new_agent))
             (OtherException "ValidationException")).
  - reflexivity.
  - reflexivity.
  - discriminate.
  - reflexivity.
  - reflexivity.
  - reflexivity.
  - reflexivity.
Defined.

End Transcript.

(** ** More on the step engine: marking, resuming and running a process

    [Step.execute], [ExecuteCode], [Task], the sequential [ForEach] and
    [Process.run] of [issue_processor/process_definitions.py]: what is
    marked as done and when, and what a second run does. *)

Module Resume.
Import PyStr Tool Interp Steps.
Local Open Scope engine_scope.

(** The key of the status of a step. *)
Definition status_key (id : string) (parent_id : option string) : string :=
  get_id id parent_id +:+ "_status".

(** What a read of the status returns in a world. *)
Definition status (id : string) (parent_id : option string) (w : world) : CallToolResult :=
  default [Some no_entry] (mem w !! status_key id parent_id).

(** The world once the step is marked. *)
Definition marked_done (id : string) (parent_id : option string) (w : world) : world :=
  {| mem := <[status_key id parent_id := [Some "done"]]> (mem w);
     calls := calls w ++ [WriteEntry (status_key id parent_id) [Some "done"]] |}.

Definition is_code_call (c : call) : bool :=
  match c with CodeCall _ => true | _ => false end.

(** The number of calls of work functions among the calls. *)
Definition code_calls (cs : list call) : nat := length (filter is_code_call cs).

(** [ForEach._get_iteration_id] *)
Definition _get_iteration_id (id : string) (parent_id : option string)
    (current_iteration_number : nat) : string :=
  get_id id parent_id +:+ "__" +:+ str_nat current_iteration_number.

(** The key of the status of an iteration. *)
Definition iteration_key (id : string) (parent_id : option string) (n : nat) : string :=
  _get_iteration_id id parent_id n +:+ "_iteration_status".

(** *** [Process.run] *)

(** The search of [run] for the function that reaches the memory: the
    [call_tool] of the first server that lists the tool
    [add_or_update_memory_entry]; [func] is the value of the variable
    before the loop goes on. A server is given by its [call_tool] and the
    names of its tools. *)
Fixpoint select_func {F : Type} (mcp_servers_tools : list (F * list string))
    (func : option F) : option F :=
  match mcp_servers_tools with
  | [] => func
  | (call_tool, tools_list) :: rest =>
      if bool_decide ("add_or_update_memory_entry" ∈ tools_list) then Some call_tool
      else select_func rest (Some call_tool)
  end.

Section Run.
Variable agent : agent_fn.
Variable gather : list (M unit) → M unit.

(** The loop [for input_variable in self.inputs.keys()]. *)
Fixpoint seed_inputs (inputs : list (string * option string)) : M unit :=
  match inputs with
  | [] => ret ()
  | (input_variable, value) :: rest =>
      do! add_or_update_memory_entry input_variable value in seed_inputs rest
  end.

(** The loop [for step in self.steps], from the number [i]. *)
Fixpoint run_steps (summary : list string) (profiles : list string)
    (steps : list Step) (i : nat) : M unit :=
  match steps with
  | [] => ret ()
  | step :: rest =>
      do! execute agent gather step
            {| summary := summary; prefix := str_nat i; profiles := profiles;
               overrwirte_contex_memory := ∅; parent_id := None |} in
      run_steps summary profiles rest (S i)
  end.

(** [Process.run], for a process whose memory function is that of the
    memory server: [entered] tells whether the connections to the servers
    were opened ([async with MCPClients(...)]), [summary] is
    [self.get_summary()]. The [try] has a bare [except]: whatever is raised
    inside is printed and dropped, and [run] returns. *)
Definition run (entered : bool) (summary : list string)
    (inputs : list (string * option string)) (steps : list Step)
    (profiles : list string) (w : world) : world :=
  if entered then
    ((do! seed_inputs inputs in run_steps summary profiles steps 1) w).2
  else w.

End Run.

(** *** Facts on calls *)

Lemma code_calls_app cs1 cs2 : code_calls (cs1 ++ cs2) = code_calls cs1 + code_calls cs2.
Proof. unfold code_calls. by rewrite filter_app, length_app. Qed.

Lemma code_calls_one c : code_calls [c] = if is_code_call c then 1 else 0.
Proof. by destruct c. Qed.

Lemma agent_calls_one c : agent_calls [c] = if is_agent_call c then 1 else 0.
Proof. by destruct c. Qed.

Lemma code_calls_consulted events : code_calls (consulted events) = 0.
Proof.
  unfold code_calls. induction events as [|e events IH]; [done|].
  by destruct e.
Qed.

Lemma interpolate_parameters_calls parameters ov :
  ∀ w, ∃ values reads,
    interpolate_parameters parameters ov w
    = (Ok values, {| mem := mem w; calls := calls w ++ reads |})
    ∧ code_calls reads = 0.
Proof.
  induction parameters as [|[key parameter] rest IH]; intros w.
  { exists [], []. rewrite app_nil_r. by destruct w. }
  cbn [interpolate_parameters]. unfold bind at 1. unfold interpolate at 1.
  set (w1 := {| mem := mem w; calls := _ |}).
  destruct (IH w1) as (values & reads & Hrest & Hcount).
  unfold bind at 1. rewrite Hrest. unfold ret.
  eexists _, _. split.
  - unfold w1. cbn [mem calls]. by rewrite <- (assoc_L (++)).
  - by rewrite code_calls_app, code_calls_consulted, Hcount.
Qed.

(** X15. A step is marked as done exactly when its body returns. For a
    step that is not skipped (it is not skippable, or its status does not
    read [done]): if [actual_execute] returns, [execute] writes [done]
    under the status key, and the next [execute] of a skippable step with
    that id returns at once, whatever its body is; if [actual_execute]
    raises, the exception leaves [execute] and nothing is written after
    it, so the status is what the body left. *)
Theorem step_is_marked_when_its_body_returns actual_execute id skip args w :
  skip && is_done (status id (parent_id args) w) = false →
  let read := record (ReadEntry (status_key id (parent_id args))) w in
  (∀ w1, actual_execute args read = (Ok (), w1) →
     execute_with actual_execute id skip args w
     = (Ok (), marked_done id (parent_id args) w1)
     ∧ ∀ other_actual_execute,
         execute_with other_actual_execute id true args (marked_done id (parent_id args) w1)
         = (Ok (), record (ReadEntry (status_key id (parent_id args)))
                     (marked_done id (parent_id args) w1)))
  ∧ (∀ e w1, actual_execute args read = (Err e, w1) →
       execute_with actual_execute id skip args w = (Err e, w1)).
Proof.
  intros Hskip read.
  assert (Hrun : execute_with actual_execute id skip args w
                 = match actual_execute args read with
                   | (Ok _, w1) => (Ok (), marked_done id (parent_id args) w1)
                   | (Err e, w1) => (Err e, w1)
                   end).
  { unfold execute_with, bind, read_memory_entry.
    fold (status_key id (parent_id args)). fold (status id (parent_id args) w).
    rewrite Hskip. fold read. by destruct (actual_execute args read) as [[[]|e] w1]. }
  split.
  - intros w1 Hbody. rewrite Hrun, Hbody. split; [done|].
    intros other. apply execute_with_done.
    unfold marked_done. cbn [mem]. apply lookup_insert_eq.
  - intros e w1 Hbody. by rewrite Hrun, Hbody.
Qed.

(** A task on an empty memory: the first [execute] asks the agent, the
    second one does not. *)
Lemma step_is_marked_when_its_body_returns_witness :
  let w := {| mem := ∅; calls := [] |} in
  let first := execute quiet_agent in_order (Task "s1" "first" "do it")
                 (top_level ["p0"] "1") w in
  first.1 = Ok ()
  ∧ execute quiet_agent in_order (Task "s1" "first" "do it") (top_level ["p0"] "1") first.2
    = (Ok (), record (ReadEntry "s1_status") first.2).
Proof.
  intros w first.
  destruct (step_is_marked_when_its_body_returns
              (actual_execute quiet_agent in_order (Task "s1" "first" "do it"))
              "s1" true (top_level ["p0"] "1") w) as [Hreturns _]; [reflexivity|].
  destruct (Hreturns
              (actual_execute quiet_agent in_order (Task "s1" "first" "do it")
                 (top_level ["p0"] "1") (record (ReadEntry "s1_status") w)).2)
    as [Hfirst Hsecond]; [vm_compute; reflexivity|].
  unfold first, execute. cbn [step_id skippable]. rewrite Hfirst.
  split; [reflexivity|]. apply Hsecond.
Defined.

(** X16. A step that is not skippable runs every time. An [ExecuteCode]
    step built without [skippable] (the default is [False]) calls its work
    function exactly once in every [execute], whatever the memory holds:
    the [done] it wrote the time before does not hold it back. *)
Theorem code_step_runs_every_time agent gather id code parameters args w :
  code_calls (calls (execute agent gather (ExecuteCode id code false parameters) args w).2)
  = code_calls (calls w) + 1.
Proof.
  unfold execute, execute_with. cbn [step_id skippable actual_execute].
  unfold bind at 1. unfold read_memory_entry at 1. cbn [andb].
  set (w0 := record _ w).
  assert (Hw0 : code_calls (calls w0) = code_calls (calls w)).
  { unfold w0, record. cbn [calls]. rewrite code_calls_app, code_calls_one.
    cbn [is_code_call]. lia. }
  assert (Hcode : ∀ values w1, code_calls (calls w1) = code_calls (calls w) →
            code_calls (calls ((do! run_code (get_id id (parent_id args)) code
                                      (overrwirte_contex_memory args) values in
                                add_or_update_memory_entry
                                  (get_id id (parent_id args) +:+ "_status") (Some "done"))
                               w1).2)
            = code_calls (calls w) + 1).
  { intros values w1 Hw1. unfold bind, run_code.
    destruct (code (overrwirte_contex_memory args) values (mem w1)) as [[[]|e] m];
      cbn [snd calls add_or_update_memory_entry];
      rewrite !code_calls_app, !code_calls_one, Hw1; cbn [is_code_call]; lia. }
  destruct parameters as [ps|]; [|by apply Hcode].
  destruct (interpolate_parameters_calls ps (overrwirte_contex_memory args) w0)
    as (values & reads & Hvalues & Hreads).
  unfold bind at 1. unfold bind at 1. rewrite Hvalues.
  match goal with
  | |- code_calls (calls (match ?x with _ => _ end).2) = _ =>
      change x with (run_code (get_id id (parent_id args)) code
                       (overrwirte_contex_memory args) values
                       {| mem := mem w0; calls := calls w0 ++ reads |})
  end.
  apply (Hcode values {| mem := mem w0; calls := calls w0 ++ reads |}).
  cbn [calls]. rewrite code_calls_app, Hreads, Hw0. lia.
Qed.

(** X17. A step that invokes an agent needs a profile. On an empty list of
    profiles a [Task] or a [ForEach] that is not yet done raises the
    [IndexError] of [profiles[0]] right after the read of its status:
    no agent is created, nothing is written, and the step is not marked. *)
Theorem step_without_profile_raises agent gather s args w :
  (∀ id code flag parameters, s ≠ ExecuteCode id code flag parameters) →
  profiles args = [] →
  is_done (status (step_id s) (parent_id args) w) = false →
  execute agent gather s args w
  = (Err "IndexError: list index out of range",
     record (ReadEntry (status_key (step_id s) (parent_id args))) w).
Proof.
  intros Hkind Hprofiles Hdone. unfold execute, execute_with, bind, read_memory_entry.
  fold (status_key (step_id s) (parent_id args)).
  fold (status (step_id s) (parent_id args) w). rewrite Hdone, andb_false_r.
  destruct s as [id line description|id code flag ps|id var expr f1 f2 body par].
  - cbn [actual_execute]. unfold bind. by rewrite Hprofiles.
  - by destruct (Hkind id code flag ps).
  - cbn [actual_execute]. unfold bind. by rewrite Hprofiles.
Qed.

Lemma step_without_profile_raises_witness :
  execute quiet_agent in_order (Task "s1" "first" "do it") (top_level [] "1")
    {| mem := ∅; calls := [] |}
  = (Err "IndexError: list index out of range",
     {| mem := ∅; calls := [ReadEntry "s1_status"] |}).
Proof.
  apply (step_without_profile_raises quiet_agent in_order (Task "s1" "first" "do it")
           (top_level [] "1") {| mem := ∅; calls := [] |}); done.
Defined.

(** *** Keys *)

Lemma str_app_inv_head p s t : p +:+ s = p +:+ t → s = t.
Proof. induction p as [|c p IH]; [done|]. rewrite !str_app_cons. intros [= H]. auto. Qed.

Lemma str_app_not_empty p c s : p +:+ String c s ≠ EmptyString.
Proof. by destruct p. Qed.

Lemma get_id_iteration sid id parent n :
  get_id sid (Some (_get_iteration_id id parent n))
  = _get_iteration_id id parent n +:+ "__" +:+ sid.
Proof.
  unfold _get_iteration_id. generalize (get_id id parent). intros p.
  unfold get_id. by destruct p.
Qed.

(** The decimal numerals. *)
Definition is_digit (c : ascii) : bool :=
  match c return bool with
  | ("0" | "1" | "2" | "3" | "4" | "5" | "6" | "7" | "8" | "9")%char => true
  | _ => false
  end.

Fixpoint all_digits (s : string) : bool :=
  match s with
  | EmptyString => true
  | String c s' => is_digit c && all_digits s'
  end.

Lemma all_digits_string_of_uint d : all_digits (NilEmpty.string_of_uint d) = true.
Proof. induction d; cbn [NilEmpty.string_of_uint all_digits]; by rewrite ?IHd. Qed.

Lemma all_digits_str_nat n : all_digits (str_nat n) = true.
Proof.
  unfold str_nat, NilZero.string_of_uint.
  destruct (Nat.to_uint n) eqn:Hd; try (rewrite <- Hd; apply all_digits_string_of_uint).
  done.
Qed.

Lemma to_uint_not_nil n : Nat.to_uint n ≠ Decimal.Nil.
Proof.
  rewrite <- (Unsigned.of_to n) at 1. rewrite Unsigned.to_of. apply unorm_nonnil.
Qed.

Lemma str_nat_inj n m : str_nat n = str_nat m → n = m.
Proof.
  unfold str_nat. intros H. apply Unsigned.to_uint_inj.
  pose proof (NilZero.usu _ (to_uint_not_nil n)) as Hn.
  pose proof (NilZero.usu _ (to_uint_not_nil m)) as Hm.
  rewrite H in Hn. congruence.
Qed.

(** A numeral followed by an underscore is read in one way only. *)
Lemma numeral_delimited a :
  ∀ b x y, all_digits a = true → all_digits b = true →
           a +:+ String "_" x = b +:+ String "_" y → a = b.
Proof.
  induction a as [|c a IH]; intros [|d b] x y Ha Hb H.
  - done.
  - rewrite str_app_nil_l, str_app_cons in H. injection H as <- _.
    cbn [all_digits] in Hb. by apply andb_true_iff in Hb as [? _].
  - rewrite str_app_nil_l, str_app_cons in H. injection H as -> _.
    cbn [all_digits] in Ha. by apply andb_true_iff in Ha as [? _].
  - rewrite !str_app_cons in H. injection H as -> H.
    cbn [all_digits] in Ha, Hb.
    apply andb_true_iff in Ha as [_ Ha]. apply andb_true_iff in Hb as [_ Hb].
    f_equal. by apply (IH b x y).
Qed.

(** X18. The iterations of a loop do not share keys. Every key made of the
    id of an iteration followed by an underscore (the status of the
    iteration, and the status and the response of every step of its body)
    belongs to that iteration only: for two different iteration numbers of
    the same loop no two such keys are equal, so what is recorded for one
    iteration never makes another one, or a step of another one, look
    done. *)
Theorem iterations_do_not_share_keys id parent n m :
  n ≠ m →
  (∀ x y, _get_iteration_id id parent n +:+ String "_" x
          ≠ _get_iteration_id id parent m +:+ String "_" y)
  ∧ iteration_key id parent n ≠ iteration_key id parent m
  ∧ (∀ sid sid', status_key sid (Some (_get_iteration_id id parent n))
                 ≠ status_key sid' (Some (_get_iteration_id id parent m))).
Proof.
  intros Hne.
  assert (Hkeys : ∀ x y, _get_iteration_id id parent n +:+ String "_" x
                         ≠ _get_iteration_id id parent m +:+ String "_" y).
  { intros x y H. unfold _get_iteration_id in H. rewrite !str_app_assoc in H.
    apply str_app_inv_head in H. rewrite !str_app_cons, !str_app_nil_l in H.
    injection H as H. apply Hne, str_nat_inj.
    apply (numeral_delimited _ _ x y); [apply all_digits_str_nat..|done]. }
  split; [done|]. split.
  - apply Hkeys.
  - intros sid sid'. unfold status_key.
    rewrite !get_id_iteration, !str_app_assoc. apply Hkeys.
Qed.

Lemma iterations_do_not_share_keys_witness :
  iteration_key "files" None 1 ≠ iteration_key "files" None 11
  ∧ status_key "1__check" (Some (_get_iteration_id "files" None 1))
    ≠ status_key "check" (Some (_get_iteration_id "files" None 11)).
Proof.
  destruct (iterations_do_not_share_keys "files" None 1 11) as (_ & Hiter & Hstep);
    [lia|].
  split; [exact Hiter|apply Hstep].
Defined.

(** *** Resuming a loop *)

Lemma process_iteration_done run_body id variable_name args item profile n w :
  is_done (default [Some no_entry] (mem w !! iteration_key id (parent_id args) n)) = true →
  _process_iteration run_body id variable_name args item profile n w
  = (Ok (), record (ReadEntry (iteration_key id (parent_id args) n)) w).
Proof.
  intros Hdone. unfold _process_iteration, bind, read_memory_entry.
  change (get_id id (parent_id args) +:+ "__" +:+ str_nat n)
    with (_get_iteration_id id (parent_id args) n).
  fold (iteration_key id (parent_id args) n). by rewrite Hdone.
Qed.

(** X19. A sequential loop resumes where it stopped. When the first
    iterations of the list are recorded as done, the loop only reads their
    status (the loop variable is not written for them and no step of the
    body is executed) and goes on with the first iteration that is not
    done, under its own number. *)
Theorem sequential_loop_resumes run_body id variable_name args profile finished rest :
  ∀ start w,
  (∀ i, i < length finished →
     is_done (default [Some no_entry]
                (mem w !! iteration_key id (parent_id args) (start + i))) = true) →
  for_each_item (λ item n, _process_iteration run_body id variable_name args item profile n)
    (finished ++ rest) start w
  = for_each_item (λ item n, _process_iteration run_body id variable_name args item profile n)
      rest (start + length finished)
      {| mem := mem w;
         calls := calls w ++ map (λ i, ReadEntry (iteration_key id (parent_id args) i))
                               (seq start (length finished)) |}.
Proof.
  induction finished as [|item finished IH]; intros start w Hdone.
  { cbn [app length seq map]. rewrite Nat.add_0_r, app_nil_r. by destruct w. }
  cbn [app for_each_item]. unfold bind at 1.
  rewrite process_iteration_done by (rewrite <- (Nat.add_0_r start); apply Hdone; cbn; lia).
  rewrite IH.
  - cbn [length seq map record mem calls]. rewrite <- (assoc_L (++)).
    by replace (S start + length finished) with (start + S (length finished)) by lia.
  - intros i Hi. cbn [record mem]. replace (S start + i) with (start + S i) by lia.
    apply Hdone. cbn. lia.
Qed.

(** A loop over three items of which the first two are done: the third
    one is the only one whose body runs. *)
Lemma sequential_loop_resumes_witness :
  let w := {| mem := {[ "files__1_iteration_status" := [Some "done"];
                        "files__2_iteration_status" := [Some "done"] ]};
              calls := [] |} in
  let body := λ (args : exec_args), add_or_update_memory_entry "ran" (Some "yes") in
  calls (for_each_item
           (λ item n, _process_iteration body "files" "file" (top_level ["p0"] "1")
                        item "p0" n)
           ([Some "a"; Some "b"] ++ [Some "c"]) 1 w).2
  = [ReadEntry "files__1_iteration_status"; ReadEntry "files__2_iteration_status";
     ReadEntry "files__3_iteration_status"; WriteEntry "file" [Some "c"];
     WriteEntry "ran" [Some "yes"];
     WriteEntry "files__3_iteration_status" [Some "done"]].
Proof.
  intros w body.
  rewrite (sequential_loop_resumes body "files" "file" (top_level ["p0"] "1") "p0"
             [Some "a"; Some "b"] [Some "c"] 1 w).
  - reflexivity.
  - intros i Hi. destruct i as [|[|i]]; [reflexivity..|cbn in Hi; lia].
Defined.

(** *** A task without response *)

Lemma status_is_not_response p : p +:+ "_status" ≠ p +:+ "_response".
Proof. intros H. by apply str_app_inv_head in H. Qed.

(** X20. A task is marked as done whatever its agent returns. When the
    agent returns (a text, or [None], which is what [invoke] returns after
    a [max_tokens] stop), the task stores the response and is marked as
    done, with one agent call. After a [None] the response entry holds no
    value: a later prompt that refers to it, as the second step of the
    issue process does with [${step1_response}], keeps the placeholder and
    logs a warning, and the step that produced nothing is not run again. *)
Theorem task_is_done_whatever_the_response
    agent gather id line description args w profile others response m :
  is_done (status id (parent_id args) w) = false →
  profiles args = profile :: others →
  let prompt :=
    replace_context_variables (memory_of (mem w)) (overrwirte_contex_memory args)
      (task_prompt (summary args) (prefix args) description) in
  agent profile prompt.1 (mem w) = (Ok response, m) →
  let response_key := get_id id (parent_id args) +:+ "_response" in
  let result := execute agent gather (Task id line description) args w in
  result.1 = Ok ()
  ∧ mem result.2
    = <[status_key id (parent_id args) := [Some "done"]]>
        (<[response_key := written response]> m)
  ∧ agent_calls (calls result.2) = agent_calls (calls w) + 1
  ∧ (response = None → has_char "}" response_key = false →
       replace_context_variables (memory_of (mem result.2)) ∅ (placeholder response_key)
       = (placeholder response_key, [Consulted response_key; Warning response_key])).
Proof.
  intros Hdone Hprofiles prompt Hagent response_key result.
  assert (Hrun : result
    = (Ok (),
       {| mem := <[status_key id (parent_id args) := [Some "done"]]>
                   (<[response_key := written response]> m);
          calls := ((((calls w ++ [ReadEntry (status_key id (parent_id args))])
                      ++ consulted prompt.2) ++ [AgentCall profile prompt.1])
                    ++ [WriteEntry response_key (written response)])
                   ++ [WriteEntry (status_key id (parent_id args)) [Some "done"]] |})).
  { unfold result, execute, execute_with, bind, read_memory_entry.
    cbn [step_id skippable actual_execute].
    fold (status_key id (parent_id args)). fold (status id (parent_id args) w).
    rewrite Hdone. cbn [andb]. unfold bind, first_profile. rewrite Hprofiles.
    unfold ret, interpolate, invoke_agent, record. cbn [mem calls fst snd].
    fold prompt. rewrite Hagent. reflexivity. }
  rewrite Hrun. cbn [fst snd mem calls]. split_and!.
  - done.
  - done.
  - rewrite !agent_calls_app, !agent_calls_one, agent_calls_consulted.
    cbn [is_agent_call]. lia.
  - intros -> Hbrace. unfold replace_context_variables.
    rewrite findall_vars_placeholder; [|apply str_app_not_empty|done].
    cbn [resolve_vars fold_left]. unfold resolve_var, memory_of.
    rewrite lookup_empty, lookup_insert_ne by apply status_is_not_response.
    by rewrite lookup_insert_eq.
Qed.

(** An agent that returns [None], on the first step of a process: the
    second step's reference to its response stays as it is. *)
Lemma task_is_done_whatever_the_response_witness :
  let silent : agent_fn := λ _ _ m, (Ok None, m) in
  let result := execute silent in_order (Task "step1" "first" "do it")
                  (top_level ["p0"] "1") {| mem := ∅; calls := [] |} in
  result.1 = Ok ()
  ∧ mem result.2 !! "step1_status" = Some [Some "done"]
  ∧ (replace_context_variables (memory_of (mem result.2)) ∅ "${step1_response}").1
    = "${step1_response}".
Proof.
  intros silent result.
  destruct (task_is_done_whatever_the_response silent in_order "step1" "first" "do it"
              (top_level ["p0"] "1") {| mem := ∅; calls := [] |} "p0" [] None ∅)
    as (Hok & Hmem & _ & Hprompt); [reflexivity..|].
  split; [exact Hok|]. split.
  - unfold result. rewrite Hmem. apply lookup_insert_eq.
  - exact (f_equal fst (Hprompt eq_refl eq_refl)).
Defined.

(** *** [Process.run] *)

Lemma select_func_unlisted {F : Type} (pre : list (F * list string)) :
  ∀ rest func,
    (∀ s, s ∈ pre → "add_or_update_memory_entry" ∉ s.2) →
    select_func (pre ++ rest) func
    = select_func rest (match last pre.*1 with Some f => Some f | None => func end).
Proof.
  induction pre as [|[f tools] pre IH]; intros rest func Hpre; [done|].
  cbn [app select_func]. rewrite bool_decide_eq_false_2 by (apply (Hpre (f, tools)); by left).
  rewrite IH by (intros s Hs; apply Hpre; by right).
  cbn [fmap list_fmap fst]. rewrite last_cons. by destruct (last _).
Qed.

Lemma select_func_some {F : Type} (servers : list (F * list string)) :
  ∀ f, ∃ g, select_func servers (Some f) = Some g.
Proof.
  induction servers as [|[g tools] rest IH]; intros f; [by exists f|].
  cbn [select_func]. case_bool_decide; [by exists g|apply IH].
Qed.

(** X21. The function [run] uses for the memory is the [call_tool] of the
    first server that lists the tool [add_or_update_memory_entry]. When no
    server lists it, [run] does not stop: it takes the [call_tool] of the
    last server and sends the memory calls there; only with no server at
    all is there no function to call. *)
Theorem memory_function_is_first_match {F : Type} (servers : list (F * list string)) :
  (∀ pre f tools post,
     servers = pre ++ (f, tools) :: post →
     "add_or_update_memory_entry" ∈ tools →
     (∀ s, s ∈ pre → "add_or_update_memory_entry" ∉ s.2) →
     select_func servers None = Some f)
  ∧ ((∀ s, s ∈ servers → "add_or_update_memory_entry" ∉ s.2) →
       select_func servers None = last servers.*1)
  ∧ (select_func servers None = None ↔ servers = []).
Proof.
  assert (Hnone : (∀ s, s ∈ servers → "add_or_update_memory_entry" ∉ s.2) →
            select_func servers None = last servers.*1).
  { intros Hall. rewrite <- (app_nil_r servers) at 1.
    rewrite select_func_unlisted by done. cbn [select_func]. by destruct (last _). }
  split_and!.
  - intros pre f tools post -> Hin Hpre.
    rewrite select_func_unlisted by done. cbn [select_func].
    by rewrite bool_decide_eq_true_2.
  - done.
  - split; [|by intros ->].
    destruct servers as [|[f tools] rest]; [done|]. cbn [select_func].
    case_bool_decide as Hin; [done|]. intros H.
    by destruct (select_func_some rest f) as [g Hg]; rewrite Hg in H.
Qed.

Lemma agent_calls_map {A : Type} (f : A → call) (l : list A) :
  (∀ x, is_agent_call (f x) = false) → agent_calls (map f l) = 0.
Proof.
  intros Hf. induction l as [|x l IH]; [done|].
  change (map f (x :: l)) with ([f x] ++ map f l).
  by rewrite agent_calls_app, agent_calls_one, Hf, IH.
Qed.

Lemma code_calls_map {A : Type} (f : A → call) (l : list A) :
  (∀ x, is_code_call (f x) = false) → code_calls (map f l) = 0.
Proof.
  intros Hf. induction l as [|x l IH]; [done|].
  change (map f (x :: l)) with ([f x] ++ map f l).
  by rewrite code_calls_app, code_calls_one, Hf, IH.
Qed.

Lemma seed_inputs_writes inputs :
  ∀ w, seed_inputs inputs w
       = (Ok (), {| mem := foldl (λ m input, <[input.1 := written input.2]> m) (mem w) inputs;
                    calls := calls w ++ map (λ input, WriteEntry input.1 (written input.2))
                                          inputs |}).
Proof.
  induction inputs as [|[key value] rest IH]; intros w.
  { cbn. rewrite app_nil_r. by destruct w. }
  cbn [seed_inputs]. unfold bind, add_or_update_memory_entry. rewrite IH.
  cbn [mem calls foldl map fst snd]. by rewrite <- (assoc_L (++)).
Qed.

Lemma seeded_lookup inputs key :
  key ∉ inputs.*1 →
  ∀ m : memory_view,
    foldl (λ m input, <[input.1 := written input.2]> m) m inputs !! key = m !! key.
Proof.
  induction inputs as [|[k v] rest IH]; intros Hkey m; [done|].
  cbn [fmap list_fmap fst] in Hkey. apply not_elem_of_cons in Hkey as [Hne Hkey].
  cbn [foldl fst snd]. rewrite IH by done. by rewrite lookup_insert_ne.
Qed.

Lemma run_steps_done agent gather summary profiles steps :
  ∀ i w,
    (∀ s, s ∈ steps → skippable s = true
                      ∧ mem w !! status_key (step_id s) None = Some [Some "done"]) →
    run_steps agent gather summary profiles steps i w
    = (Ok (), {| mem := mem w;
                 calls := calls w ++ map (λ s, ReadEntry (status_key (step_id s) None))
                                       steps |}).
Proof.
  induction steps as [|s rest IH]; intros i w Hdone.
  { cbn. rewrite app_nil_r. by destruct w. }
  destruct (Hdone s) as [Hskip Hstatus]; [left|].
  cbn [run_steps]. unfold bind, execute. rewrite Hskip.
  rewrite execute_with_done by done. rewrite IH.
  - cbn [record mem calls map parent_id]. by rewrite <- (assoc_L (++)).
  - intros s' Hs'. apply Hdone. by right.
Qed.

(** X22. Running again a process that is finished calls no agent and no
    work function. When the memory shows every step of the process as
    done, the steps are skippable, and no input of the process is named as
    a status key, [run] writes the inputs again, reads the status of each
    step, in order, and does nothing else: the memory is what it was, with
    the inputs set to the values of the process. *)
Theorem finished_process_is_not_run_again
    agent gather summary inputs steps profiles w :
  (∀ s, s ∈ steps →
     skippable s = true
     ∧ mem w !! status_key (step_id s) None = Some [Some "done"]
     ∧ status_key (step_id s) None ∉ inputs.*1) →
  let w' := run agent gather true summary inputs steps profiles w in
  mem w' = foldl (λ m input, <[input.1 := written input.2]> m) (mem w) inputs
  ∧ calls w' = calls w ++ map (λ input, WriteEntry input.1 (written input.2)) inputs
                       ++ map (λ s, ReadEntry (status_key (step_id s) None)) steps
  ∧ agent_calls (calls w') = agent_calls (calls w)
  ∧ code_calls (calls w') = code_calls (calls w).
Proof.
  intros Hdone w'.
  assert (Hrun : w' = {| mem := foldl (λ m input, <[input.1 := written input.2]> m)
                                  (mem w) inputs;
                         calls := (calls w
                                   ++ map (λ input, WriteEntry input.1 (written input.2)) inputs)
                                  ++ map (λ s, ReadEntry (status_key (step_id s) None)) steps |}).
  { unfold w', run, bind. rewrite seed_inputs_writes, run_steps_done; [done|].
    intros s Hs. destruct (Hdone s Hs) as (Hskip & Hstatus & Hfresh).
    split; [done|]. cbn [mem]. by rewrite seeded_lookup. }
  rewrite Hrun. cbn [mem calls]. split_and!.
  - done.
  - by rewrite <- (assoc_L (++)).
  - rewrite !agent_calls_app, !agent_calls_map by done. lia.
  - rewrite !code_calls_app, !code_calls_map by done. lia.
Qed.

(** The issue process (two tasks, three inputs) on the memory a complete
    run leaves. *)
Lemma finished_process_is_not_run_again_witness :
  let w := {| mem := {[ "step1_status" := [Some "done"]; "step2_status" := [Some "done"] ]};
              calls := [] |} in
  calls (run quiet_agent in_order true ["overview"]
           [("cdk_app_root_path", Some "/app/gh_issues"); ("issue_id", Some "42")]
           [Task "step1" "create" "create the app"; Task "step2" "verify" "verify the app"]
           ["role"] w)
  = [WriteEntry "cdk_app_root_path" [Some "/app/gh_issues"]; WriteEntry "issue_id" [Some "42"];
     ReadEntry "step1_status"; ReadEntry "step2_status"].
Proof.
  intros w.
  destruct (finished_process_is_not_run_again quiet_agent in_order ["overview"]
              [("cdk_app_root_path", Some "/app/gh_issues"); ("issue_id", Some "42")]
              [Task "step1" "create" "create the app"; Task "step2" "verify" "verify the app"]
              ["role"] w) as (_ & Hcalls & _).
  - intros s Hs.
    apply elem_of_cons in Hs as [->|Hs]; [|apply elem_of_cons in Hs as [->|Hs]].
    + split_and!; [reflexivity..|]. cbn. intros H.
      apply elem_of_cons in H as [[=]|H]. apply elem_of_cons in H as [[=]|H].
      by apply elem_of_nil in H.
    + split_and!; [reflexivity..|]. cbn. intros H.
      apply elem_of_cons in H as [[=]|H]. apply elem_of_cons in H as [[=]|H].
      by apply elem_of_nil in H.
    + by apply elem_of_nil in Hs.
  - exact Hcalls.
Defined.

End Resume.

(** ** The worker around the engine

    [ecs_task/index.py] ([acquire_account_with_retries], [process_issue])
    and the entry of [issue_processor/processor.py]
    ([_retrieve_issue_type], [process]): which issues are worked on, and
    what happens to the account and to the queue message on every path. *)

Module Worker.

(** *** The type of an issue ([processor.py]) *)

Inductive IssueType : Type :=
  | BUG
  | FEATURE_REQUEST
  | BOTH_BUG_AND_FEATURE_REQUEST.

Definition BUG_LABEL : string := "bug".
Definition FEATURE_REQUEST_LABEL : string := "feature-request".

(** [_retrieve_issue_type], on the names of the labels of the issue. *)
Definition _retrieve_issue_type (all_labels : list string) : IssueType :=
  let is_bug := bool_decide (BUG_LABEL ∈ all_labels) in
  let is_feature := bool_decide (FEATURE_REQUEST_LABEL ∈ all_labels) in
  if is_bug && is_feature then BOTH_BUG_AND_FEATURE_REQUEST
  else if is_bug then BUG else FEATURE_REQUEST.

(** How a call of [process] ends: it returns, it raises an [Exception], or
    it leaves through [sys.exit] ([SystemExit] is not an [Exception]). *)
Inductive process_outcome : Type :=
  | ProcessReturns
  | ProcessRaises (e : string)
  | ProcessExits (code : nat).

(** [process], as a function of the answer of the GitHub API to the request
    for the issue (status code and label names): [retrieve_github_issue]
    raises on a status that is not 200. For an issue that is not a [BUG]
    the first statement of the branch is [logger.info(...)]: the module
    imports [logging] and binds no name [logger], so the statement raises
    [NameError], and the [sys.exit(0)] two lines below is not reached.
    [Process.run] returns whatever happens inside it (its [except] has no
    class); the second component tells whether [Process.run] was called. *)
Definition process (status_code : nat) (all_labels : list string) : process_outcome * bool :=
  if negb (Nat.eqb status_code 200) then (ProcessRaises "Failed to fetch issue", false)
  else match _retrieve_issue_type all_labels with
       | BUG => (ProcessReturns, true)
       | _ => (ProcessRaises "name 'logger' is not defined", false)
       end.

(** *** Acquiring an account ([index.py]) *)

Definition MAX_ACCOUNT_ACQUIRE_RETRIES : nat := 60.
Definition ACCOUNT_ACQUIRE_RETRY_DELAY_BASE : nat := 10.
Definition ACCOUNT_ACQUIRE_RETRY_DELAY_MAX : nat := 60.

(** The truth value of a string that may be [None]. *)
Definition truthy (s : option string) : bool :=
  match s with
  | Some (String _ _) => true
  | _ => false
  end.

(** What the worker does to the outside, in order. [Sleep delay n] is
    [time.sleep(delay * (0.5 + random.random()))] for the [n]-th random
    number: [delay] is the delay before the jitter. *)
Inductive event : Type :=
  | ListQueueTags
  | AcquireAccount (task_id : string)
  | Sleep (delay : nat) (draw : nat)
  | RunProcess (issue_number : nat) (repo_name : string) (role_arn : string)
  | Upload (issue_number : nat)
  | Comment (issue_number : nat) (result_url : string)
  | DeleteMessage (receipt_handle : option string)
  | ReleaseAccount (account_id task_id : string).

(** [min(BASE * (2 ** (retries // 3)), MAX)] *)
Definition backoff (retries : nat) : nat :=
  Nat.min (ACCOUNT_ACQUIRE_RETRY_DELAY_BASE * 2 ^ (retries / 3))
          ACCOUNT_ACQUIRE_RETRY_DELAY_MAX.

Section Services.
(** [acquire_account(task_id)], for the call number [n]: the account id,
    the role and the success flag. *)
Variable acquire_account : nat → string → option string * option string * bool.

(** The loop [while retries < MAX_ACCOUNT_ACQUIRE_RETRIES]; [budget] is
    [MAX_ACCOUNT_ACQUIRE_RETRIES - retries]. *)
Fixpoint acquire_loop (budget retries : nat) (task_id : string) (trace : list event)
  : (option string * option string * option string) * list event :=
  match budget with
  | O => ((None, None, None), trace)
  | S budget' =>
      let '(account_id, role_arn, success) := acquire_account retries task_id in
      let trace1 := trace ++ [AcquireAccount task_id] in
      if success && truthy account_id && truthy role_arn
      then ((account_id, role_arn, Some task_id), trace1)
      else
        let retries' := S retries in
        acquire_loop budget' retries' task_id (trace1 ++ [Sleep (backoff retries') retries])
  end.

(** [acquire_account_with_retries]; [task_id] is [str(uuid.uuid4())]. *)
Definition acquire_account_with_retries (task_id : string)
  : (option string * option string * option string) * list event :=
  acquire_loop MAX_ACCOUNT_ACQUIRE_RETRIES 0 task_id [].

(** The other services: each of the helpers catches its exceptions and
    answers with a value. *)
Variable run_process : nat → string → string → process_outcome.
Variable upload_result_to_s3 : nat → string → option string.
Variable add_github_comment : string → nat → string → bool.
Variable delete_message : option string → bool.

(** The queue message: [message.get('issue_number')] and
    [message.get('repository')]. *)
Record message : Type := Message {
  issue_number : option nat;
  repository : option string;
}.

(** How [process_issue] ends: it returns a flag, or the [SystemExit] of
    [process] goes through it. *)
Inductive outcome : Type :=
  | Returns (success : bool)
  | Exits (code : nat).

(** The body of the inner [try]: the process, the upload, the comment and
    the deletion of the message. An [Exception] of [process] is raised
    again and reaches the outer [except], which returns [False]. *)
Definition handle_issue (number : nat) (repo_name role_arn : string)
    (receipt_handle : option string) : outcome * list event :=
  let trace := [RunProcess number repo_name role_arn] in
  match run_process number repo_name role_arn with
  | ProcessRaises _ => (Returns false, trace)
  | ProcessExits code => (Exits code, trace)
  | ProcessReturns =>
      let result_url := upload_result_to_s3 number repo_name in
      let trace := trace ++ [Upload number] in
      match result_url with
      | Some (String c url) =>
          let trace := trace ++ [Comment number (String c url)] in
          if add_github_comment repo_name number (String c url) then
            (Returns (delete_message receipt_handle),
             trace ++ [DeleteMessage receipt_handle])
          else (Returns false, trace)
      | _ => (Returns false, trace)
      end
  end.

(** [process_issue] *)
Definition process_issue (task_id : string) (m : message) (receipt_handle : option string)
  : outcome * list event :=
  let trace := [ListQueueTags] in
  match repository m, issue_number m with
  | Some (String c repo), Some (S n) =>
      let repo_name := String c repo in
      let '((account_id, role_arn, task), trace1) := acquire_account_with_retries task_id in
      match account_id, role_arn with
      | Some (String a account), Some (String r role) =>
          let '(result, trace2) :=
            handle_issue (S n) repo_name (String r role) receipt_handle in
          (* finally: if account_id and task_id: release_account(...) *)
          (result,
           trace ++ trace1 ++ trace2
           ++ match task with
              | Some (String t id) => [ReleaseAccount (String a account) (String t id)]
              | _ => []
              end)
      | _, _ => (Returns false, trace ++ trace1)
      end
  | _, _ => (Returns false, trace)
  end.

End Services.

(** *** The loop for an account *)

(** The attempts that fail, from the call number [from]: each is a call
    followed by a sleep. *)
Definition attempts (task_id : string) (from k : nat) : list event :=
  flat_map (λ i, [AcquireAccount task_id; Sleep (backoff (S i)) i]) (seq from k).

(** The seconds slept, before the jitter. *)
Definition slept (trace : list event) : nat :=
  list_sum (omap (λ e, match e with Sleep delay _ => Some delay | _ => None end) trace).

Definition is_release (e : event) : bool :=
  match e with ReleaseAccount _ _ => true | _ => false end.

Definition is_deletion (e : event) : bool :=
  match e with DeleteMessage _ => true | _ => false end.

Definition is_run (e : event) : bool :=
  match e with RunProcess _ _ _ => true | _ => false end.

(** The events that follow a process that returned. *)
Definition is_result (e : event) : bool :=
  match e with Upload _ | Comment _ _ | DeleteMessage _ => true | _ => false end.

(** The events before the process: the queue tags and the wait for an
    account. *)
Definition is_wait (e : event) : bool :=
  match e with ListQueueTags | AcquireAccount _ | Sleep _ _ => true | _ => false end.

(** An attempt that does not give an account. *)
Definition fails (answer : option string * option string * bool) : Prop :=
  answer.2 && truthy answer.1.1 && truthy answer.1.2 = false.

Lemma attempts_S task_id from k :
  attempts task_id from (S k)
  = [AcquireAccount task_id; Sleep (backoff (S from)) from] ++ attempts task_id (S from) k.
Proof. reflexivity. Qed.

Lemma acquire_loop_fails acquire_account task_id k :
  ∀ budget retries trace,
    (∀ i, i < k → fails (acquire_account (retries + i) task_id)) →
    acquire_loop acquire_account (k + budget) retries task_id trace
    = acquire_loop acquire_account budget (retries + k) task_id
        (trace ++ attempts task_id retries k).
Proof.
  induction k as [|k IH]; intros budget retries trace Hfail.
  { cbn [Nat.add]. by rewrite Nat.add_0_r, app_nil_r. }
  pose proof (Hfail 0 ltac:(lia)) as H0. rewrite Nat.add_0_r in H0. unfold fails in H0.
  cbn [Nat.add acquire_loop].
  destruct (acquire_account retries task_id) as [[account role] success].
  cbn [fst snd] in H0. rewrite H0, IH.
  - rewrite attempts_S, <- !(assoc_L (++)). by rewrite Nat.add_succ_r.
  - intros i Hi. replace (S retries + i) with (retries + S i) by lia. apply Hfail. lia.
Qed.

Lemma backoff_cap n : 9 ≤ n → backoff n = 60.
Proof.
  intros Hn. unfold backoff, ACCOUNT_ACQUIRE_RETRY_DELAY_BASE, ACCOUNT_ACQUIRE_RETRY_DELAY_MAX.
  apply Nat.min_r.
  assert (H3 : 3 ≤ n / 3) by (apply (Nat.Div0.div_le_mono 9 n 3) in Hn; exact Hn).
  pose proof (Nat.pow_le_mono_r 2 3 (n / 3) ltac:(lia) H3) as Hp.
  change (2 ^ 3) with 8 in Hp. lia.
Qed.

Lemma backoff_bounds n : 10 ≤ backoff n ≤ 60.
Proof.
  unfold backoff, ACCOUNT_ACQUIRE_RETRY_DELAY_BASE, ACCOUNT_ACQUIRE_RETRY_DELAY_MAX.
  pose proof (Nat.pow_le_mono_r 2 0 (n / 3) ltac:(lia) ltac:(lia)) as Hp.
  change (2 ^ 0) with 1 in Hp. lia.
Qed.

Lemma backoff_mono n m : n ≤ m → backoff n ≤ backoff m.
Proof.
  intros Hnm. unfold backoff. apply Nat.min_le_compat_r, Nat.mul_le_mono_l.
  apply Nat.pow_le_mono_r; [lia|]. by apply Nat.Div0.div_le_mono.
Qed.

Lemma slept_app t1 t2 : slept (t1 ++ t2) = slept t1 + slept t2.
Proof. unfold slept. by rewrite omap_app, list_sum_app. Qed.

Lemma slept_attempts_capped task_id k :
  ∀ from, 8 ≤ from → slept (attempts task_id from k) = 60 * k.
Proof.
  induction k as [|k IH]; intros from Hfrom; [done|].
  rewrite attempts_S, slept_app, IH by lia.
  unfold slept at 1. cbn [omap list_omap list_sum fold_right].
  rewrite backoff_cap by lia. lia.
Qed.

Lemma acquire_loop_succeeds acquire_account task_id k account role :
  k < MAX_ACCOUNT_ACQUIRE_RETRIES →
  (∀ i, i < k → fails (acquire_account i task_id)) →
  acquire_account k task_id = (account, role, true) →
  truthy account = true → truthy role = true →
  acquire_account_with_retries acquire_account task_id
  = ((account, role, Some task_id),
     attempts task_id 0 k ++ [AcquireAccount task_id]).
Proof.
  intros Hk Hfail Hok Haccount Hrole. unfold acquire_account_with_retries.
  replace MAX_ACCOUNT_ACQUIRE_RETRIES
    with (k + S (MAX_ACCOUNT_ACQUIRE_RETRIES - S k)) by lia.
  rewrite acquire_loop_fails by done.
  cbn [Nat.add acquire_loop app]. by rewrite Hok, Haccount, Hrole.
Qed.

(** X23. The worker takes the first account it is offered. When the
    calls of [acquire_account] fail [k] times ([k] below 60) and then
    answer with an account and a role, [acquire_account_with_retries]
    returns that account, that role and the task id, after [k + 1] calls and
    [k] sleeps; it makes no call after the one that succeeds. *)
Theorem first_offered_account_is_taken acquire_account task_id k account role :
  k < MAX_ACCOUNT_ACQUIRE_RETRIES →
  (∀ i, i < k → fails (acquire_account i task_id)) →
  acquire_account k task_id = (account, role, true) →
  truthy account = true → truthy role = true →
  acquire_account_with_retries acquire_account task_id
  = ((account, role, Some task_id),
     attempts task_id 0 k ++ [AcquireAccount task_id]).
Proof. apply acquire_loop_succeeds. Qed.

(** Two refusals, then an account. *)
Lemma first_offered_account_is_taken_witness :
  acquire_account_with_retries
    (λ n _, if Nat.ltb n 2 then (None, None, false) else (Some "111", Some "arn:role", true))
    "task"
  = ((Some "111", Some "arn:role", Some "task"),
     [AcquireAccount "task"; Sleep 10 0; AcquireAccount "task"; Sleep 10 1;
      AcquireAccount "task"]).
Proof.
  apply (first_offered_account_is_taken
           (λ n _, if Nat.ltb n 2 then (None, None, false) else (Some "111", Some "arn:role", true))
           "task" 2 (Some "111") (Some "arn:role")).
  - unfold MAX_ACCOUNT_ACQUIRE_RETRIES. lia.
  - intros i Hi. destruct i as [|[|i]]; [reflexivity..|lia].
  - reflexivity.
  - reflexivity.
  - reflexivity.
Defined.

(** X24. The worker gives up after sixty attempts. When no call gives an
    account, [acquire_account_with_retries] returns no account after
    exactly 60 calls, each followed by a sleep (also the last one). The
    delay before the jitter is between 10 and 60 seconds, never goes down
    from one retry to the next, is 60 seconds from the ninth retry on, and
    adds up to 3320 seconds over the sixty retries. *)
Theorem worker_gives_up_after_sixty_attempts acquire_account task_id :
  (∀ i, i < MAX_ACCOUNT_ACQUIRE_RETRIES → fails (acquire_account i task_id)) →
  acquire_account_with_retries acquire_account task_id
  = ((None, None, None), attempts task_id 0 MAX_ACCOUNT_ACQUIRE_RETRIES)
  ∧ length (attempts task_id 0 MAX_ACCOUNT_ACQUIRE_RETRIES) = 2 * 60
  ∧ slept (attempts task_id 0 MAX_ACCOUNT_ACQUIRE_RETRIES) = 3320
  ∧ (∀ retries, 10 ≤ backoff retries ≤ 60)
  ∧ (∀ n m, n ≤ m → backoff n ≤ backoff m)
  ∧ (∀ retries, 9 ≤ retries → backoff retries = 60).
Proof.
  intros Hfail. split_and!.
  - unfold acquire_account_with_retries.
    rewrite <- (Nat.add_0_r MAX_ACCOUNT_ACQUIRE_RETRIES) at 1.
    by rewrite acquire_loop_fails.
  - unfold attempts. rewrite (flat_map_constant_length (c := 2)) by done.
    by rewrite length_seq.
  - change MAX_ACCOUNT_ACQUIRE_RETRIES with (8 + 52). unfold attempts.
    rewrite seq_app, flat_map_app. fold (attempts task_id 0 8).
    fold (attempts task_id (0 + 8) 52).
    rewrite slept_app, (slept_attempts_capped task_id 52 (0 + 8)) by (cbn; lia).
    reflexivity.
  - apply backoff_bounds.
  - apply backoff_mono.
  - apply backoff_cap.
Qed.

Lemma worker_gives_up_after_sixty_attempts_witness :
  (acquire_account_with_retries (λ _ _, (None, None, false)) "task").1 = (None, None, None)
  ∧ slept (acquire_account_with_retries (λ _ _, (None, None, false)) "task").2 = 3320.
Proof.
  destruct (worker_gives_up_after_sixty_attempts (λ _ _, (None, None, false)) "task")
    as (Hrun & _ & Hslept & _); [done|].
  rewrite Hrun. split; [reflexivity|exact Hslept].
Defined.

(** *** The account and the message *)

Section Paths.
Variable acquire_account : nat → string → option string * option string * bool.
Variable run_process : nat → string → string → process_outcome.
Variable upload_result_to_s3 : nat → string → option string.
Variable add_github_comment : string → nat → string → bool.
Variable delete_message : option string → bool.

Lemma acquire_loop_events budget :
  ∀ retries task_id trace,
    Forall (λ e, is_wait e = true) trace →
    Forall (λ e, is_wait e = true)
      (acquire_loop acquire_account budget retries task_id trace).2.
Proof.
  induction budget as [|budget IH]; intros retries task_id trace Htrace; [done|].
  cbn [acquire_loop].
  destruct (acquire_account retries task_id) as [[account role] success].
  destruct (success && truthy account && truthy role).
  - cbn [snd]. apply Forall_app. split; [done|]. by apply Forall_singleton.
  - apply IH. rewrite !Forall_app. split_and!; [done|..]; by apply Forall_singleton.
Qed.

(** The paths of the inner [try]. *)
Lemma handle_issue_paths number repo_name role_arn receipt_handle :
  let run := handle_issue run_process upload_result_to_s3 add_github_comment delete_message
               number repo_name role_arn receipt_handle in
  Forall (λ e, is_release e = false) run.2
  ∧ (∀ r, DeleteMessage r ∈ run.2 →
       r = receipt_handle
       ∧ run.1 = Returns (delete_message receipt_handle)
       ∧ run_process number repo_name role_arn = ProcessReturns
       ∧ ∃ url, url ≠ EmptyString
                ∧ upload_result_to_s3 number repo_name = Some url
                ∧ add_github_comment repo_name number url = true
                ∧ Comment number url ∈ run.2)
  ∧ (run.1 = Returns true → DeleteMessage receipt_handle ∈ run.2)
  ∧ (∀ code, run.1 = Exits code →
       run_process number repo_name role_arn = ProcessExits code
       ∧ run.2 = [RunProcess number repo_name role_arn]).
Proof.
  intros run. unfold run, handle_issue.
  destruct (run_process number repo_name role_arn) as [|e|code]; cbn [fst snd].
  - destruct (upload_result_to_s3 number repo_name) as [[|c url]|] eqn:Hurl; cbn [fst snd].
    + split_and!; [by repeat constructor| | |]; try done.
      intros r Hr. repeat (apply elem_of_cons in Hr as [[=]|Hr]). by apply elem_of_nil in Hr.
    + destruct (add_github_comment repo_name number (String c url)) eqn:Hcomment;
        cbn [fst snd app].
      * split_and!; [by repeat constructor| | |]; try done.
        -- intros r Hr. repeat (apply elem_of_cons in Hr as [Heq|Hr]); try done.
           ++ injection Heq as ->. split_and!; try done.
              exists (String c url). split_and!; try done.
              apply elem_of_cons. right. apply elem_of_cons. right. apply elem_of_cons. by left.
           ++ by apply elem_of_nil in Hr.
        -- intros _. do 3 (apply elem_of_cons; right). apply elem_of_cons. by left.
      * split_and!; [by repeat constructor| | |]; try done.
        intros r Hr. repeat (apply elem_of_cons in Hr as [[=]|Hr]). by apply elem_of_nil in Hr.
    + split_and!; [by repeat constructor| | |]; try done.
      intros r Hr. repeat (apply elem_of_cons in Hr as [[=]|Hr]). by apply elem_of_nil in Hr.
  - split_and!; [by repeat constructor| | |]; try done.
    intros r Hr. repeat (apply elem_of_cons in Hr as [[=]|Hr]). by apply elem_of_nil in Hr.
  - split_and!; [by repeat constructor| | |]; try done.
    + intros r Hr. repeat (apply elem_of_cons in Hr as [[=]|Hr]). by apply elem_of_nil in Hr.
    + by intros c [= ->].
Qed.

Lemma handle_issue_runs number repo_name role_arn receipt_handle :
  ∃ rest, (handle_issue run_process upload_result_to_s3 add_github_comment delete_message
             number repo_name role_arn receipt_handle).2
          = RunProcess number repo_name role_arn :: rest.
Proof.
  unfold handle_issue.
  destruct (run_process number repo_name role_arn); [|by eexists..].
  destruct (upload_result_to_s3 number repo_name) as [[|c url]|]; [by eexists| |by eexists].
  destruct (add_github_comment repo_name number (String c url)); by eexists.
Qed.

(** What the loop returns: nothing, or what one of its calls gave. *)
Lemma acquire_loop_result budget :
  ∀ retries task_id trace,
    (acquire_loop acquire_account budget retries task_id trace).1 = (None, None, None)
    ∨ ∃ n account role,
        retries ≤ n < retries + budget
        ∧ acquire_account n task_id = (account, role, true)
        ∧ truthy account = true ∧ truthy role = true
        ∧ (acquire_loop acquire_account budget retries task_id trace).1
          = (account, role, Some task_id).
Proof.
  induction budget as [|budget IH]; intros retries task_id trace; [by left|].
  cbn [acquire_loop].
  destruct (acquire_account retries task_id) as [[account role] success] eqn:Hcall.
  destruct (success && truthy account && truthy role) eqn:Hok.
  - right. apply andb_prop in Hok as [Hok Hrole]. apply andb_prop in Hok as [-> Haccount].
    exists retries, account, role. split_and!; try done; lia.
  - destruct (IH (S retries) task_id
                (((trace ++ [AcquireAccount task_id]) ++ [Sleep (backoff (S retries)) retries])))
      as [Hnone|(n & a & r & Hn & Hrest)]; [by left|].
    right. exists n, a, r. split; [lia|done].
Qed.

(** The events of [process_issue] on a message with a repository and an
    issue number, once an account is there. *)
Lemma process_issue_with_account task_id m receipt_handle c repo n a account r role trace1 :
  repository m = Some (String c repo) → issue_number m = Some (S n) →
  acquire_account_with_retries acquire_account task_id
  = ((Some (String a account), Some (String r role), Some task_id), trace1) →
  process_issue acquire_account run_process upload_result_to_s3 add_github_comment
    delete_message task_id m receipt_handle
  = let run := handle_issue run_process upload_result_to_s3 add_github_comment
                 delete_message (S n) (String c repo) (String r role) receipt_handle in
    (run.1,
     [ListQueueTags] ++ trace1 ++ run.2
     ++ match task_id with
        | String _ _ => [ReleaseAccount (String a account) task_id]
        | EmptyString => []
        end).
Proof.
  intros Hrepo Hnumber Hacquire. unfold process_issue. rewrite Hrepo, Hnumber, Hacquire.
  destruct (handle_issue _ _ _ _ _ _ _ _) as [result trace2]. cbn [fst snd].
  by destruct task_id.
Qed.

(** The cases of [process_issue]: the message is refused, no account is
    there, or the issue is handled with the account of one of the calls. *)
Lemma process_issue_cases task_id m receipt_handle :
  let run := process_issue acquire_account run_process upload_result_to_s3
               add_github_comment delete_message task_id m receipt_handle in
  (run.1 = Returns false
   ∧ Forall (λ e, is_wait e = true) run.2)
  ∨ ∃ c repo n a account r role k trace1,
      repository m = Some (String c repo) ∧ issue_number m = Some (S n)
      ∧ k < MAX_ACCOUNT_ACQUIRE_RETRIES
      ∧ acquire_account k task_id = (Some (String a account), Some (String r role), true)
      ∧ acquire_account_with_retries acquire_account task_id
        = ((Some (String a account), Some (String r role), Some task_id), trace1)
      ∧ Forall (λ e, is_wait e = true) trace1.
Proof.
  intros run. unfold run.
  pose proof (acquire_loop_events MAX_ACCOUNT_ACQUIRE_RETRIES 0 task_id []
                ltac:(constructor)) as Hevents.
  fold (acquire_account_with_retries acquire_account task_id) in Hevents.
  destruct (acquire_loop_result MAX_ACCOUNT_ACQUIRE_RETRIES 0 task_id [])
    as [Hnone|(k & account & role & Hk & Hcall & Haccount & Hrole & Hfound)];
    fold (acquire_account_with_retries acquire_account task_id) in *.
  - left. unfold process_issue.
    destruct (repository m) as [[|c repo]|]; [by repeat constructor| |by repeat constructor].
    destruct (issue_number m) as [[|n]|]; [by repeat constructor| |by repeat constructor].
    destruct (acquire_account_with_retries acquire_account task_id) as [[[a r] t] trace1].
    cbn [fst snd] in *. injection Hnone as -> -> ->. cbn [fst snd].
    split; [done|]. apply Forall_app. split; [by repeat constructor|done].
  - destruct (repository m) as [[|c repo]|] eqn:Hrepo;
      [left; unfold process_issue; rewrite Hrepo; by repeat constructor|
      |left; unfold process_issue; rewrite Hrepo; by repeat constructor].
    destruct (issue_number m) as [[|n]|] eqn:Hnumber;
      [left; unfold process_issue; rewrite Hrepo, Hnumber; by repeat constructor|
      |left; unfold process_issue; rewrite Hrepo, Hnumber; by repeat constructor].
    right.
    destruct (acquire_account_with_retries acquire_account task_id) as [found trace1].
    cbn [fst snd] in *. subst found.
    destruct account as [[|a account]|]; try done.
    destruct role as [[|r role]|]; try done.
    exists c, repo, n, a, account, r, role, k, trace1. split_and!; try done. lia.
Qed.

(** X25. An account that was obtained is given back on every path. When
    the message names a repository and an issue and one of the first sixty
    calls gives an account, [process_issue] releases that account for this
    task as the last thing it does, and releases nothing before: whether
    the process returns, raises, or ends the program with [sys.exit], and
    whatever the upload, the comment and the deletion answer. *)
Theorem account_is_released_on_every_path task_id m receipt_handle k repo number account role :
  task_id ≠ EmptyString →
  repository m = Some repo → repo ≠ EmptyString →
  issue_number m = Some number → number ≠ 0 →
  k < MAX_ACCOUNT_ACQUIRE_RETRIES →
  (∀ i, i < k → fails (acquire_account i task_id)) →
  acquire_account k task_id = (Some account, Some role, true) →
  account ≠ EmptyString → role ≠ EmptyString →
  ∃ trace,
    (process_issue acquire_account run_process upload_result_to_s3 add_github_comment
       delete_message task_id m receipt_handle).2
    = trace ++ [ReleaseAccount account task_id]
    ∧ Forall (λ e, is_release e = false) trace
    ∧ RunProcess number repo role ∈ trace.
Proof.
  intros Htask Hrepo Hrepo' Hnumber Hnumber' Hk Hfail Hcall Haccount Hrole.
  destruct repo as [|c repo]; [done|]. destruct number as [|n]; [done|].
  destruct account as [|a account]; [done|]. destruct role as [|r role]; [done|].
  destruct task_id as [|t task_id]; [done|].
  rewrite (process_issue_with_account _ _ _ _ _ _ _ _ _ _ _ Hrepo Hnumber
             (acquire_loop_succeeds _ _ _ _ _ Hk Hfail Hcall eq_refl eq_refl)).
  cbn [fst snd].
  destruct (handle_issue_paths (S n) (String c repo) (String r role) receipt_handle)
    as (Hrelease & _).
  destruct (handle_issue_runs (S n) (String c repo) (String r role) receipt_handle)
    as [rest Hrest].
  exists ([ListQueueTags]
          ++ (attempts (String t task_id) 0 k ++ [AcquireAccount (String t task_id)])
          ++ (handle_issue run_process upload_result_to_s3 add_github_comment delete_message
                (S n) (String c repo) (String r role) receipt_handle).2).
  split_and!.
  - by rewrite <- !(assoc_L (++)).
  - pose proof (acquire_loop_events MAX_ACCOUNT_ACQUIRE_RETRIES 0 (String t task_id) []
                  ltac:(constructor)) as Hevents.
    fold (acquire_account_with_retries acquire_account (String t task_id)) in Hevents.
    rewrite (acquire_loop_succeeds _ _ _ _ _ Hk Hfail Hcall eq_refl eq_refl) in Hevents.
    cbn [snd] in Hevents.
    apply Forall_app. split; [by repeat constructor|].
    apply Forall_app. split; [|done].
    eapply Forall_impl; [exact Hevents|]. intros e He. by destruct e.
  - rewrite Hrest. rewrite !elem_of_app. right. right. by left.
Qed.


(** X27. The message leaves the queue only after the work is done.
    [process_issue] calls [delete_message] only with the receipt handle of
    its message, and only when the process returned, the upload gave a
    result, and the comment on the issue was posted. Whenever it returns
    [True] the deletion was called and answered [True]; when the process
    ends the program with [sys.exit], the message is not deleted. *)
Theorem message_is_deleted_only_after_success task_id m receipt_handle :
  let run := process_issue acquire_account run_process upload_result_to_s3
               add_github_comment delete_message task_id m receipt_handle in
  (∀ handle, DeleteMessage handle ∈ run.2 →
     handle = receipt_handle
     ∧ ∃ number repo role url,
         issue_number m = Some number ∧ repository m = Some repo
         ∧ run_process number repo role = ProcessReturns
         ∧ upload_result_to_s3 number repo = Some url ∧ url ≠ EmptyString
         ∧ add_github_comment repo number url = true
         ∧ Comment number url ∈ run.2)
  ∧ (run.1 = Returns true →
       DeleteMessage receipt_handle ∈ run.2 ∧ delete_message receipt_handle = true)
  ∧ (∀ code, run.1 = Exits code → Forall (λ e, is_deletion e = false) run.2).
Proof.
  intros run. subst run.
  destruct (process_issue_cases task_id m receipt_handle)
    as [[Hresult Hevents]|(c & repo & n & a & account & r & role & k & trace1
                           & Hrepo & Hnumber & Hk & Hcall & Hacquire & Hevents)].
  - split_and!.
    + intros handle Hin. rewrite Forall_forall in Hevents.
      by specialize (Hevents _ Hin).
    + by rewrite Hresult.
    + by rewrite Hresult.
  - rewrite (process_issue_with_account _ _ _ _ _ _ _ _ _ _ _ Hrepo Hnumber Hacquire).
    cbn [fst snd].
    destruct (handle_issue_paths (S n) (String c repo) (String r role) receipt_handle)
      as (_ & Hdeleted & Hsuccess & Hexit).
    rewrite Forall_forall in Hevents.
    assert (Hlast : ∀ handle,
               DeleteMessage handle
               ∉ match task_id with
                 | String _ _ => [ReleaseAccount (String a account) task_id]
                 | EmptyString => []
                 end).
    { intros handle Hin. destruct task_id; [by apply elem_of_nil in Hin|].
      apply elem_of_cons in Hin as [[=]|Hin]. by apply elem_of_nil in Hin. }
    split_and!.
    + intros handle Hin. rewrite !elem_of_app in Hin.
      destruct Hin as [Hin|[Hin|[Hin|Hin]]].
      * apply elem_of_cons in Hin as [[=]|Hin]. by apply elem_of_nil in Hin.
      * by specialize (Hevents _ Hin).
      * destruct (Hdeleted _ Hin) as (-> & _ & Hrun & url & Hurl & Hupload & Hcomment & Hc).
        split; [done|]. exists (S n), (String c repo), (String r role), url.
        split_and!; try done. rewrite !elem_of_app. by right; right; left.
      * by destruct (Hlast _ Hin).
    + intros Htrue. split.
      * rewrite !elem_of_app. right. right. left. by apply Hsuccess.
      * destruct (handle_issue_runs (S n) (String c repo) (String r role) receipt_handle)
          as [rest Hrest].
        specialize (Hsuccess Htrue). destruct (Hdeleted _ Hsuccess) as (_ & Hres & _).
        rewrite Hres in Htrue. by injection Htrue.
    + intros code Hcode. destruct (Hexit _ Hcode) as [_ Htrace]. rewrite Htrace.
      rewrite !Forall_app. split_and!; [by repeat constructor| |by repeat constructor|].
      * apply Forall_forall. intros e He. specialize (Hevents _ He). by destruct e.
      * destruct task_id; by repeat constructor.
Qed.

End Paths.

(** The process ends the program; the account of the third call is given
    back all the same. *)
Lemma account_is_released_on_every_path_witness :
  ∃ trace,
    (process_issue
       (λ n _, if Nat.ltb n 2 then (None, None, false)
               else (Some "111", Some "arn:role", true))
       (λ _ _ _, ProcessExits 0) (λ _ _, None) (λ _ _ _, false) (λ _, false)
       "task" (Message (Some 7) (Some "aws/aws-cdk")) (Some "handle")).2
    = trace ++ [ReleaseAccount "111" "task"]
    ∧ Forall (λ e, is_release e = false) trace
    ∧ RunProcess 7 "aws/aws-cdk" "arn:role" ∈ trace.
Proof.
  apply (account_is_released_on_every_path
           (λ n _, if Nat.ltb n 2 then (None, None, false)
                   else (Some "111", Some "arn:role", true))
           (λ _ _ _, ProcessExits 0) (λ _ _, None) (λ _ _ _, false) (λ _, false)
           "task" (Message (Some 7) (Some "aws/aws-cdk")) (Some "handle")
           2 "aws/aws-cdk" 7 "111" "arn:role"); try done.
  - unfold MAX_ACCOUNT_ACQUIRE_RETRIES. lia.
  - intros i Hi. destruct i as [|[|i]]; [reflexivity..|lia].
Defined.

(** *** Which issues are worked on *)


Lemma process_not_bug all_labels :
  ¬ (BUG_LABEL ∈ all_labels ∧ FEATURE_REQUEST_LABEL ∉ all_labels) →
  process 200 all_labels = (ProcessRaises "name 'logger' is not defined", false).
Proof.
  intros Hnot. unfold process, _retrieve_issue_type. cbn [Nat.eqb negb].
  destruct (bool_decide_reflect (BUG_LABEL ∈ all_labels)) as [Hbug|Hbug];
    destruct (bool_decide_reflect (FEATURE_REQUEST_LABEL ∈ all_labels)) as [Hfeature|Hfeature];
    cbn [andb]; try done.
  by destruct Hnot.
Qed.



(** X29. An issue that is not a plain bug is reported as a failure and
    stays in the queue. When GitHub answers with status 200 for an issue
    that is not labelled [bug], or is labelled [feature-request] too,
    [process_issue] returns [False] on every run, with or without an
    account: the exception of [process] is caught, nothing is uploaded, no
    comment is posted, and the message is not deleted from the queue; when
    the process was reached, the account is given back. *)
Theorem issue_that_is_not_a_bug_is_reported_as_failure
    acquire_account upload_result_to_s3 add_github_comment delete_message
    task_id m receipt_handle all_labels :
  ¬ (BUG_LABEL ∈ all_labels ∧ FEATURE_REQUEST_LABEL ∉ all_labels) →
  (process_issue acquire_account (λ _ _ _, (process 200 all_labels).1)
     upload_result_to_s3 add_github_comment delete_message task_id m receipt_handle).1
  = Returns false
  ∧ Forall (λ e, is_result e = false)
      (process_issue acquire_account (λ _ _ _, (process 200 all_labels).1)
         upload_result_to_s3 add_github_comment delete_message task_id m receipt_handle).2
  ∧ (task_id ≠ EmptyString →
     ∀ number repo role,
       RunProcess number repo role
       ∈ (process_issue acquire_account (λ _ _ _, (process 200 all_labels).1)
            upload_result_to_s3 add_github_comment delete_message task_id m
            receipt_handle).2 →
       ∃ account,
         last (process_issue acquire_account (λ _ _ _, (process 200 all_labels).1)
                 upload_result_to_s3 add_github_comment delete_message task_id m
                 receipt_handle).2
         = Some (ReleaseAccount account task_id)).
Proof.
  intros Hnot.
  destruct (process_issue_cases acquire_account (λ _ _ _, (process 200 all_labels).1)
              upload_result_to_s3 add_github_comment delete_message
              task_id m receipt_handle)
    as [[Hresult Hevents]|(c & repo' & n & a & account & r & role' & k & trace1
                           & Hrepo & Hnumber & Hk & Hcall & Hacquire & Hevents)].
  { split_and!; [done| |].
    - eapply Forall_impl; [exact Hevents|]. intros e He. by destruct e.
    - intros _ number repo role Hin. rewrite Forall_forall in Hevents.
      by specialize (Hevents _ Hin). }
  rewrite (process_issue_with_account _ _ _ _ _ _ _ _ _ _ _ _ _ _ _ _ Hrepo Hnumber Hacquire).
  unfold handle_issue. rewrite (process_not_bug _ Hnot). cbn [fst snd]. split_and!; [done| |].
  - rewrite !Forall_app. split_and!; [by repeat constructor| |by repeat constructor|].
    + eapply Forall_impl; [exact Hevents|]. intros e He. by destruct e.
    + destruct task_id; by repeat constructor.
  - intros Htask number repo role _. destruct task_id as [|t task_id]; [done|].
    exists (String a account). by rewrite !app_assoc, last_snoc.
Qed.

(** An issue with the two labels, on a worker that gets an account at
    once. *)
Lemma issue_that_is_not_a_bug_is_reported_as_failure_witness :
  (process_issue (λ _ _, (Some "111", Some "arn:role", true))
     (λ _ _ _, (process 200 ["bug"; "feature-request"]).1)
     (λ _ _, Some "url") (λ _ _ _, true) (λ _, true)
     "task" (Message (Some 7) (Some "aws/aws-cdk")) (Some "handle")).1
  = Returns false.
Proof.
  apply (issue_that_is_not_a_bug_is_reported_as_failure
           (λ _ _, (Some "111", Some "arn:role", true))
           (λ _ _, Some "url") (λ _ _ _, true) (λ _, true)
           "task" (Message (Some 7) (Some "aws/aws-cdk")) (Some "handle")
           ["bug"; "feature-request"]).
  intros [_ Hfeature]. apply Hfeature. unfold FEATURE_REQUEST_LABEL.
  apply elem_of_cons. right. apply elem_of_cons. by left.
Defined.

End Worker.

(** ** The webhook

    [github_webhook/index.py] ([validate_github_webhook],
    [lambda_handler]): which requests put an issue on the queue. *)

Module Webhook.

(** The request, as the handler reads it: two headers and the body, a
    string. *)
Record request : Type := Request {
  signature_header : option string;   (* headers.get('X-Hub-Signature-256') *)
  github_event : option string;       (* headers.get('X-GitHub-Event') *)
  body : string;                      (* event.get('body', '') *)
}.

(** What the handler reads of the parsed body. *)
Record payload : Type := Payload {
  action : option string;
  number : option nat;                (* issue.get('number') *)
  full_name : option string;          (* repository.get('full_name') *)
  labels : list string;               (* the names of issue.get('labels', []) *)
  title : option string;
  issue_body : option string;
  html_url : option string;
  login : option string;
}.

(** The message for the queue. *)
Record queue_message : Type := QueueMessage {
  msg_issue_number : option nat;
  msg_repository : option string;
  msg_title : option string;
  msg_body : option string;
  msg_labels : list string;
  msg_html_url : option string;
  msg_user : option string;
}.

Definition message_of (p : payload) : queue_message :=
  QueueMessage (number p) (full_name p) (title p) (issue_body p) (labels p)
    (html_url p) (login p).

(** The answers of the handler. *)
Inductive response : Type :=
  | InvalidSignature
  | NotNewIssue
  | Queued (message_id : string)
  | LabelsNotMet
  | Error.

Definition statusCode (r : response) : nat :=
  match r with
  | InvalidSignature => 401
  | NotNewIssue | Queued _ | LabelsNotMet => 200
  | Error => 500
  end.

(** What the handler does to the outside. *)
Inductive effect : Type :=
  | GetIssue (repo_name : option string) (issue_number : option nat)
  | PostComment (repo_name : option string) (issue_number : option nat)
  | SendMessage (m : queue_message)
  | PutEvents (message_id : string).

Definition truthy (s : option string) : bool :=
  match s with
  | Some (String _ _) => true
  | _ => false
  end.

Section Handler.
(** [hmac.new(secret, body, hashlib.sha256).hexdigest()] *)
Variable hexdigest : string → string → string.
(** [json.loads]; [None] when it raises. *)
Variable loads : string → option payload.
(** The configuration: the two secrets as [get_webhook_secret] and
    [get_github_token] return them, and the labels of the environment. *)
Variable webhook_secret : option string.
Variable github_token : option string.
Variable REQUIRED_LABELS : list string.
(** The status of the answer to the request for the issue; [None] when the
    request raises, or the answer has status 200 and a body that is not
    JSON. Whether the post of the comment raises does not matter. *)
Variable get_issue : option string → option nat → option nat.
(** [sqs.send_message]: the message id, [None] when it raises. *)
Variable send_message : queue_message → option string.

(** [str.isascii] *)
Fixpoint isascii (s : string) : bool :=
  match s with
  | EmptyString => true
  | String (Ascii _ _ _ _ _ _ _ b7) rest => negb b7 && isascii rest
  end.

(** [hmac.compare_digest] on two [str]: [TypeError] ([None]) unless both
    hold ASCII characters only. *)
Definition compare_digest (a b : string) : option bool :=
  if isascii a && isascii b then Some (String.eqb a b) else None.

(** [validate_github_webhook]; [None] when it raises. *)
Definition validate_github_webhook (event : request) (secret : option string)
  : option bool :=
  match secret with
  | Some (String c s) =>
      match signature_header event with
      | Some (String h header) =>
          match compare_digest ("sha256=" +:+ hexdigest (String c s) (body event))
                  (String h header) with
          | Some equal => Some equal
          | None => None
          end
      | _ => Some false
      end
  | _ => Some true
  end.

(** The test of the labels. *)
Definition should_process (issue_labels : list string) : bool :=
  match REQUIRED_LABELS with
  | [] => true
  | first :: _ =>
      if String.eqb first EmptyString then true
      else existsb (λ label, bool_decide (label ∈ issue_labels)) REQUIRED_LABELS
  end.

(** The calls to GitHub before the message is sent; their failures are
    caught. *)
Definition acknowledge (p : payload) : list effect :=
  if truthy github_token then
    [GetIssue (full_name p) (number p)]
    ++ match get_issue (full_name p) (number p) with
       | Some status_code =>
           if Nat.eqb status_code 200 then [PostComment (full_name p) (number p)] else []
       | None => []
       end
  else [].

(** The body of the [try] after the test of the signature. *)
Definition accepted (event : request) : response * list effect :=
  match loads (body event) with
  | None => (Error, [])
  | Some p =>
      if negb (bool_decide (github_event event = Some "issues"))
         || negb (bool_decide (action p = Some "opened"))
      then (NotNewIssue, [])
      else if should_process (labels p) then
        let effects := acknowledge p ++ [SendMessage (message_of p)] in
        match send_message (message_of p) with
        | None => (Error, effects)
        | Some message_id => (Queued message_id, effects ++ [PutEvents message_id])
        end
      else (LabelsNotMet, [])
  end.

(** [lambda_handler]: [webhook_secret and not validate_github_webhook(...)]
    calls the validation only when there is a secret; an exception of the
    validation reaches the [except] of the handler. *)
Definition lambda_handler (event : request) : response * list effect :=
  if truthy webhook_secret then
    match validate_github_webhook event webhook_secret with
    | None => (Error, [])
    | Some false => (InvalidSignature, [])
    | Some true => accepted event
    end
  else accepted event.

(** The request carries the signature of its body under the secret. *)
Definition signed (event : request) (secret : string) : Prop :=
  signature_header event = Some ("sha256=" +:+ hexdigest secret (body event)).

(** The signature header, when there is one, holds ASCII characters only. *)
Definition ascii_header (event : request) : bool :=
  match signature_header event with
  | Some header => isascii header
  | None => true
  end.

(** One of the required labels is on the issue. *)
Definition labelled (issue_labels : list string) : Prop :=
  ∃ label, label ∈ REQUIRED_LABELS ∧ label ∈ issue_labels.

(** The digest is written in hexadecimal digits. *)
Hypothesis hexdigest_ascii : ∀ key text, isascii (hexdigest key text) = true.

Lemma isascii_app a b : isascii (a +:+ b) = isascii a && isascii b.
Proof.
  induction a as [|[b0 b1 b2 b3 b4 b5 b6 b7] a IH]; [done|].
  change (negb b7 && isascii (a +:+ b) = negb b7 && isascii a && isascii b).
  by rewrite IH, andb_assoc.
Qed.

Lemma signature_ascii key text : isascii ("sha256=" +:+ hexdigest key text) = true.
Proof. by rewrite isascii_app, hexdigest_ascii. Qed.

(** The three answers of the validation under a secret. *)
Lemma validate_cases event c s :
  (validate_github_webhook event (Some (String c s)) = Some true
   ∧ signed event (String c s))
  ∨ (validate_github_webhook event (Some (String c s)) = Some false
     ∧ ¬ signed event (String c s) ∧ ascii_header event = true)
  ∨ (validate_github_webhook event (Some (String c s)) = None
     ∧ ¬ signed event (String c s) ∧ ascii_header event = false).
Proof.
  unfold validate_github_webhook, signed, ascii_header, compare_digest.
  destruct (signature_header event) as [[|h header]|].
  - right. left. by split_and!.
  - rewrite signature_ascii. cbn [andb].
    destruct (isascii (String h header)) eqn:Hascii.
    + destruct (String.eqb_spec ("sha256=" +:+ hexdigest (String c s) (body event))
                  (String h header)) as [Heq|Hne].
      * left. split; [done|]. by rewrite Heq.
      * right. left. split_and!; [done|congruence|done].
    + right. right. split_and!; [done| |done].
      intros Hsigned.
      assert (Heq : String h header
                    = "sha256=" +:+ hexdigest (String c s) (body event)) by congruence.
      rewrite Heq, signature_ascii in Hascii. done.
  - right. left. by split_and!.
Qed.

Lemma existsb_elem_of {A} (f : A → bool) (l : list A) :
  existsb f l = true ↔ ∃ x, x ∈ l ∧ f x = true.
Proof.
  induction l as [|y l IH]; cbn [existsb].
  - split; [done|]. intros (x & Hx & _). by apply elem_of_nil in Hx.
  - rewrite orb_true_iff, IH. split.
    + intros [Hy|(x & Hx & Hf)]; [exists y; split; [by left|done]|].
      exists x. split; [by right|done].
    + intros (x & Hx & Hf). apply elem_of_cons in Hx as [->|Hx]; [by left|].
      right. by exists x.
Qed.

Lemma should_process_labelled issue_labels :
  should_process issue_labels = true
  ↔ head REQUIRED_LABELS = None ∨ head REQUIRED_LABELS = Some EmptyString
    ∨ labelled issue_labels.
Proof.
  unfold should_process, labelled. destruct REQUIRED_LABELS as [|first rest] eqn:Hlabels.
  { split; [by left|done]. }
  cbn [head]. destruct (String.eqb_spec first EmptyString) as [->|Hfirst].
  { split; [by right; left|done]. }
  rewrite existsb_elem_of. split.
  - intros (label & Hin & Hlabel). right. right. exists label.
    by apply bool_decide_eq_true in Hlabel.
  - intros [[=]|[[=]|(label & Hin & Hlabel)]]; [done|].
    exists label. split; [done|by apply bool_decide_eq_true].
Qed.

Lemma acknowledge_sends_nothing p m : SendMessage m ∉ acknowledge p.
Proof.
  unfold acknowledge. destruct (truthy github_token); [|by apply not_elem_of_nil].
  destruct (get_issue (full_name p) (number p)) as [status_code|];
    [destruct (Nat.eqb status_code 200)|];
    intros Hin; repeat (apply elem_of_cons in Hin as [[=]|Hin]); by apply elem_of_nil in Hin.
Qed.

Lemma accepted_sends event m :
  SendMessage m ∈ (accepted event).2
  ↔ ∃ p, loads (body event) = Some p
         ∧ github_event event = Some "issues" ∧ action p = Some "opened"
         ∧ should_process (labels p) = true
         ∧ m = message_of p.
Proof.
  unfold accepted. destruct (loads (body event)) as [p|]; cbn [snd].
  2: { split; [by intros ?%elem_of_nil|by intros (p & [=] & _)]. }
  destruct (bool_decide_reflect (github_event event = Some "issues")) as [Hevent|Hevent];
    cbn [negb orb].
  2: { split; [by intros ?%elem_of_nil|by intros (q & _ & ? & _)]. }
  destruct (bool_decide_reflect (action p = Some "opened")) as [Haction|Haction];
    cbn [negb orb].
  2: { split; [by intros ?%elem_of_nil|]. intros (q & [= <-] & _ & ? & _). done. }
  destruct (should_process (labels p)) eqn:Hlabels.
  2: { split; [by intros ?%elem_of_nil|]. intros (q & [= <-] & _ & _ & ? & _). congruence. }
  assert (Hsent : SendMessage m ∈ acknowledge p ++ [SendMessage (message_of p)]
                  ↔ m = message_of p).
  { rewrite elem_of_app. split.
    - intros [Hin|Hin]; [by apply acknowledge_sends_nothing in Hin|].
      apply elem_of_cons in Hin as [[=]|Hin]; [done|by apply elem_of_nil in Hin].
    - intros ->. right. by left. }
  assert (Hgoal : m = message_of p
                  ↔ ∃ q, Some p = Some q ∧ github_event event = Some "issues"
                         ∧ action q = Some "opened" ∧ should_process (labels q) = true
                         ∧ m = message_of q).
  { split; [intros ->; by exists p|]. by intros (q & [= <-] & _ & _ & _ & ->). }
  rewrite <- Hgoal, <- Hsent.
  destruct (send_message (message_of p)) as [message_id|]; cbn [snd]; [|done].
  rewrite (elem_of_app _ [PutEvents message_id]). split; [|by left].
  intros [Hin|Hin]; [done|].
  apply elem_of_cons in Hin as [[=]|Hin]. by apply elem_of_nil in Hin.
Qed.

Lemma accepted_not_refused event : (accepted event).1 ≠ InvalidSignature.
Proof.
  unfold accepted. destruct (loads (body event)) as [p|]; [|done].
  destruct (negb _ || negb _); [done|]. destruct (should_process (labels p)); [|done].
  by destruct (send_message (message_of p)).
Qed.

(** X30. Which requests put an issue on the queue. The handler sends a
    message exactly when the signature is accepted, the body parses, the
    request is an [issues] event with action [opened], and the labels
    pass; the message is then the one built from the body. The signature is
    accepted when the request carries [sha256=] followed by the digest of
    its body under the secret, and also whenever no secret is there: then
    the header is not looked at. The labels pass when one of the required
    labels is on the issue, and also whenever the first required label is
    empty, whatever follows it. Under a secret, a request without that
    signature is answered with 401 when it has no signature header or
    one of ASCII characters, and with 500 when the header holds another
    character (the comparison raises); in both cases it has no effect. *)
Theorem issue_is_queued_exactly_when (event : request) (m : queue_message) :
  (SendMessage m ∈ (lambda_handler event).2
   ↔ (truthy webhook_secret = false
      ∨ ∃ secret, webhook_secret = Some secret ∧ signed event secret)
     ∧ ∃ p, loads (body event) = Some p
            ∧ github_event event = Some "issues" ∧ action p = Some "opened"
            ∧ (head REQUIRED_LABELS = None ∨ head REQUIRED_LABELS = Some EmptyString
               ∨ labelled (labels p))
            ∧ m = message_of p)
  ∧ ((lambda_handler event).1 = InvalidSignature
     ↔ ∃ secret, webhook_secret = Some secret ∧ secret ≠ EmptyString
                 ∧ ¬ signed event secret ∧ ascii_header event = true)
  ∧ (∀ secret, webhook_secret = Some secret → secret ≠ EmptyString →
       ¬ signed event secret →
       lambda_handler event
       = (if ascii_header event then InvalidSignature else Error, [])).
Proof.
  pose proof (accepted_not_refused event) as Hresp.
  unfold lambda_handler.
  destruct webhook_secret as [[|c s]|] eqn:Hsecret; cbn [truthy].
  - split_and!; [|split; [done|by intros (secret & [= <-] & ? & _)]|by intros secret [= <-]].
    rewrite accepted_sends. setoid_rewrite should_process_labelled.
    split; [intros H; split; [by left|done]|by intros [_ H]].
  - destruct (validate_cases event c s)
      as [[-> Hsigned]|[(-> & Hnot & Hascii)|(-> & Hnot & Hascii)]]; cbn [fst snd].
    + split_and!.
      * rewrite accepted_sends. setoid_rewrite should_process_labelled.
        split; [intros H; split; [right; by eexists|done]|by intros [_ H]].
      * split; [done|]. by intros (secret & [= <-] & _ & Hnot & _).
      * by intros secret [= <-] _ Hnot.
    + split_and!.
      * split; [by intros ?%elem_of_nil|].
        intros [[[=]|(secret & [= <-] & Hsigned)] _]. done.
      * split; [|done]. intros _. by exists (String c s).
      * intros secret [= <-] _ _. by rewrite Hascii.
    + split_and!.
      * split; [by intros ?%elem_of_nil|].
        intros [[[=]|(secret & [= <-] & Hsigned)] _]. done.
      * split; [done|]. intros (secret & [= <-] & _ & _ & ?). congruence.
      * intros secret [= <-] _ _. by rewrite Hascii.
  - split_and!; [|split; [done|by intros (secret & [=] & _)]|by intros secret [=]].
    rewrite accepted_sends. setoid_rewrite should_process_labelled.
    split; [intros H; split; [by left|done]|by intros [_ H]].
Qed.

End Handler.

(** A signed request for a new issue is queued when no label is required
    ([REQUIRED_LABELS] is what [split] makes of the empty string). *)
Lemma issue_is_queued_exactly_when_witness :
  SendMessage (QueueMessage (Some 7) (Some "aws/aws-cdk") None None [] None None)
  ∈ (lambda_handler (λ _ _, "ab12")
       (λ _, Some (Payload (Some "opened") (Some 7) (Some "aws/aws-cdk") [] None None
                     None None))
       (Some "secret") None [EmptyString] (λ _ _, None) (λ _, Some "id")
       (Request (Some "sha256=ab12") (Some "issues") "{}")).2.
Proof.
  apply (issue_is_queued_exactly_when (λ _ _, "ab12")
           (λ _, Some (Payload (Some "opened") (Some 7) (Some "aws/aws-cdk") [] None None
                         None None))
           (Some "secret") None [EmptyString] (λ _ _, None) (λ _, Some "id")
           (λ _ _, eq_refl)
           (Request (Some "sha256=ab12") (Some "issues") "{}")).
  split.
  - right. exists "secret". split; reflexivity.
  - eexists. split; [reflexivity|]. split; [reflexivity|]. split; [reflexivity|].
    split; [|reflexivity]. right. left. reflexivity.
Defined.

(** Under a secret, a signature header with a character outside ASCII is
    answered with 500, a wrong one of ASCII characters with 401, and
    without a secret the header is not looked at. *)
Example signature_header_outside_ascii :
  let handler secret header :=
    (lambda_handler (λ _ _, "ab12")
       (λ _, Some (Payload (Some "opened") (Some 7) (Some "aws/aws-cdk") [] None None
                     None None))
       secret None [EmptyString] (λ _ _, None) (λ _, Some "id")
       (Request (Some header) (Some "issues") "{}")).1 in
  handler (Some "secret") (String (ascii_of_nat 233) EmptyString) = Error
  ∧ handler (Some "secret") "sha256=0000" = InvalidSignature
  ∧ handler None (String (ascii_of_nat 233) EmptyString) = Queued "id".
Proof. by split_and!. Qed.

End Webhook.
